(** * typescript-graph: the graph filter, the directory tree builder and the
    mermaid serializer, embedded from [filterGraph] and [mermaidify.ts].

    Strings are [string] (8-bit characters), arrays are lists, [undefined]
    results are [option].  The output sink [write] is modelled as the list of
    the strings written so far; where a claim is about arrays as objects, the
    filter is also given on a store of arrays. *)

From Stdlib Require Import List String Ascii Bool Arith Lia Permutation.
Import ListNotations.
Open Scope string_scope.
Open Scope list_scope.

(* ================================================================== *)
(** * JavaScript string primitives used by the sources *)

(** [s.split(c)] for a one-character separator class: always at least one
    fragment, empty fragments are kept. *)
Fixpoint splitOn (isSep : ascii -> bool) (s : string) : list string :=
  match s with
  | EmptyString => [EmptyString]
  | String c s' =>
      if isSep c then EmptyString :: splitOn isSep s'
      else match splitOn isSep s' with
           | f :: fs => String c f :: fs
           | [] => [String c EmptyString]
           end
  end.

Definition isSlash (c : ascii) : bool := Ascii.eqb c "/"%char.
Definition isQuote (c : ascii) : bool := Ascii.eqb c (ascii_of_nat 34).

(** [s.split('/')] *)
Definition split_slash (s : string) : list string := splitOn isSlash s.

(** [arr.join(sep)] *)
Definition join (sep : string) (l : list string) : string := String.concat sep l.

(** [s.slice(n)] *)
Fixpoint drop (n : nat) (s : string) : string :=
  match n, s with
  | O, _ => s
  | S _, EmptyString => EmptyString
  | S k, String _ s' => drop k s'
  end.

(** [hay.includes(needle)] *)
Fixpoint includes (hay needle : string) : bool :=
  String.prefix needle hay
  || match hay with
     | EmptyString => false
     | String _ h' => includes h' needle
     end.

(** [s.replaceAll(pat, rep)] for a non-empty [pat] and a replacement without
    [$]: matches are found left to right and do not overlap.  [skip] counts
    the characters of the current match that are still to be consumed. *)
Fixpoint replaceAll_go (pat rep : string) (skip : nat) (s : string) : string :=
  match s with
  | EmptyString => EmptyString
  | String c s' =>
      match skip with
      | S k => replaceAll_go pat rep k s'
      | O =>
          if String.prefix pat s
          then (rep ++ replaceAll_go pat rep (String.length pat - 1) s')%string
          else String c (replaceAll_go pat rep 0 s')
      end
  end.

Definition replaceAll (pat rep s : string) : string := replaceAll_go pat rep 0 s.

(** [s.replace(pat, rep)] with a string pattern: only the first match. *)
Fixpoint replaceFirst (pat rep s : string) : string :=
  if String.prefix pat s then (rep ++ drop (String.length pat) s)%string
  else match s with
       | EmptyString => EmptyString
       | String c s' => String c (replaceFirst pat rep s')
       end.

(** [s.toLowerCase()] on strings of ASCII characters: the letters [A] to [Z]
    are folded and nothing else.  On letters outside ASCII the source folds
    more; what is stated about the folding is stated for strings of ASCII
    characters ([asciiOnly] below). *)
Definition lowerChar (c : ascii) : ascii :=
  let n := nat_of_ascii c in
  if Nat.leb 65 n && Nat.leb n 90 then ascii_of_nat (n + 32) else c.

Fixpoint toLowerCase (s : string) : string :=
  match s with
  | EmptyString => EmptyString
  | String c s' => String (lowerChar c) (toLowerCase s')
  end.

(** Does the character occur in the string. *)
Fixpoint hasChar (c : ascii) (s : string) : bool :=
  match s with
  | EmptyString => false
  | String d s' => Ascii.eqb c d || hasChar c s'
  end.

(* ================================================================== *)
(** * Node's [path.join] (POSIX) *)

(** One step of [normalizeString]: the stack of kept segments is held in
    reverse, last segment first. *)
Definition normStep (allowAboveRoot : bool) (stk : list string) (seg : string)
  : list string :=
  if String.eqb seg EmptyString || String.eqb seg "." then stk
  else if String.eqb seg ".." then
    match stk with
    | [] => if allowAboveRoot then [".."] else []
    | top :: rest =>
        if String.eqb top ".."
        then (if allowAboveRoot then ".." :: stk else stk)
        else rest
    end
  else seg :: stk.

Definition normalizeString (allowAboveRoot : bool) (p : string) : string :=
  join "/" (rev (fold_left (normStep allowAboveRoot) (split_slash p) [])).

Definition startsWithSlash (p : string) : bool :=
  match p with String c _ => isSlash c | EmptyString => false end.

Fixpoint endsWithSlash (p : string) : bool :=
  match p with
  | EmptyString => false
  | String c EmptyString => isSlash c
  | String _ p' => endsWithSlash p'
  end.

(** [path.normalize(p)] *)
Definition normalize (p : string) : string :=
  if String.eqb p EmptyString then "."
  else
    let isAbsolute := startsWithSlash p in
    let trailingSeparator := endsWithSlash p in
    let body := normalizeString (negb isAbsolute) p in
    if String.eqb body EmptyString then
      (if isAbsolute then "/" else if trailingSeparator then "./" else ".")
    else
      let body' := if trailingSeparator then (body ++ "/")%string else body in
      if isAbsolute then ("/" ++ body')%string else body'.

(** [path.join(...args)]: the non-empty arguments joined by [/], then
    normalized; [.] when nothing is left. *)
Definition path_join (args : list string) : string :=
  match filter (fun a => negb (String.eqb a EmptyString)) args with
  | [] => "."
  | nonEmpty => normalize (join "/" nonEmpty)
  end.


(* ================================================================== *)
(** * models.ts *)

(** The node as [mermaidify.ts] reads it: [path], [name] and the optional
    flags [isDirectory] and [highlight]. *)
Record Node := mkNode {
  path : string;
  name : string;
  isDirectory : option bool;
  highlight : option bool
}.

Record Relation := mkRelation {
  from : Node;
  to : Node;
  fullText : string
}.

(** The graph as [filterGraph] destructures it: [{ nodes, relations }]. *)
Record Graph := mkGraph {
  nodes : list Node;
  relations : list Relation
}.

Definition isSameNode (a b : Node) : bool := String.eqb (path a) (path b).

Definition isSameRelation (a b : Relation) : bool :=
  isSameNode (from a) (from b) && isSameNode (to a) (to b).

(** Modelled from the spec: [getUniqueNodes] is imported by [filterGraph]
    from a models module that is not among the sources.  Section 4.1:
    "first-seen order preserved, duplicates by path removed". *)
Definition getUniqueNodes (l : list Node) : list Node :=
  fold_left
    (fun pre current =>
       if existsb (fun node => isSameNode node current) pre then pre
       else pre ++ [current])
    l [].

(** Modelled from the spec: [getUniqueRelations] is imported by
    [filterGraph] from a models module that is not among the sources.
    Section 4.1: "deduplicated by endpoint-path pair". *)
Definition getUniqueRelations (l : list Relation) : list Relation :=
  fold_left
    (fun pre current =>
       if existsb (fun relation => isSameRelation relation current) pre then pre
       else pre ++ [current])
    l [].

(** [relations.map(({ from, to }) => [from, to]).flat()] *)
Definition endpoints (rs : list Relation) : list Node :=
  List.concat (map (fun r => [from r; to r]) rs).

(** Modelled from the spec: [extractUniqueNodes] is imported by
    [filterGraph] from a utils module that is not among the sources.
    Section 4.1: "deduplicated union of explicitly-kept nodes and every node
    appearing as an endpoint of a retained relation, ordered: explicit nodes
    first, encountered relation endpoints after". *)
Definition extractUniqueNodes (g : Graph) : list Node :=
  getUniqueNodes (nodes g ++ endpoints (relations g)).

(* ================================================================== *)
(** * filterGraph *)

(** [p.toLowerCase().includes(word.toLowerCase())] *)
Definition matchesWord (p word : string) : bool :=
  includes (toLowerCase p) (toLowerCase word).

(** [words.some(word => node.path...includes(word...))] *)
Definition nodeHits (words : list string) (node : Node) : bool :=
  existsb (fun word => matchesWord (path node) word) words.

(** [words.some(word => from.path...includes(...) || to.path...includes(...))] *)
Definition relationHits (words : list string) (r : Relation) : bool :=
  existsb
    (fun word => matchesWord (path (from r)) word || matchesWord (path (to r)) word)
    words.

(** [list && list.length !== 0] *)
Definition given (l : option (list string)) : option (list string) :=
  match l with
  | Some (_ :: _) => l
  | _ => None
  end.

(** lines 16-29: the include pass *)
Definition includePass (include : option (list string))
  (st : list Node * list Relation) : list Node * list Relation :=
  match given include with
  | Some ws => (filter (nodeHits ws) (fst st), filter (relationHits ws) (snd st))
  | None => st
  end.

(** lines 30-45: the exclude pass *)
Definition excludePass (exclude : option (list string))
  (st : list Node * list Relation) : list Node * list Relation :=
  match given exclude with
  | Some ws =>
      (filter (fun node => negb (nodeHits ws node)) (fst st),
       filter (fun r => negb (relationHits ws r)) (snd st))
  | None => st
  end.

(** lines 49-51: the nodes referenced by the retained relations, kept when
    some retained node differs from them. *)
Definition relationNodes (tmpNodes : list Node) (tmpRelations : list Relation)
  : list Node :=
  filter
    (fun node => existsb (fun tmpNode => negb (isSameNode node tmpNode)) tmpNodes)
    (getUniqueNodes (endpoints tmpRelations)).

(** lines 48-59: the predicate of [relations.filter] *)
Definition readmit (tmpNodes : list Node) (tmpRelations : list Relation)
  (r : Relation) : bool :=
  let rn := relationNodes tmpNodes tmpRelations in
  if existsb (fun node => isSameNode node (from r)) rn
     && existsb (fun node => isSameNode node (to r)) rn
  then true else false.

Definition filterGraph (include exclude : option (list string)) (g : Graph)
  : Graph :=
  let st0 := (nodes g, relations g) in
  let st2 := excludePass exclude (includePass include st0) in
  let tmpNodes := fst st2 in
  let tmpRelations := snd st2 in
  let tmpRelations' :=
    getUniqueRelations
      (tmpRelations ++ filter (readmit tmpNodes tmpRelations) (relations g)) in
  mkGraph (extractUniqueNodes (mkGraph tmpNodes tmpRelations')) tmpRelations'.

(* ================================================================== *)
(** * mermaidify.ts: the directory tree builder *)

Module Tree.
#[local] Set Warnings "-register-all".
(** [DirAndNodesTree] *)
Inductive t := mk {
  currentDir : string;
  nodes : list Node;
  children : list t
}.
End Tree.

Module DirAndNodes.
(** [DirAndNodes] *)
Record t := mk {
  currentDir : string;
  dirHierarchy : list string;
  nodes : list Node
}.
End DirAndNodes.

(** lines 53-66 *)
Definition getDirectoryPath (filePath : string) : option string :=
  let array := split_slash filePath in
  if existsb (String.eqb "node_modules") array then Some "node_modules"
  else if Nat.eqb (List.length array) 1 then None
  else Some (path_join (firstn (List.length array - 1) array)).

(** [prev.at(-1)] *)
Definition lastOf (l : list string) : option string :=
  match rev l with
  | x :: _ => Some x
  | [] => None
  end.

(** lines 72-81: every ancestor of a directory, outermost first *)
Definition ancestors (dirPath : string) : list string :=
  fold_left
    (fun prev current =>
       match lastOf prev with
       | Some prevValue =>
           if String.eqb prevValue EmptyString then prev ++ [current]
           else prev ++ [path_join [prevValue; current]]
       | None => prev ++ [current]
       end)
    (split_slash dirPath) [].

(** lines 70-83: [undefined] stays one element of the flattened array *)
Definition ancestorsOrUndefined (d : option string) : list (option string) :=
  match d with
  | None => [None]
  | Some dirPath =>
      if String.eqb dirPath EmptyString then [None]
      else map Some (ancestors dirPath)
  end.

(** lines 84-90 *)
Definition pushUnique (pre : list string) (current : option string)
  : list string :=
  match current with
  | None => pre
  | Some c =>
      if String.eqb c EmptyString then pre
      else if existsb (fun filePath => String.eqb filePath c) pre then pre
      else pre ++ [c]
  end.

(** lines 68-90 *)
Definition allDir (g : Graph) : list string :=
  fold_left pushUnique
    (List.concat
       (map ancestorsOrUndefined
          (map (fun n => getDirectoryPath (path n)) (nodes g))))
    [].

(** [getDirectoryPath(node.path) === currentDir] *)
Definition inDirectory (currentDir : string) (node : Node) : bool :=
  match getDirectoryPath (path node) with
  | Some d => String.eqb d currentDir
  | None => false
  end.

(** lines 98-104 *)
Definition dirAndNodes (g : Graph) : list DirAndNodes.t :=
  map
    (fun currentDir =>
       DirAndNodes.mk currentDir (split_slash currentDir)
         (filter (inDirectory currentDir) (nodes g)))
    (allDir g).

(** [parent.every((tmpdirname, i) => tmpdirname === candidate[i])] *)
Fixpoint everySame (parent candidate : list string) : bool :=
  match parent, candidate with
  | [], _ => true
  | _ :: _, [] => false
  | x :: parent', y :: candidate' => String.eqb x y && everySame parent' candidate'
  end.

(** lines 106-111 *)
Definition isChild (parentDirHierarchy candidate : list string) : bool :=
  if negb (Nat.eqb (List.length parentDirHierarchy + 1) (List.length candidate)) then false
  else everySame parentDirHierarchy candidate.

(** [arr.map(f)] for an [f] that may run out of fuel *)
Fixpoint mapOpt {A B} (f : A -> option B) (l : list A) : option (list B) :=
  match l with
  | [] => Some []
  | x :: l' =>
      match f x, mapOpt f l' with
      | Some y, Some ys => Some (y :: ys)
      | _, _ => None
      end
  end.

Definition childrenOf (dan : list DirAndNodes.t) (dirHierarchy : list string)
  : list DirAndNodes.t :=
  filter (fun item => isChild dirHierarchy (DirAndNodes.dirHierarchy item)) dan.

(** lines 113-138.  Each call descends one directory level; [fuel] bounds the
    depth and [None] means that it ran out. *)
Fixpoint createDirAndNodesRecursive (dan : list DirAndNodes.t) (fuel : nat)
  (e : DirAndNodes.t) : option (list Tree.t) :=
  match fuel with
  | O => None
  | S fuel' =>
      let kids := childrenOf dan (DirAndNodes.dirHierarchy e) in
      match mapOpt (createDirAndNodesRecursive dan fuel') kids with
      | None => None
      | Some subs =>
          if Nat.eqb (List.length (DirAndNodes.nodes e)) 0 && Nat.leb (List.length kids) 1
          then Some (List.concat subs)
          else Some [Tree.mk (DirAndNodes.currentDir e) (DirAndNodes.nodes e)
                       (List.concat subs)]
      end
  end.

(** The longest directory hierarchy: no chain of children is longer. *)
Definition depthBound (dan : list DirAndNodes.t) : nat :=
  list_max (map (fun e => List.length (DirAndNodes.dirHierarchy e)) dan).

(** lines 140-144 *)
Definition createDirAndNodesTree (g : Graph) : option (list Tree.t) :=
  let dan := dirAndNodes g in
  match
    mapOpt (createDirAndNodesRecursive dan (depthBound dan))
      (filter (fun e => Nat.eqb (List.length (DirAndNodes.dirHierarchy e)) 1) dan)
  with
  | Some subs => Some (List.concat subs)
  | None => None
  end.


(* ================================================================== *)
(** * mermaidify.ts: identifiers and labels *)

(** The one-character alternatives of the pattern of line 167. *)
Definition isSplitChar (c : ascii) : bool :=
  existsb (Ascii.eqb c)
    ["@"; "["; "]"; "-"; ">"; "<"; "{"; "}"; "("; ")"; "="; "&"; ",";
     ascii_of_nat 34; "%"; "^"; "*"; "_"]%char.

Definition startsWithTilde (s : string) : bool :=
  match s with
  | String c _ => Ascii.eqb c "~"%char
  | EmptyString => false
  end.

(** [fileName.split(/@|\[|\]|-|>|<|{|}|\(|\)|=|&|\|~|,|DQ|%|\^|\*|_/)], DQ
    standing for the double quote: the alternative [\|~] is the
    two-character sequence of a bar and a tilde.
    [skip] is set while the second character of that sequence is consumed. *)
Fixpoint splitId (skip : bool) (s : string) : list string :=
  match s with
  | EmptyString => [EmptyString]
  | String c s' =>
      if skip then splitId false s'
      else if isSplitChar c then EmptyString :: splitId false s'
      else if Ascii.eqb c "|"%char && startsWithTilde s'
      then EmptyString :: splitId true s'
      else match splitId false s' with
           | f :: fs => String c f :: fs
           | [] => [String c EmptyString]
           end
  end.

(** lines 165-173 *)
Definition fileNameToMermaidId (fileName : string) : string :=
  replaceAll "class" "class_"
    (replaceAll "graph" "graph_"
       (replaceAll "style" "style_"
          (replaceAll "/graph/" "/_graph_/"
             (join "//" (splitId false fileName))))).

(** lines 174-176 *)
Definition fileNameToMermaidName (fileName : string) : string :=
  join "//" (splitOn isQuote fileName).

(* ================================================================== *)
(** * mermaidify.ts: the serializer *)

Module Options.
(** [Partial<OptionValues> & { rootDir: string }] *)
Record t := mk {
  LR : option bool;
  TB : option bool;
  abstraction : option bool;
  highlight : option bool;
  mermaidLink : option bool;
  rootDir : string
}.
End Options.

(** Truthiness of an optional flag. *)
Definition truthy (b : option bool) : bool :=
  match b with Some true => true | _ => false end.

(** The sink: what has been written so far, oldest first. *)
Definition Sink := list string.
Definition write (arg : string) (out : Sink) : Sink := out ++ [arg].

Definition indent : string := "    ".
Definition CLASSNAME_DIR : string := "dir".
Definition CLASSNAME_HIGHLIGHT : string := "highlight".
Definition nl : string := String (ascii_of_nat 10) EmptyString.
Definition dquote : string := String (ascii_of_nat 34) EmptyString.

(** lines 147-163: the relations are first mapped to the identifiers of
    their endpoints, then each pair is written. *)
Definition writeRelations (rs : list Relation) (out : Sink) : Sink :=
  fold_left
    (fun o relation =>
       write nl (write ("    " ++ fst relation ++ "-->" ++ snd relation) o))
    (map
       (fun relation =>
          (fileNameToMermaidId (path (from relation)),
           fileNameToMermaidId (path (to relation))))
       rs)
    out.

(** lines 191-194 *)
Fixpoint indentOf (indentNumber : nat) : string :=
  match indentNumber with
  | O => indent
  | S k => (indentOf k ++ indent)%string
  end.

(** lines 206-216 *)
Definition nodeLine (_indent : string) (node : Node) : string :=
  (_indent ++ indent ++ fileNameToMermaidId (path node) ++ "[" ++ dquote
     ++ fileNameToMermaidName (name node) ++ dquote ++ "]"
     ++ (if truthy (highlight node) then ":::" ++ CLASSNAME_HIGHLIGHT
         else if truthy (isDirectory node) then ":::" ++ CLASSNAME_DIR
         else EmptyString))%string.

(** lines 195-201 *)
Definition subgraphLine (_indent : string) (currentDir : string)
  (parent : option string) : string :=
  (_indent ++ "subgraph " ++ fileNameToMermaidId currentDir ++ "[" ++ dquote
     ++ fileNameToMermaidName
          (match parent with
           | Some p =>
               if String.eqb p EmptyString then currentDir
               else replaceFirst p EmptyString currentDir
           | None => currentDir
           end)
     ++ dquote ++ "]")%string.

(** lines 185-224 *)
Fixpoint addGraph (tree : Tree.t) (indentNumber : nat) (parent : option string)
  (out : Sink) : Sink :=
  match tree with
  | Tree.mk currentDir nodes children =>
      let _indent := indentOf indentNumber in
      let out := write nl (write (subgraphLine _indent currentDir parent) out) in
      let out :=
        fold_left (fun o node => write nl (write (nodeLine _indent node) o))
          nodes out in
      let out :=
        fold_left
          (fun o child => addGraph child (S indentNumber) (Some currentDir) o)
          children out in
      write nl (write (_indent ++ "end") out)
  end.

(** lines 178-183 *)
Definition writeFileNodesWithSubgraph (trees : list Tree.t) (out : Sink) : Sink :=
  fold_left (fun o tree => addGraph tree 0 None o) trees out.

(** lines 241-246 *)
Definition linkLine (rootDir : string) (node : Node) : string :=
  (indent ++ "click " ++ fileNameToMermaidId (path node) ++ " href " ++ dquote
     ++ "vscode://file/" ++ path_join [rootDir; path node] ++ dquote
     ++ " _blank")%string.

(** lines 233-250 *)
Fixpoint addLink (tree : Tree.t) (rootDir : string) (out : Sink) : Sink :=
  match tree with
  | Tree.mk _ nodes children =>
      let out :=
        fold_left (fun o node => write nl (write (linkLine rootDir node) o))
          nodes out in
      fold_left (fun o child => addLink child rootDir o) children out
  end.

(** lines 225-231 *)
Definition writeFileLink (trees : list Tree.t) (rootDir : string) (out : Sink)
  : Sink :=
  fold_left (fun o tree => addLink tree rootDir o) trees out.

(** lines 24-38: the header and the class definitions *)
Definition writeHeader (options : Options.t) (out : Sink) : Sink :=
  let out :=
    if truthy (Options.LR options) then write ("flowchart LR" ++ nl) out
    else if truthy (Options.TB options) then write ("flowchart TB" ++ nl) out
    else write ("flowchart" ++ nl) out in
  let out :=
    if truthy (Options.abstraction options)
    then write (indent ++ "classDef " ++ CLASSNAME_DIR
                  ++ " fill:#0000,stroke:#999" ++ nl) out
    else out in
  if truthy (Options.highlight options)
  then write (indent ++ "classDef " ++ CLASSNAME_HIGHLIGHT
                ++ " fill:yellow,color:black" ++ nl) out
  else out.

(** lines 18-47.  [None] only if the tree builder ran out of fuel. *)
Definition mermaidify (graph : Graph) (options : Options.t) (out : Sink)
  : option Sink :=
  let out := writeHeader options out in
  match createDirAndNodesTree graph with
  | None => None
  | Some dirAndNodesTree =>
      let out := writeFileNodesWithSubgraph dirAndNodesTree out in
      let out := writeRelations (relations graph) out in
      if truthy (Options.mermaidLink options)
      then Some (writeFileLink dirAndNodesTree (Options.rootDir options) out)
      else Some out
  end.

(* ================================================================== *)
(** * The earlier serializer (the second [mermaidify] of the sources)

    It writes a markdown file; [fileName] of its node type is the [name]
    field here. *)

(** lines 20-30: without the case of a top-level file *)
Definition getDirectoryPath_v0 (filePath : string) : string :=
  let array := split_slash filePath in
  if existsb (String.eqb "node_modules") array then "node_modules"
  else path_join (firstn (List.length array - 1) array).

Definition isAtOrBracket (c : ascii) : bool :=
  existsb (Ascii.eqb c) ["@"; "["; "]"]%char.

(** lines 163-165: [fileName.split(/@|\[|\]/).join('__')] *)
Definition fileNameToMermaidId_v0 (fileName : string) : string :=
  join "__" (splitOn isAtOrBracket fileName).

(** lines 124-140 *)
Fixpoint addGraph_v0 (tree : Tree.t) (out : Sink) : Sink :=
  match tree with
  | Tree.mk currentDir nodes children =>
      let out :=
        write nl
          (write (indent ++ "subgraph " ++ fileNameToMermaidId_v0 currentDir
                    ++ "[" ++ dquote ++ currentDir ++ dquote ++ "]") out) in
      let out :=
        fold_left
          (fun o node =>
             write nl
               (write (indent ++ indent ++ fileNameToMermaidId_v0 (path node)
                         ++ "[" ++ dquote ++ name node ++ dquote ++ "]") o))
          nodes out in
      let out := fold_left (fun o child => addGraph_v0 child o) children out in
      write nl (write (indent ++ "end") out)
  end.

(** lines 109-161: what is written to the stream of the markdown file,
    [ws.end] being the last write. *)
Definition writeMarkdown (dirAndNodesTree : list Tree.t)
  (relations : list Relation) : Sink :=
  let out := write ("# typescript graph on mermaid" ++ nl) [] in
  let out := write nl out in
  let out := write ("```mermaid" ++ nl) out in
  let out := write "flowchart LR" out in
  let out := write nl out in
  let out := fold_left (fun o tree => addGraph_v0 tree o) dirAndNodesTree out in
  let out :=
    fold_left
      (fun o relation =>
         write nl (write ("    " ++ fst relation ++ "-->" ++ snd relation) o))
      (map
         (fun relation =>
            (fileNameToMermaidId_v0 (path (from relation)),
             fileNameToMermaidId_v0 (path (to relation))))
         relations)
      out in
  write ("```" ++ nl) out.

(* ================================================================== *)
(** * filterGraph over a store of arrays

    The arrays of the caller and those the filter creates live in one store;
    a reference is a position in it.  Every array method the filter uses
    ([...spread], [filter], [concat], [map], [flat]) creates a new array; the
    only write to an existing array is the [push] of the deduplicating
    [reduce], to the accumulator it has created itself. *)

Inductive Arr :=
| NodeArr (l : list Node)
| RelArr (l : list Relation).

Definition Store := list Arr.
Definition Ref := nat.

(** A computation on the store; [None] is a read of the wrong kind. *)
Definition M (A : Type) : Type := Store -> option (A * Store).

Definition ret {A} (x : A) : M A := fun s => Some (x, s).

Definition bind {A B} (c : M A) (k : A -> M B) : M B :=
  fun s => match c s with
           | Some (x, s') => k x s'
           | None => None
           end.

Notation "x <- c ;; k" := (bind c (fun x => k))
  (at level 61, c at next level, right associativity).

(** [new Array] with the given content. *)
Definition alloc (a : Arr) : M Ref :=
  fun s => Some (List.length s, s ++ [a]).

Definition readNodes (r : Ref) : M (list Node) :=
  fun s => match nth_error s r with
           | Some (NodeArr l) => Some (l, s)
           | _ => None
           end.

Definition readRels (r : Ref) : M (list Relation) :=
  fun s => match nth_error s r with
           | Some (RelArr l) => Some (l, s)
           | _ => None
           end.

Fixpoint setNth (r : nat) (a : Arr) (s : Store) {struct s} : Store :=
  match s with
  | [] => []
  | x :: s' =>
      match r with
      | O => a :: s'
      | S r' => x :: setNth r' a s'
      end
  end.

(** [arr.push(x)] *)
Definition pushNode (r : Ref) (x : Node) : M unit :=
  fun s => match nth_error s r with
           | Some (NodeArr l) => Some (tt, setNth r (NodeArr (l ++ [x])) s)
           | _ => None
           end.

Definition pushRel (r : Ref) (x : Relation) : M unit :=
  fun s => match nth_error s r with
           | Some (RelArr l) => Some (tt, setNth r (RelArr (l ++ [x])) s)
           | _ => None
           end.

Fixpoint forEachM {A} (f : A -> M unit) (l : list A) : M unit :=
  match l with
  | [] => ret tt
  | x :: l' => _ <- f x ;; forEachM f l'
  end.

(** [arr.filter(callback)] for a callback that works on the store. *)
Fixpoint filterM {A} (p : A -> M bool) (l : list A) : M (list A) :=
  match l with
  | [] => ret []
  | x :: l' =>
      b <- p x ;;
      rest <- filterM p l' ;;
      ret (if b then x :: rest else rest)
  end.

(** The callbacks of the deduplicating [reduce]: [pre] is the accumulator. *)
Definition pushUniqueNode (pre : Ref) (current : Node) : M unit :=
  seen <- readNodes pre ;;
  if existsb (fun node => isSameNode node current) seen then ret tt
  else pushNode pre current.

Definition pushUniqueRelation (pre : Ref) (current : Relation) : M unit :=
  seen <- readRels pre ;;
  if existsb (fun relation => isSameRelation relation current) seen then ret tt
  else pushRel pre current.

(** Modelled from the spec: [getUniqueNodes], as above, with the
    accumulator of its [reduce] in the store. *)
Definition getUniqueNodesM (src : Ref) : M Ref :=
  l <- readNodes src ;;
  pre <- alloc (NodeArr []) ;;
  _ <- forEachM (pushUniqueNode pre) l ;;
  ret pre.

(** Modelled from the spec: [getUniqueRelations], as above, with the
    accumulator of its [reduce] in the store. *)
Definition getUniqueRelationsM (src : Ref) : M Ref :=
  l <- readRels src ;;
  pre <- alloc (RelArr []) ;;
  _ <- forEachM (pushUniqueRelation pre) l ;;
  ret pre.

(** [rels.map(({ from, to }) => [from, to]).flat()] *)
Definition endpointsM (rels : Ref) : M Ref :=
  l <- readRels rels ;;
  alloc (NodeArr (endpoints l)).

(** lines 49-51 *)
Definition relationNodesM (tmpNodes tmpRelations : Ref) : M Ref :=
  e <- endpointsM tmpRelations ;;
  u <- getUniqueNodesM e ;;
  ul <- readNodes u ;;
  N <- readNodes tmpNodes ;;
  alloc (NodeArr
           (filter
              (fun node =>
                 existsb (fun tmpNode => negb (isSameNode node tmpNode)) N)
              ul)).

(** lines 48-59: the callback of [relations.filter] *)
Definition readmitM (tmpNodes tmpRelations : Ref) (r : Relation) : M bool :=
  rn <- relationNodesM tmpNodes tmpRelations ;;
  l <- readNodes rn ;;
  ret (if existsb (fun node => isSameNode node (from r)) l
          && existsb (fun node => isSameNode node (to r)) l
       then true else false).

(** lines 16-29 *)
Definition includePassM (include : option (list string)) (st : Ref * Ref)
  : M (Ref * Ref) :=
  match given include with
  | Some ws =>
      N <- readNodes (fst st) ;;
      tmpNodes <- alloc (NodeArr (filter (nodeHits ws) N)) ;;
      R <- readRels (snd st) ;;
      tmpRelations <- alloc (RelArr (filter (relationHits ws) R)) ;;
      ret (tmpNodes, tmpRelations)
  | None => ret st
  end.

(** lines 30-45 *)
Definition excludePassM (exclude : option (list string)) (st : Ref * Ref)
  : M (Ref * Ref) :=
  match given exclude with
  | Some ws =>
      N <- readNodes (fst st) ;;
      tmpNodes <-
        alloc (NodeArr (filter (fun node => negb (nodeHits ws node)) N)) ;;
      R <- readRels (snd st) ;;
      tmpRelations <-
        alloc (RelArr (filter (fun r => negb (relationHits ws r)) R)) ;;
      ret (tmpNodes, tmpRelations)
  | None => ret st
  end.

(** Modelled from the spec: [extractUniqueNodes], as above, on the store. *)
Definition extractUniqueNodesM (nodesRef relsRef : Ref) : M Ref :=
  N <- readNodes nodesRef ;;
  e <- endpointsM relsRef ;;
  el <- readNodes e ;;
  allNodes <- alloc (NodeArr (N ++ el)) ;;
  getUniqueNodesM allNodes.

(** lines 9-67: the graph is given by the references of its two arrays, and
    so is the result. *)
Definition filterGraphM (include exclude : option (list string))
  (nodesRef relsRef : Ref) : M (Ref * Ref) :=
  N0 <- readNodes nodesRef ;;
  tmpNodes <- alloc (NodeArr N0) ;;
  R0 <- readRels relsRef ;;
  tmpRelations <- alloc (RelArr R0) ;;
  st <- includePassM include (tmpNodes, tmpRelations) ;;
  st <- excludePassM exclude st ;;
  relations0 <- readRels relsRef ;;
  readmitted <- filterM (readmitM (fst st) (snd st)) relations0 ;;
  readmittedRef <- alloc (RelArr readmitted) ;;
  K <- readRels (snd st) ;;
  again <- readRels readmittedRef ;;
  concatRef <- alloc (RelArr (K ++ again)) ;;
  tmpRelations' <- getUniqueRelationsM concatRef ;;
  nodesOut <- extractUniqueNodesM (fst st) tmpRelations' ;;
  ret (nodesOut, tmpRelations').

(** The store has grown and every array that was in it is as it was. *)
Definition frame (s s' : Store) : Prop :=
  List.length s <= List.length s'
  /\ forall a, a < List.length s -> nth_error s' a = nth_error s a.

(** The computation returns from [s] with a value and a store that satisfy
    [Q], leaving the arrays of [s] as they were. *)
Definition runs {A} (c : M A) (s : Store) (Q : A -> Store -> Prop) : Prop :=
  exists v s', c s = Some (v, s') /\ frame s s' /\ Q v s'.

(* ================================================================== *)
(** * Predicates used in the statements *)

(** The string holds no path separator. *)
Definition slashFree (s : string) : Prop := hasChar "/"%char s = false.

(** A segment that [normalizeString] pushes as it is. *)
Definition plainSeg (s : string) : Prop :=
  s <> EmptyString /\ s <> "." /\ s <> ".." /\ slashFree s.

(** The stacks [normalizeString] can reach for a relative path, top first:
    plain segments above a run of [..]. *)
Inductive canonStk : list string -> Prop :=
| canon_ups ups : Forall (eq "..") ups -> canonStk ups
| canon_push s stk : plainSeg s -> canonStk stk -> canonStk (s :: stk).

Definition goodSeg (s : string) : Prop := s <> EmptyString /\ slashFree s.

(** The segment lists of the directories the builder sees: the lone [.]
    or a non-empty canonical list. *)
Definition dirSegs (c : list string) : Prop :=
  c = ["."] \/ (c <> [] /\ canonStk (rev c)).

(** The directory of a path in the words of the specification (section
    4.2): the bucket [node_modules] if some segment is that literal, nothing
    for a single segment, otherwise all segments but the last joined by the
    separator. *)
Definition directoryOf_spec (p : string) : option string :=
  let segs := split_slash p in
  if existsb (String.eqb "node_modules") segs then Some "node_modules"
  else if Nat.eqb (List.length segs) 1 then None
  else Some (join "/" (removelast segs)).

(** A segment that is neither empty nor [.] nor [..]. *)
Definition regularSeg (s : string) : bool :=
  negb (String.eqb s EmptyString) && negb (String.eqb s ".")
  && negb (String.eqb s "..").

(** A path whose directory [path.join] leaves as it is written. *)
Definition regularPath (p : string) : bool :=
  let segs := split_slash p in
  existsb (String.eqb "node_modules") segs
  || Nat.eqb (List.length segs) 1
  || forallb regularSeg (removelast segs).

(** The reserved characters of section 4.3 of the specification. *)
Definition reservedChars : list ascii :=
  ["@"; "["; "]"; "-"; ">"; "<"; "{"; "}"; "("; ")"; "="; "&"; "|"; "~"; ",";
   ascii_of_nat 34; "%"; "^"; "*"; "_"]%char.

(** The identifier holds none of the reserved characters. *)
Definition reservedFree (id : string) : bool :=
  forallb (fun c => negb (hasChar c id)) reservedChars.



(** The directed-arrow line of a relation: the sanitized identifiers of its
    endpoints around the arrow. *)
Definition arrowLine (r : Relation) : string :=
  ("    " ++ fileNameToMermaidId (path (from r)) ++ "-->"
     ++ fileNameToMermaidId (path (to r)))%string.

(** What one relation contributes to the output: its arrow line and a line
    break. *)
Definition arrowWrites (r : Relation) : list string := [arrowLine r; nl].

(** First-seen deduplication under an equality test: the shape shared by
    [getUniqueNodes] and [getUniqueRelations]. *)
Definition uniqueFrom {A} (same : A -> A -> bool) (l acc : list A) : list A :=
  fold_left
    (fun pre current =>
       if existsb (fun x => same x current) pre then pre else pre ++ [current])
    l acc.

(** No two elements of the list pass the equality test. *)
Fixpoint distinctBy {A} (same : A -> A -> bool) (l : list A) : bool :=
  match l with
  | [] => true
  | x :: l' => negb (existsb (fun y => same x y) l') && distinctBy same l'
  end.

(** The graph of the data model: node paths are unique, relations are unique
    by endpoint paths, and every endpoint is one of the nodes. *)
Definition wellFormedGraph (g : Graph) : bool :=
  distinctBy isSameNode (nodes g)
  && distinctBy isSameRelation (relations g)
  && forallb (fun e => existsb (fun n => isSameNode n e) (nodes g))
       (endpoints (relations g)).

(** The identity of a relation: the paths of its endpoints. *)
Definition relationKey (r : Relation) : string * string :=
  (path (from r), path (to r)).

(** Two graphs with the same node paths and the same relation identities, in
    the same order. *)
Definition sameGraph (g1 g2 : Graph) : Prop :=
  map path (nodes g1) = map path (nodes g2)
  /\ map relationKey (relations g1) = map relationKey (relations g2).

(** A node passes the include and the exclude pass. *)
Definition keepsNode (include exclude : option (list string)) (n : Node) : bool :=
  match given include with Some ws => nodeHits ws n | None => true end
  && match given exclude with Some ws => negb (nodeHits ws n) | None => true end.

(** A relation passes the include and the exclude pass. *)
Definition keepsRelation (include exclude : option (list string))
  (r : Relation) : bool :=
  match given include with Some ws => relationHits ws r | None => true end
  && match given exclude with Some ws => negb (relationHits ws r) | None => true end.

(** The working sets after the include and the exclude pass. *)
Definition keptNodes (include exclude : option (list string)) (g : Graph)
  : list Node :=
  fst (excludePass exclude (includePass include (nodes g, relations g))).

Definition keptRelations (include exclude : option (list string)) (g : Graph)
  : list Relation :=
  snd (excludePass exclude (includePass include (nodes g, relations g))).

(** The node is an endpoint, by path, of one of the relations. *)
Definition referenced (rs : list Relation) (u : Node) : bool :=
  existsb (fun n => isSameNode n u) (endpoints rs).

(** Re-admission in the words of the specification (section 4.1): both
    endpoints are referenced by the retained relations. *)
Definition readmit_spec (tmpRelations : list Relation) (r : Relation) : bool :=
  referenced tmpRelations (from r) && referenced tmpRelations (to r).

Definition isEmpty {A} (l : list A) : bool :=
  match l with [] => true | _ => false end.

(** [words.some(word => p...includes(word...))] on a path. *)
Definition pathHits (words : list string) (p : string) : bool :=
  existsb (fun word => matchesWord p word) words.

(** The test of line 51 on one node. *)
Definition differsFromSome (tmpNodes : list Node) (node : Node) : bool :=
  existsb (fun tmpNode => negb (isSameNode node tmpNode)) tmpNodes.

(** The non-empty prefixes of a segment list, shortest first, each after
    [pre]. *)
Fixpoint prefixesFrom (pre c : list string) : list (list string) :=
  match c with
  | [] => []
  | s :: c' => (pre ++ [s]) :: prefixesFrom (pre ++ [s]) c'
  end.

(** The step of the [reduce] of lines 73-81. *)
Definition ancestorStep (prev : list string) (current : string) : list string :=
  match lastOf prev with
  | Some prevValue =>
      if String.eqb prevValue EmptyString then prev ++ [current]
      else prev ++ [path_join [prevValue; current]]
  | None => prev ++ [current]
  end.

(** The segment list, extended by [rest], is the directory of a node. *)
Definition dirOfNode (g : Graph) (c : list string) : Prop :=
  exists n rest,
    In n (nodes g) /\ c <> [] /\ dirSegs (c ++ rest)
    /\ getDirectoryPath (path n) = Some (join "/" (c ++ rest)).

(** All tree nodes of a tree, the tree itself first. *)
Fixpoint treeNodes1 (t : Tree.t) : list Tree.t :=
  match t with
  | Tree.mk _ _ children => t :: flat_map treeNodes1 children
  end.

(** All tree nodes of a forest, at every depth. *)
Definition treeNodes (forest : list Tree.t) : list Tree.t :=
  flat_map treeNodes1 forest.

Definition optionBool_eqb (a b : option bool) : bool :=
  match a, b with
  | Some x, Some y => Bool.eqb x y
  | None, None => true
  | _, _ => false
  end.

(** Equality of nodes, field by field. *)
Definition Node_eqb (a b : Node) : bool :=
  String.eqb (path a) (path b) && String.eqb (name a) (name b)
  && optionBool_eqb (isDirectory a) (isDirectory b)
  && optionBool_eqb (highlight a) (highlight b).

(** The tree nodes of the forest whose [nodes] list holds the node. *)
Definition holders (n : Node) (forest : list Tree.t) : list Tree.t :=
  filter (fun t => existsb (Node_eqb n) (Tree.nodes t)) (treeNodes forest).

(** The tree nodes of the forest for the directory. *)
Definition atDir (d : string) (forest : list Tree.t) : list Tree.t :=
  filter (fun t => String.eqb (Tree.currentDir t) d) (treeNodes forest).

(** The entry of [dirAndNodes] for a directory. *)
Definition entryOf (g : Graph) (currentDir : string) : DirAndNodes.t :=
  DirAndNodes.mk currentDir (split_slash currentDir)
    (filter (inDirectory currentDir) (nodes g)).

(** The test of lines 118-122: no file of its own and at most one child. *)
Definition elidedEntry (dan : list DirAndNodes.t) (e : DirAndNodes.t) : bool :=
  Nat.eqb (List.length (DirAndNodes.nodes e)) 0
  && Nat.leb (List.length (childrenOf dan (DirAndNodes.dirHierarchy e))) 1.

Definition elided (g : Graph) (d : string) : bool :=
  elidedEntry (dirAndNodes g) (entryOf g d).

(** What the builder keeps for every tree node. *)
Definition treeNodeOk (g : Graph) (t : Tree.t) : Prop :=
  In (Tree.currentDir t) (allDir g)
  /\ Tree.nodes t = filter (inDirectory (Tree.currentDir t)) (nodes g)
  /\ elided g (Tree.currentDir t) = false.

(** What is shown of the result for one entry: how many of its tree nodes
    are for the target directory [d], and that all of them are as built. *)
Definition resultOk (g : Graph) (d : string) (fuel : nat) (k : DirAndNodes.t)
  : Prop :=
  exists r,
    createDirAndNodesRecursive (dirAndNodes g) fuel k = Some r
    /\ List.length (atDir d r)
       = (if everySame (DirAndNodes.dirHierarchy k) (split_slash d)
             && negb (elided g d)
          then 1 else 0)
    /\ Forall (treeNodeOk g) (treeNodes r).

(** The pattern of line 167 matches somewhere in the string. *)
Fixpoint hasSplitPoint (s : string) : bool :=
  match s with
  | EmptyString => false
  | String c s' =>
      isSplitChar c
      || (Ascii.eqb c "|"%char && startsWithTilde s')
      || hasSplitPoint s'
  end.

(** The path has a directory. *)
Definition hasDirectory (n : Node) : bool :=
  match getDirectoryPath (path n) with
  | Some _ => true
  | None => false
  end.

(** The tree node has a file of its own or at least two children. *)
Definition ownsOrBranches (t : Tree.t) : Prop :=
  Tree.nodes t <> [] \/ 2 <= List.length (Tree.children t).

(** The directory of every child lies properly below that of the tree
    node. *)
Definition nestedOk (t : Tree.t) : Prop :=
  forall c, In c (Tree.children t) ->
    exists rest,
      rest <> []
      /\ split_slash (Tree.currentDir c)
         = split_slash (Tree.currentDir t) ++ rest.

(** What [addLink] writes for one file: its click line and a line break. *)
Definition linkWrites (rootDir : string) (n : Node) : list string :=
  [linkLine rootDir n; nl].

(** The lines of the header: the direction, then the class of directory
    placeholders, then the class of highlighted nodes. *)
Definition headerLines (options : Options.t) : list string :=
  [if truthy (Options.LR options) then ("flowchart LR" ++ nl)%string
   else if truthy (Options.TB options) then ("flowchart TB" ++ nl)%string
   else ("flowchart" ++ nl)%string]
  ++ (if truthy (Options.abstraction options)
      then [(indent ++ "classDef " ++ CLASSNAME_DIR
               ++ " fill:#0000,stroke:#999" ++ nl)%string]
      else [])
  ++ (if truthy (Options.highlight options)
      then [(indent ++ "classDef " ++ CLASSNAME_HIGHLIGHT
               ++ " fill:yellow,color:black" ++ nl)%string]
      else []).

(** Every endpoint of a relation of the graph is, by path, one of its
    nodes. *)
Definition endpointsClosed (g : Graph) : bool :=
  forallb (fun e => existsb (fun n => isSameNode n e) (nodes g))
    (endpoints (relations g)).

(** The arrow line of the earlier serializer. *)
Definition arrowLine_v0 (r : Relation) : string :=
  ("    " ++ fileNameToMermaidId_v0 (path (from r)) ++ "-->"
     ++ fileNameToMermaidId_v0 (path (to r)))%string.

(** The last character of a string. *)
Fixpoint lastChar (s : string) : option ascii :=
  match s with
  | EmptyString => None
  | String c EmptyString => Some c
  | String _ s' => lastChar s'
  end.

(** [s.endsWith(suffix)] *)
Fixpoint endsWith (suffix s : string) : bool :=
  String.eqb s suffix
  || match s with
     | EmptyString => false
     | String _ s' => endsWith suffix s'
     end.

(** The shape of what [addLink] writes for a file: the keyword [click] after
    the indentation, a quoted target, and [_blank] at the end. *)
Definition isClickLine (s : string) : bool :=
  String.prefix (indent ++ "click ") s
  && hasChar (ascii_of_nat 34) s
  && endsWith " _blank" s.

(** The strings on which [toLowerCase] is the folding of the source: every
    character is below 128. *)
Definition isAsciiChar (c : ascii) : bool := Nat.ltb (nat_of_ascii c) 128.

Fixpoint asciiOnly (s : string) : bool :=
  match s with
  | EmptyString => true
  | String c s' => isAsciiChar c && asciiOnly s'
  end.

Definition asciiWords (l : option (list string)) : bool :=
  match l with
  | Some ws => forallb asciiOnly ws
  | None => true
  end.

Definition asciiGraph (g : Graph) : bool :=
  forallb (fun n => asciiOnly (path n)) (nodes g)
  && forallb (fun r => asciiOnly (path (from r)) && asciiOnly (path (to r)))
       (relations g).

(** An upper-case ASCII letter and the lower-case letter it stands for. *)
Definition upperOf (c d : ascii) : bool :=
  Nat.leb 65 (nat_of_ascii c) && Nat.leb (nat_of_ascii c) 90
  && Nat.eqb (nat_of_ascii c + 32) (nat_of_ascii d).

(** The same character, or the same ASCII letter in the other case. *)
Definition sameLetter (c d : ascii) : bool :=
  Ascii.eqb c d || upperOf c d || upperOf d c.

(** Two strings that differ in the case of ASCII letters only. *)
Fixpoint sameUpToCase (s t : string) : bool :=
  match s, t with
  | EmptyString, EmptyString => true
  | String c s', String d t' => sameLetter c d && sameUpToCase s' t'
  | _, _ => false
  end.

Fixpoint sameWordList (ws ws' : list string) : bool :=
  match ws, ws' with
  | [], [] => true
  | w :: ws, w' :: ws' => sameUpToCase w w' && sameWordList ws ws'
  | _, _ => false
  end.

(** Two optional word lists that differ in the case of ASCII letters only. *)
Definition sameWords (l l' : option (list string)) : bool :=
  match l, l' with
  | None, None => true
  | Some ws, Some ws' => sameWordList ws ws'
  | _, _ => false
  end.

(* ================================================================== *)
(** * Facts about the string primitives *)

Section SplitJoin.

Lemma splitOn_not_nil (isSep : ascii -> bool) (s : string) :
  splitOn isSep s <> [].
Proof.
  destruct s as [|c s]; simpl; [discriminate|].
  destruct (isSep c); [discriminate|].
  destruct (splitOn isSep s); discriminate.
Qed.

Lemma join_cons (sep x : string) (l : list string) :
  l <> [] -> join sep (x :: l) = (x ++ sep ++ join sep l)%string.
Proof. destruct l; [congruence | reflexivity]. Qed.

Lemma isSlash_true (c : ascii) : isSlash c = true -> c = "/"%char.
Proof. unfold isSlash. apply Ascii.eqb_eq. Qed.

(** [s.split('/').join('/')] gives [s] back. *)
Lemma join_split_slash (s : string) : join "/" (split_slash s) = s.
Proof.
  unfold split_slash.
  induction s as [|c s IH]; simpl; [reflexivity|].
  destruct (isSlash c) eqn:E.
  - rewrite join_cons by apply splitOn_not_nil.
    rewrite IH. apply isSlash_true in E. subst c. reflexivity.
  - pose proof (splitOn_not_nil isSlash s) as Hne.
    destruct (splitOn isSlash s) as [|f fs]; [congruence|].
    destruct fs as [|f' fs].
    + simpl in *. congruence.
    + change (join "/" (String c f :: f' :: fs))
        with (String c (join "/" (f :: f' :: fs))).
      now rewrite IH.
Qed.

Lemma slashFree_String (c : ascii) (s : string) :
  slashFree (String c s) <-> isSlash c = false /\ slashFree s.
Proof.
  unfold slashFree, isSlash.
  change (hasChar "/"%char (String c s))
    with (Ascii.eqb "/"%char c || hasChar "/"%char s).
  rewrite orb_false_iff, (Ascii.eqb_sym "/"%char c). tauto.
Qed.

Lemma split_slash_free (s : string) : slashFree s -> split_slash s = [s].
Proof.
  unfold split_slash.
  induction s as [|c s IH]; intros H; [reflexivity|].
  apply slashFree_String in H as [Hc Hs].
  simpl. rewrite Hc, (IH Hs). reflexivity.
Qed.

Lemma split_slash_app (s rest : string) :
  slashFree s ->
  split_slash (s ++ String "/"%char rest) = s :: split_slash rest.
Proof.
  unfold split_slash.
  induction s as [|c s IH]; intros H.
  - reflexivity.
  - apply slashFree_String in H as [Hc Hs].
    simpl. rewrite Hc, (IH Hs). reflexivity.
Qed.

(** [segs.join('/').split('/')] gives [segs] back when no segment holds a
    separator. *)
Lemma split_join_slash (segs : list string) :
  segs <> [] -> Forall slashFree segs ->
  split_slash (join "/" segs) = segs.
Proof.
  induction segs as [|s segs IH]; intros Hne HF; [congruence|].
  inversion HF as [|? ? Hs HF']; subst.
  destruct segs as [|s' segs].
  - simpl. now apply split_slash_free.
  - rewrite join_cons by discriminate.
    change (s ++ "/" ++ join "/" (s' :: segs))%string
      with (s ++ String "/"%char (join "/" (s' :: segs)))%string.
    rewrite split_slash_app by assumption.
    rewrite IH; [reflexivity | discriminate | assumption].
Qed.

(** The fragments of a split hold no separator. *)
Lemma split_slash_slashFree (s : string) : Forall slashFree (split_slash s).
Proof.
  unfold split_slash.
  induction s as [|c s IH]; simpl.
  - constructor; [reflexivity | constructor].
  - destruct (isSlash c) eqn:E.
    + constructor; [reflexivity | assumption].
    + pose proof (splitOn_not_nil isSlash s) as Hne.
      destruct (splitOn isSlash s) as [|f fs]; [congruence|].
      inversion IH; subst.
      constructor; [|assumption].
      apply slashFree_String. split; assumption.
Qed.

End SplitJoin.

(* ================================================================== *)
(** * Facts about [path.join] *)

Section PathJoin.

Lemma canonStk_tail (s : string) (stk : list string) :
  canonStk (s :: stk) -> canonStk stk.
Proof.
  inversion 1 as [ups HF|]; subst; [|assumption].
  inversion HF; subst. now constructor.
Qed.

Lemma canonStk_suffix (a b : list string) : canonStk (a ++ b) -> canonStk b.
Proof.
  induction a as [|x a IH]; simpl; [trivial|].
  intros H. apply IH. eapply canonStk_tail; eassumption.
Qed.

Lemma canonStk_good (stk : list string) : canonStk stk -> Forall goodSeg stk.
Proof.
  induction 1 as [ups HF | s stk [Hn [_ [_ Hs]]] _ IH].
  - induction HF as [|x ups Hx _ IH]; constructor; [|assumption].
    subst x. split; [discriminate | reflexivity].
  - constructor; [split|]; assumption.
Qed.

(** What [normStep] does on a canonical stack when the result is canonical
    again with the segment on top: it pushes. *)
Lemma normStep_push (s : string) (stk : list string) :
  canonStk (s :: stk) -> normStep true stk s = s :: stk.
Proof.
  intros H. unfold normStep.
  inversion H as [ups HF | s' stk' [Hn [Hd [Hdd _]]] Hc]; subst.
  - inversion HF as [|? ? Hx HF']; subst. simpl.
    destruct stk as [|top rest]; [reflexivity|].
    inversion HF'; subst. reflexivity.
  - apply String.eqb_neq in Hn, Hd, Hdd. now rewrite Hn, Hd, Hdd.
Qed.

Lemma normalizeString_canon_go (c stk : list string) :
  canonStk (rev c ++ stk) ->
  fold_left (normStep true) c stk = rev c ++ stk.
Proof.
  revert stk. induction c as [|s c IH]; intros stk H; [reflexivity|].
  simpl in *. rewrite <- app_assoc in *. simpl in *.
  rewrite normStep_push by (eapply canonStk_suffix; eassumption).
  now apply IH.
Qed.

(** Every step keeps the stack canonical. *)
Lemma normStep_canon (s : string) (stk : list string) :
  slashFree s -> canonStk stk -> canonStk (normStep true stk s).
Proof.
  intros Hs Hc. unfold normStep.
  destruct (String.eqb s EmptyString) eqn:E1; [assumption|].
  destruct (String.eqb s ".") eqn:E2; [assumption|]. simpl.
  destruct (String.eqb s "..") eqn:E3.
  - destruct stk as [|top rest].
    + constructor. constructor; [reflexivity | constructor].
    + destruct (String.eqb top "..") eqn:E4.
      * apply String.eqb_eq in E4. subst top.
        inversion Hc as [ups HF | ? ? [_ [_ [Hdd _]]] _]; subst;
          [|congruence].
        constructor. constructor; [reflexivity | assumption].
      * eapply canonStk_tail; eassumption.
  - apply canon_push; [|assumption].
    apply String.eqb_neq in E1, E2, E3. repeat split; assumption.
Qed.

Lemma normalizeString_canon (segs stk : list string) :
  Forall slashFree segs -> canonStk stk ->
  canonStk (fold_left (normStep true) segs stk).
Proof.
  revert stk. induction segs as [|s segs IH]; intros stk HF Hc; [assumption|].
  inversion HF; subst. simpl. apply IH; [assumption|].
  now apply normStep_canon.
Qed.

End PathJoin.

Section Normalize.

Lemma append_empty (a b : string) :
  (a ++ b)%string = EmptyString -> a = EmptyString /\ b = EmptyString.
Proof. destruct a; simpl; [tauto | discriminate]. Qed.

Lemma join_good_not_empty (segs : list string) :
  segs <> [] -> Forall goodSeg segs -> join "/" segs <> EmptyString.
Proof.
  destruct segs as [|s segs]; [congruence|]. intros _ HF.
  inversion HF as [|? ? [Hn _] _]; subst.
  destruct segs; simpl; [assumption|].
  intros H. apply append_empty in H. tauto.
Qed.

Lemma startsWithSlash_app (a b : string) :
  a <> EmptyString -> startsWithSlash (a ++ b) = startsWithSlash a.
Proof. destruct a; [congruence | reflexivity]. Qed.

Lemma startsWithSlash_free (s : string) :
  slashFree s -> startsWithSlash s = false.
Proof.
  destruct s; [reflexivity|]. intros H.
  apply slashFree_String in H. apply H.
Qed.

Lemma startsWithSlash_join (segs : list string) :
  Forall goodSeg segs -> startsWithSlash (join "/" segs) = false.
Proof.
  destruct segs as [|s segs]; [reflexivity|]. intros HF.
  inversion HF as [|? ? [Hn Hs] _]; subst.
  destruct segs; simpl.
  - now apply startsWithSlash_free.
  - rewrite startsWithSlash_app by assumption. now apply startsWithSlash_free.
Qed.

Lemma endsWithSlash_app (a b : string) :
  b <> EmptyString -> endsWithSlash (a ++ b) = endsWithSlash b.
Proof.
  intros Hb. induction a as [|c a IH]; [reflexivity|].
  simpl. rewrite IH.
  destruct (a ++ b)%string eqn:E; [|reflexivity].
  apply append_empty in E. tauto.
Qed.

Lemma endsWithSlash_String (c : ascii) (s : string) :
  s <> EmptyString -> endsWithSlash (String c s) = endsWithSlash s.
Proof. destruct s; [congruence | reflexivity]. Qed.

Lemma endsWithSlash_free (s : string) : slashFree s -> endsWithSlash s = false.
Proof.
  induction s as [|c s IH]; [reflexivity|]. intros H.
  apply slashFree_String in H as [Hc Hs]. simpl.
  destruct s; [assumption | now apply IH].
Qed.

Lemma endsWithSlash_join (segs : list string) :
  Forall goodSeg segs -> endsWithSlash (join "/" segs) = false.
Proof.
  induction segs as [|s segs IH]; [reflexivity|]. intros HF.
  inversion HF as [|? ? [Hn Hs] HF']; subst.
  destruct segs as [|s' segs]; simpl.
  - now apply endsWithSlash_free.
  - rewrite endsWithSlash_app.
    + change (endsWithSlash (String "/"%char (join "/" (s' :: segs))) = false).
      rewrite endsWithSlash_String; [now apply IH|].
      apply join_good_not_empty; [discriminate | assumption].
    + discriminate.
Qed.

Lemma goodSeg_slashFree (segs : list string) :
  Forall goodSeg segs -> Forall slashFree segs.
Proof. apply Forall_impl. intros s [_ H]. exact H. Qed.

(** [path.normalize] on the joined segments: what is left of the stack,
    or [.] when nothing is. *)
Lemma normalize_join (segs : list string) :
  segs <> [] -> Forall goodSeg segs ->
  normalize (join "/" segs)
  = match rev (fold_left (normStep true) segs []) with
    | [] => "."
    | c => join "/" c
    end.
Proof.
  intros Hne HF. unfold normalize, normalizeString.
  pose proof (join_good_not_empty segs Hne HF) as Hj.
  apply String.eqb_neq in Hj. rewrite Hj.
  rewrite startsWithSlash_join, endsWithSlash_join by assumption. simpl.
  rewrite split_join_slash by (auto using goodSeg_slashFree).
  assert (Hc : canonStk (fold_left (normStep true) segs [])).
  { apply normalizeString_canon; [now apply goodSeg_slashFree|].
    constructor. constructor. }
  apply canonStk_good in Hc. apply Forall_rev in Hc.
  destruct (rev (fold_left (normStep true) segs [])) as [|x l] eqn:E.
  - reflexivity.
  - assert (Hx : join "/" (x :: l) <> EmptyString)
      by (apply join_good_not_empty; [discriminate | assumption]).
    apply String.eqb_neq in Hx. now rewrite Hx.
Qed.

(** A canonical segment list is a fixed point of [path.normalize]. *)
Lemma normalize_canonical (c : list string) :
  c <> [] -> canonStk (rev c) -> normalize (join "/" c) = join "/" c.
Proof.
  intros Hne Hc.
  assert (HF : Forall goodSeg c).
  { apply canonStk_good in Hc. apply Forall_rev in Hc.
    now rewrite rev_involutive in Hc. }
  rewrite normalize_join by assumption.
  rewrite normalizeString_canon_go by (now rewrite app_nil_r).
  rewrite app_nil_r, rev_involutive.
  destruct c; [congruence | reflexivity].
Qed.

Lemma filter_nonEmpty_good (args : list string) :
  Forall slashFree args ->
  Forall goodSeg (filter (fun a => negb (String.eqb a EmptyString)) args).
Proof.
  induction 1 as [|a args Ha _ IH]; simpl; [constructor|].
  destruct (String.eqb a EmptyString) eqn:E; simpl; [assumption|].
  constructor; [|assumption]. apply String.eqb_neq in E. now split.
Qed.

(** [path.join] of separator-free arguments is the join of some directory
    segment list. *)
Lemma path_join_dirSegs (args : list string) :
  Forall slashFree args ->
  exists c, dirSegs c /\ path_join args = join "/" c.
Proof.
  intros HF. unfold path_join.
  pose proof (filter_nonEmpty_good args HF) as HG.
  destruct (filter (fun a => negb (String.eqb a EmptyString)) args)
    as [|a l] eqn:E.
  - exists ["."]. split; [now left | reflexivity].
  - rewrite normalize_join by (discriminate || assumption).
    assert (Hc : canonStk (fold_left (normStep true) (a :: l) [])).
    { apply normalizeString_canon; [now apply goodSeg_slashFree|].
      constructor. constructor. }
    destruct (rev (fold_left (normStep true) (a :: l) [])) as [|x r] eqn:Er.
    + exists ["."]. split; [now left | reflexivity].
    + exists (x :: r). split; [|reflexivity].
      right. split; [discriminate|].
      rewrite <- Er, rev_involutive. exact Hc.
Qed.

End Normalize.

(* ================================================================== *)
(** * The directory of a path *)

Section DirectoryOf.

Lemma plain_canonStk (l : list string) : Forall plainSeg l -> canonStk l.
Proof.
  induction 1; [constructor; constructor | now apply canon_push].
Qed.

Lemma regularSeg_plain (s : string) :
  regularSeg s = true -> slashFree s -> plainSeg s.
Proof.
  unfold regularSeg. rewrite !andb_true_iff, !negb_true_iff.
  intros [[H1 H2] H3] Hs. apply String.eqb_neq in H1, H2, H3.
  repeat split; assumption.
Qed.

Lemma Forall_removelast {A} (P : A -> Prop) (l : list A) :
  Forall P l -> Forall P (removelast l).
Proof.
  induction 1 as [|x l Hx HF IH]; simpl; [constructor|].
  destruct l; [constructor | constructor; assumption].
Qed.

Lemma regular_plain (l : list string) :
  forallb regularSeg l = true -> Forall slashFree l -> Forall plainSeg l.
Proof.
  induction l as [|s l IH]; simpl; intros H HF; [constructor|].
  apply andb_true_iff in H as [Hs Hl]. inversion HF; subst.
  constructor; [now apply regularSeg_plain | now apply IH].
Qed.

Lemma plain_filter_nonEmpty (l : list string) :
  Forall plainSeg l ->
  filter (fun a => negb (String.eqb a EmptyString)) l = l.
Proof.
  induction 1 as [|s l [Hn _] _ IH]; simpl; [reflexivity|].
  apply String.eqb_neq in Hn. rewrite Hn. simpl. now rewrite IH.
Qed.

(** [path.join] leaves plain segments as they are. *)
Lemma path_join_plain (l : list string) :
  l <> [] -> Forall plainSeg l -> path_join l = join "/" l.
Proof.
  intros Hne HF. unfold path_join. rewrite plain_filter_nonEmpty by assumption.
  destruct l as [|s l]; [congruence|].
  apply normalize_canonical; [discriminate|].
  apply plain_canonStk. now apply Forall_rev.
Qed.

End DirectoryOf.

(** C5, as the sources have it.  The directory of a path is the bucket
    [node_modules] when some segment is that literal, nothing when the path
    is a single segment, and otherwise, provided no segment before the last
    is empty, [.] or [..], the segments but the last joined by the
    separator. *)
Theorem getDirectoryPath_regular (p : string) :
  regularPath p = true -> getDirectoryPath p = directoryOf_spec p.
Proof.
  unfold regularPath, getDirectoryPath, directoryOf_spec.
  destruct (existsb (String.eqb "node_modules") (split_slash p)); [reflexivity|].
  destruct (Nat.eqb (List.length (split_slash p)) 1) eqn:E; [reflexivity|].
  simpl. intros H. f_equal.
  rewrite removelast_firstn_len.
  replace (pred (List.length (split_slash p)))
    with (List.length (split_slash p) - 1) by lia.
  rewrite removelast_firstn_len in H.
  replace (pred (List.length (split_slash p)))
    with (List.length (split_slash p) - 1) in H by lia.
  assert (Hsf : Forall slashFree (firstn (List.length (split_slash p) - 1) (split_slash p))).
  { replace (List.length (split_slash p) - 1)
      with (pred (List.length (split_slash p))) by lia.
    rewrite <- removelast_firstn_len. apply Forall_removelast.
    apply split_slash_slashFree. }
  apply path_join_plain; [|now apply regular_plain].
  apply Nat.eqb_neq in E.
  pose proof (splitOn_not_nil isSlash p) as Hne. fold (split_slash p) in Hne.
  destruct (split_slash p) as [|a [|b l]]; simpl in *; congruence || discriminate.
Qed.

Lemma getDirectoryPath_regular_witness :
  regularPath "a/b/c/x" = true
  /\ getDirectoryPath "a/b/c/x" = directoryOf_spec "a/b/c/x".
Proof.
  split; [reflexivity | apply (getDirectoryPath_regular "a/b/c/x"); reflexivity].
Defined.

(** C5 as it is written fails on a path with a [.] segment: [path.join]
    drops the segment. *)
Lemma getDirectoryPath_not_spec :
  getDirectoryPath "./a/b" = Some "a"
  /\ directoryOf_spec "./a/b" = Some "./a"
  /\ getDirectoryPath "./a/b" <> directoryOf_spec "./a/b".
Proof. repeat split; try reflexivity. discriminate. Qed.

(** The two third-party files of the specification share one bucket. *)
Example node_modules_bucket :
  getDirectoryPath "node_modules/react/index" = Some "node_modules"
  /\ getDirectoryPath "node_modules/lodash/get" = Some "node_modules".
Proof. split; reflexivity. Qed.

(* ================================================================== *)
(** * Identifier sanitization *)

Section ReplaceAll.

Lemma hasChar_app (c : ascii) (a b : string) :
  hasChar c (a ++ b) = hasChar c a || hasChar c b.
Proof.
  induction a as [|d a IH]; simpl; [reflexivity|].
  now rewrite IH, orb_assoc.
Qed.



Variables pat rep : string.
Hypothesis pat_not_empty : pat <> EmptyString.


(** Where it does not occur, nothing changes. *)
Lemma replaceAll_absent (s : string) :
  includes s pat = false -> replaceAll pat rep s = s.
Proof.
  unfold replaceAll.
  induction s as [|a s IH]; intros H; [reflexivity|].
  cbn [includes] in H. apply orb_false_iff in H as [Hp Hi].
  cbn [replaceAll_go]. rewrite Hp. f_equal. now apply IH.
Qed.



End ReplaceAll.

(** C6 at its failing input.  A lone bar or tilde is no split point of the
    pattern, whose alternative is the two-character sequence of both: the
    identifier of [a|b] keeps the bar.  The path of the specification,
    [a-b@c[d]], is free of reserved characters. *)
Theorem fileNameToMermaidId_bar :
  fileNameToMermaidId "a|b" = "a|b"
  /\ fileNameToMermaidId "a~b" = "a~b"
  /\ fileNameToMermaidId "a|~b" = "a//b"
  /\ reservedFree (fileNameToMermaidId "a|b") = false
  /\ fileNameToMermaidId "a-b@c[d]" = "a//b//c//d//"
  /\ reservedFree (fileNameToMermaidId "a-b@c[d]") = true.
Proof. repeat split; reflexivity. Qed.

(* ================================================================== *)
(** * The tree builder returns *)

Section BuilderTotal.

Lemma mapOpt_total {A B} (f : A -> option B) (l : list A) :
  (forall x, In x l -> exists y, f x = Some y) ->
  exists ys, mapOpt f l = Some ys.
Proof.
  induction l as [|x l IH]; intros H; [now exists []|].
  destruct (H x (or_introl eq_refl)) as [y Hy].
  destruct IH as [ys Hys]; [intros z Hz; apply H; now right|].
  exists (y :: ys). simpl. now rewrite Hy, Hys.
Qed.

Lemma depthBound_ge (dan : list DirAndNodes.t) (e : DirAndNodes.t) :
  In e dan -> List.length (DirAndNodes.dirHierarchy e) <= depthBound dan.
Proof.
  intros H. unfold depthBound.
  pose proof (proj1 (list_max_le
    (map (fun e => List.length (DirAndNodes.dirHierarchy e)) dan) _)
    (le_n _)) as HF.
  rewrite Forall_forall in HF. apply HF.
  apply in_map_iff. now exists e.
Qed.

Lemma isChild_length (p c : list string) :
  isChild p c = true -> List.length c = List.length p + 1.
Proof.
  unfold isChild.
  destruct (Nat.eqb (List.length p + 1) (List.length c)) eqn:E; simpl;
    [|discriminate].
  intros _. apply Nat.eqb_eq in E. lia.
Qed.

Lemma childrenOf_In (dan : list DirAndNodes.t) (h : list string)
  (k : DirAndNodes.t) :
  In k (childrenOf dan h) <->
  In k dan /\ isChild h (DirAndNodes.dirHierarchy k) = true.
Proof. unfold childrenOf. apply filter_In. Qed.

(** With fuel for the levels below an entry, the recursion returns. *)
Lemma createDirAndNodesRecursive_total (dan : list DirAndNodes.t)
  (fuel : nat) (e : DirAndNodes.t) :
  In e dan ->
  depthBound dan < fuel + List.length (DirAndNodes.dirHierarchy e) ->
  exists r, createDirAndNodesRecursive dan fuel e = Some r.
Proof.
  revert e. induction fuel as [|fuel IH]; intros e He Hf.
  - apply depthBound_ge in He. lia.
  - cbn [createDirAndNodesRecursive].
    destruct (mapOpt_total (createDirAndNodesRecursive dan fuel)
                (childrenOf dan (DirAndNodes.dirHierarchy e))) as [subs Hs].
    { intros k Hk. apply childrenOf_In in Hk as [Hk Hc].
      apply IH; [assumption|]. apply isChild_length in Hc. lia. }
    rewrite Hs.
    destruct (_ && _); eexists; reflexivity.
Qed.

Lemma createDirAndNodesTree_total (g : Graph) :
  exists forest, createDirAndNodesTree g = Some forest.
Proof.
  unfold createDirAndNodesTree.
  destruct (mapOpt_total
    (createDirAndNodesRecursive (dirAndNodes g) (depthBound (dirAndNodes g)))
    (filter (fun e => Nat.eqb (List.length (DirAndNodes.dirHierarchy e)) 1)
       (dirAndNodes g))) as [subs Hs].
  { intros e He. apply filter_In in He as [He H1].
    apply Nat.eqb_eq in H1.
    apply createDirAndNodesRecursive_total; [assumption | lia]. }
  rewrite Hs. eexists; reflexivity.
Qed.

Lemma mermaidify_total (g : Graph) (options : Options.t) (out : Sink) :
  exists out', mermaidify g options out = Some out'.
Proof.
  unfold mermaidify.
  destruct (createDirAndNodesTree_total g) as [forest ->].
  destruct (truthy (Options.mermaidLink options)); eexists; reflexivity.
Qed.

End BuilderTotal.

(* ================================================================== *)
(** * The serializer *)

Lemma writeRelations_appends (rs : list Relation) (out : Sink) :
  writeRelations rs out = out ++ List.concat (map arrowWrites rs).
Proof.
  unfold writeRelations. revert out.
  induction rs as [|r rs IH]; intros out; simpl.
  - now rewrite app_nil_r.
  - rewrite IH. unfold write. now rewrite <- !app_assoc.
Qed.

(** C7.  After the tree section the serializer writes, for each relation of
    the sequence and in its order, the arrow line of the sanitized endpoint
    identifiers followed by a line break: nothing is sorted and nothing is
    dropped, so there are as many arrow lines as relations and a relation
    listed twice is written twice. *)
Theorem mermaidify_relations (g : Graph) (options : Options.t) (out : Sink) :
  exists forest,
    createDirAndNodesTree g = Some forest
    /\ (let treeOut :=
          writeFileNodesWithSubgraph forest (writeHeader options out) in
        let relOut := treeOut ++ List.concat (map arrowWrites (relations g)) in
        mermaidify g options out
        = Some (if truthy (Options.mermaidLink options)
                then writeFileLink forest (Options.rootDir options) relOut
                else relOut))
    /\ map (fun w => nth 0 w EmptyString) (map arrowWrites (relations g))
       = map (fun r =>
                ("    " ++ fileNameToMermaidId (path (from r)) ++ "-->"
                   ++ fileNameToMermaidId (path (to r)))%string)
           (relations g)
    /\ List.length (List.concat (map arrowWrites (relations g)))
       = 2 * List.length (relations g).
Proof.
  destruct (createDirAndNodesTree_total g) as [forest Hf].
  exists forest. split; [assumption|]. split; [|split].
  - cbv zeta. unfold mermaidify. rewrite Hf.
    rewrite writeRelations_appends.
    destruct (truthy (Options.mermaidLink options)); reflexivity.
  - rewrite map_map. reflexivity.
  - induction (relations g) as [|r rs IH]; [reflexivity|].
    simpl in *. lia.
Qed.

(** A relation listed twice gives two arrow lines. *)
Example mermaidify_duplicate_relation :
  let a := mkNode "a/x" "x" None None in
  let b := mkNode "a/y" "y" None None in
  let r := mkRelation a b "import" in
  mermaidify (mkGraph [a; b] [r; r])
    (Options.mk (Some true) None None None None EmptyString) []
  = Some [("flowchart LR" ++ nl)%string;
          ("    subgraph a[" ++ dquote ++ "a" ++ dquote ++ "]")%string; nl;
          ("        a/x[" ++ dquote ++ "x" ++ dquote ++ "]")%string; nl;
          ("        a/y[" ++ dquote ++ "y" ++ dquote ++ "]")%string; nl;
          "    end"; nl;
          "    a/x-->a/y"; nl;
          "    a/x-->a/y"; nl].
Proof. reflexivity. Qed.

(** C8.  The tree builder and the serializer return for every graph, also
    for the graph the filter returns (the filter itself is a function without
    a failing branch), and a node with an empty path goes through as a
    top-level file. *)
Theorem core_total :
  (forall g, exists forest, createDirAndNodesTree g = Some forest)
  /\ (forall g options out, exists out', mermaidify g options out = Some out')
  /\ (forall include exclude g options out,
        exists g' forest out',
          filterGraph include exclude g = g'
          /\ createDirAndNodesTree g' = Some forest
          /\ mermaidify g' options out = Some out')
  /\ (let e := mkNode EmptyString EmptyString None None in
      let g := mkGraph [e] [mkRelation e e EmptyString] in
      filterGraph None None g = g
      /\ createDirAndNodesTree g = Some []
      /\ mermaidify g (Options.mk None None None None None EmptyString) []
         = Some [("flowchart" ++ nl)%string; "    -->"; nl]).
Proof.
  split; [exact createDirAndNodesTree_total|].
  split; [exact mermaidify_total|].
  split.
  - intros include exclude g options out.
    destruct (createDirAndNodesTree_total (filterGraph include exclude g))
      as [forest Hf].
    destruct (mermaidify_total (filterGraph include exclude g) options out)
      as [out' Ho].
    exists (filterGraph include exclude g), forest, out'. auto.
  - repeat split; reflexivity.
Qed.

(* ================================================================== *)
(** * First-seen deduplication *)

Section Unique.

Context {A : Type}.
Variable same : A -> A -> bool.
Hypothesis same_refl : forall x, same x x = true.
Hypothesis same_sym : forall x y, same x y = same y x.
Hypothesis same_trans :
  forall x y z, same x y = true -> same y z = true -> same x z = true.

Lemma uniqueFrom_cons (x : A) (l acc : list A) :
  uniqueFrom same (x :: l) acc
  = uniqueFrom same l
      (if existsb (fun y => same y x) acc then acc else acc ++ [x]).
Proof. reflexivity. Qed.

Lemma uniqueFrom_app (l1 l2 acc : list A) :
  uniqueFrom same (l1 ++ l2) acc
  = uniqueFrom same l2 (uniqueFrom same l1 acc).
Proof. unfold uniqueFrom. apply fold_left_app. Qed.

(** Elements already represented in the accumulator are absorbed. *)
Lemma uniqueFrom_absorb (l acc : list A) :
  (forall x, In x l -> existsb (fun y => same y x) acc = true) ->
  uniqueFrom same l acc = acc.
Proof.
  induction l as [|x l IH]; intros H; [reflexivity|].
  rewrite uniqueFrom_cons, (H x (or_introl eq_refl)).
  apply IH. intros y Hy. apply H. now right.
Qed.

(** A list without repetition is appended as it is. *)
Lemma uniqueFrom_distinct (l acc : list A) :
  distinctBy same (acc ++ l) = true -> uniqueFrom same l acc = acc ++ l.
Proof.
  revert acc. induction l as [|x l IH]; intros acc H.
  - now rewrite app_nil_r.
  - rewrite uniqueFrom_cons.
    assert (Hx : existsb (fun y => same y x) acc = false).
    { clear IH. induction acc as [|a acc IHa]; [reflexivity|].
      simpl in H. apply andb_true_iff in H as [Ha Hd].
      apply negb_true_iff in Ha. rewrite existsb_app in Ha.
      apply orb_false_iff in Ha as [_ Ha]. simpl in Ha.
      apply orb_false_iff in Ha as [Ha _].
      simpl. rewrite Ha. now apply IHa. }
    rewrite Hx.
    replace (acc ++ x :: l) with ((acc ++ [x]) ++ l) in *
      by (now rewrite <- app_assoc).
    now apply IH.
Qed.

(** Deduplication neither adds nor loses an identity. *)
Lemma uniqueFrom_existsb (u : A) (l acc : list A) :
  existsb (fun y => same y u) (uniqueFrom same l acc)
  = existsb (fun y => same y u) acc || existsb (fun y => same y u) l.
Proof.
  revert acc. induction l as [|x l IH]; intros acc.
  - simpl. now rewrite orb_false_r.
  - rewrite uniqueFrom_cons, IH. simpl.
    destruct (existsb (fun y => same y x) acc) eqn:E.
    + destruct (same x u) eqn:Exu; [|reflexivity].
      rewrite orb_true_l.
      assert (Hu : existsb (fun y => same y u) acc = true).
      { apply existsb_exists in E as [y [Hy Hyx]].
        apply existsb_exists. exists y. split; [assumption|].
        eapply same_trans; eassumption. }
      now rewrite Hu.
    + rewrite existsb_app. simpl. now rewrite orb_false_r, orb_assoc.
Qed.

(** The result has no repetition. *)
Lemma uniqueFrom_is_distinct (l acc : list A) :
  distinctBy same acc = true -> distinctBy same (uniqueFrom same l acc) = true.
Proof.
  revert acc. induction l as [|x l IH]; intros acc H; [assumption|].
  rewrite uniqueFrom_cons. apply IH.
  destruct (existsb (fun y => same y x) acc) eqn:E; [assumption|].
  clear IH. induction acc as [|a acc IHa]; [reflexivity|].
  simpl in *. apply andb_true_iff in H as [Ha Hd].
  apply orb_false_iff in E as [Eax E].
  rewrite existsb_app. simpl. rewrite Eax.
  apply negb_true_iff in Ha. rewrite Ha. simpl. now apply IHa.
Qed.

(** Elements represented in the accumulator can be left out of the input. *)
Lemma uniqueFrom_skip (p : A -> bool) (l acc : list A) :
  (forall x, In x l -> p x = false -> existsb (fun y => same y x) acc = true) ->
  uniqueFrom same l acc = uniqueFrom same (filter p l) acc.
Proof.
  revert acc. induction l as [|x l IH]; intros acc H; [reflexivity|].
  assert (Hl : forall acc', (forall u, existsb (fun y => same y u) acc = true ->
                                   existsb (fun y => same y u) acc' = true) ->
               uniqueFrom same l acc' = uniqueFrom same (filter p l) acc').
  { intros acc' Hacc. apply IH. intros y Hy Hp.
    apply Hacc. apply H; [now right | assumption]. }
  cbn [filter]. destruct (p x) eqn:Ep.
  - rewrite !uniqueFrom_cons. apply Hl. intros u Hu.
    destruct (existsb (fun y => same y x) acc); [assumption|].
    rewrite existsb_app, Hu. reflexivity.
  - rewrite uniqueFrom_cons, (H x (or_introl eq_refl) Ep).
    apply Hl. auto.
Qed.

End Unique.

(* ================================================================== *)
(** * The graph filter *)

Section Filter.

Lemma isSameNode_refl (x : Node) : isSameNode x x = true.
Proof. apply String.eqb_refl. Qed.

Lemma isSameNode_sym (x y : Node) : isSameNode x y = isSameNode y x.
Proof. apply String.eqb_sym. Qed.

Lemma isSameNode_trans (x y z : Node) :
  isSameNode x y = true -> isSameNode y z = true -> isSameNode x z = true.
Proof.
  unfold isSameNode. rewrite !String.eqb_eq. congruence.
Qed.

Lemma isSameNode_path (x y : Node) : isSameNode x y = true <-> path x = path y.
Proof. apply String.eqb_eq. Qed.

Lemma isSameRelation_refl (x : Relation) : isSameRelation x x = true.
Proof. unfold isSameRelation. now rewrite !isSameNode_refl. Qed.

Lemma isSameRelation_sym (x y : Relation) :
  isSameRelation x y = isSameRelation y x.
Proof.
  unfold isSameRelation.
  now rewrite (isSameNode_sym (from x)), (isSameNode_sym (to x)).
Qed.

Lemma isSameRelation_trans (x y z : Relation) :
  isSameRelation x y = true -> isSameRelation y z = true ->
  isSameRelation x z = true.
Proof.
  unfold isSameRelation. rewrite !andb_true_iff.
  intros [H1 H2] [H3 H4]. split; eapply isSameNode_trans; eassumption.
Qed.

Lemma getUniqueNodes_uniqueFrom (l : list Node) :
  getUniqueNodes l = uniqueFrom isSameNode l [].
Proof. reflexivity. Qed.

Lemma getUniqueRelations_uniqueFrom (l : list Relation) :
  getUniqueRelations l = uniqueFrom isSameRelation l [].
Proof. reflexivity. Qed.

Lemma existsb_self {A} (same : A -> A -> bool) (l : list A) (x : A) :
  (forall y, same y y = true) -> In x l ->
  existsb (fun y => same y x) l = true.
Proof.
  intros Hr Hx. apply existsb_exists. exists x. auto.
Qed.

(** The working sets are the lists filtered by the two tests. *)
Lemma keptNodes_filter (include exclude : option (list string)) (g : Graph) :
  keptNodes include exclude g = filter (keepsNode include exclude) (nodes g).
Proof.
  unfold keptNodes, keepsNode, includePass, excludePass.
  destruct (given include) as [wi|], (given exclude) as [we|]; simpl.
  - induction (nodes g) as [|n ns IH]; [reflexivity|]. simpl.
    destruct (nodeHits wi n); simpl; [|assumption].
    destruct (nodeHits we n); simpl; congruence.
  - apply filter_ext. intros n. now rewrite andb_true_r.
  - reflexivity.
  - now rewrite filter_true.
Qed.

Lemma keptRelations_filter (include exclude : option (list string))
  (g : Graph) :
  keptRelations include exclude g
  = filter (keepsRelation include exclude) (relations g).
Proof.
  unfold keptRelations, keepsRelation, includePass, excludePass.
  destruct (given include) as [wi|], (given exclude) as [we|]; simpl.
  - induction (relations g) as [|r rs IH]; [reflexivity|]. simpl.
    destruct (relationHits wi r); simpl; [|assumption].
    destruct (relationHits we r); simpl; congruence.
  - apply filter_ext. intros n. now rewrite andb_true_r.
  - reflexivity.
  - now rewrite filter_true.
Qed.

End Filter.

(** C1, as the sources have it.  For a graph whose nodes have distinct paths,
    whose relations have distinct endpoint-path pairs and whose relation
    endpoints are all among its nodes, the filter without include and exclude
    list returns the node sequence and the relation sequence of the graph, in
    the same order. *)
Theorem filterGraph_identity (g : Graph) :
  wellFormedGraph g = true ->
  sameGraph (filterGraph None None g) g /\ filterGraph None None g = g.
Proof.
  intros H.
  assert (E : filterGraph None None g = g); [|rewrite E; repeat split].
  unfold wellFormedGraph in H. destruct g as [N R]. simpl in H.
  apply andb_true_iff in H as [H Hend]. apply andb_true_iff in H as [HN HR].
  unfold filterGraph, includePass, excludePass. cbn [given fst snd nodes relations].
  assert (ER : getUniqueRelations (R ++ filter (readmit N R) R) = R).
  { rewrite getUniqueRelations_uniqueFrom, uniqueFrom_app.
    rewrite (uniqueFrom_distinct isSameRelation R []) by exact HR.
    apply uniqueFrom_absorb. intros x Hx. apply filter_In in Hx as [Hx _].
    apply existsb_self; [apply isSameRelation_refl | exact Hx]. }
  rewrite ER. f_equal.
  unfold extractUniqueNodes. cbn [nodes relations].
  rewrite getUniqueNodes_uniqueFrom, uniqueFrom_app.
  rewrite (uniqueFrom_distinct isSameNode N []) by exact HN.
  apply uniqueFrom_absorb. intros x Hx.
  rewrite forallb_forall in Hend. now apply Hend.
Qed.

Lemma filterGraph_identity_witness :
  let a := mkNode "src/a" "a" None None in
  let b := mkNode "src/b" "b" None None in
  let g := mkGraph [a; b] [mkRelation a b "import"; mkRelation b a "import"] in
  wellFormedGraph g = true
  /\ sameGraph (filterGraph None None g) g /\ filterGraph None None g = g.
Proof.
  cbv zeta. split; [reflexivity|].
  apply filterGraph_identity. reflexivity.
Defined.

(** C1 as it is written fails on a graph that lists a relation twice: the
    filter returns it once. *)
Lemma filterGraph_identity_duplicate :
  let a := mkNode "a" "a" None None in
  let b := mkNode "b" "b" None None in
  let g := mkGraph [a; b] [mkRelation a b "import"; mkRelation a b "import"] in
  relations (filterGraph None None g) = [mkRelation a b "import"]
  /\ ~ sameGraph (filterGraph None None g) g.
Proof.
  cbv zeta. split; [reflexivity|].
  intros [_ H]. vm_compute in H. discriminate.
Qed.

Section Readmission.

Lemma relationHits_paths (ws : list string) (r : Relation) :
  relationHits ws r
  = pathHits ws (path (from r)) || pathHits ws (path (to r)).
Proof.
  unfold relationHits, pathHits.
  induction ws as [|w ws IH]; [reflexivity|].
  simpl. rewrite IH.
  destruct (matchesWord (path (from r)) w), (matchesWord (path (to r)) w),
    (existsb (fun word => matchesWord (path (from r)) word) ws);
    reflexivity.
Qed.

Lemma existsb_filter_same (P : Node -> bool) (u : Node) (l : list Node) :
  (forall x, isSameNode x u = true -> P x = P u) ->
  existsb (fun n => isSameNode n u) (filter P l)
  = P u && existsb (fun n => isSameNode n u) l.
Proof.
  intros HP. induction l as [|x l IH]; simpl.
  - now rewrite andb_false_r.
  - destruct (isSameNode x u) eqn:E.
    + rewrite (HP x E) in *. destruct (P u) eqn:EP; simpl.
      * now rewrite E.
      * rewrite IH. reflexivity.
    + destruct (P x); simpl; [rewrite E|]; rewrite IH; reflexivity.
Qed.

Lemma differsFromSome_same (N : list Node) (x u : Node) :
  isSameNode x u = true -> differsFromSome N x = differsFromSome N u.
Proof.
  intros H. apply isSameNode_path in H. unfold differsFromSome, isSameNode.
  now rewrite H.
Qed.

(** Membership, by path, in the node list of lines 49-51. *)
Lemma relationNodes_existsb (N : list Node) (K : list Relation) (u : Node) :
  existsb (fun node => isSameNode node u) (relationNodes N K)
  = differsFromSome N u && referenced K u.
Proof.
  unfold relationNodes.
  change (fun node => existsb (fun tmpNode => negb (isSameNode node tmpNode)) N)
    with (differsFromSome N).
  rewrite existsb_filter_same
    by (intros x Hx; now apply differsFromSome_same).
  rewrite getUniqueNodes_uniqueFrom.
  rewrite (uniqueFrom_existsb isSameNode isSameNode_trans).
  reflexivity.
Qed.

Lemma readmit_unfold (N : list Node) (K : list Relation) (r : Relation) :
  readmit N K r
  = (differsFromSome N (from r) && referenced K (from r))
    && (differsFromSome N (to r) && referenced K (to r)).
Proof.
  unfold readmit. cbv zeta. rewrite !relationNodes_existsb.
  destruct (_ && _); reflexivity.
Qed.

Lemma referenced_endpoint (K : list Relation) (u : Node) :
  referenced K u = true ->
  exists k, In k K /\ (path (from k) = path u \/ path (to k) = path u).
Proof.
  unfold referenced, endpoints. intros H.
  apply existsb_exists in H as [n [Hn Hs]].
  apply isSameNode_path in Hs.
  apply in_concat in Hn as [pr [Hpr Hin]].
  apply in_map_iff in Hpr as [k [<- Hk]].
  exists k. split; [assumption|].
  destruct Hin as [<-|[<-|[]]]; auto.
Qed.

Variables include exclude : option (list string).
Variable g : Graph.

(** An endpoint of a retained relation is hit by no exclude word. *)
Lemma referenced_not_excluded (we : list string) (u : Node) :
  given exclude = Some we ->
  referenced (keptRelations include exclude g) u = true ->
  pathHits we (path u) = false.
Proof.
  intros He H. apply referenced_endpoint in H as [k [Hk Hp]].
  rewrite keptRelations_filter in Hk. apply filter_In in Hk as [_ Hk].
  unfold keepsRelation in Hk. rewrite He in Hk.
  apply andb_true_iff in Hk as [_ Hk]. apply negb_true_iff in Hk.
  rewrite relationHits_paths in Hk. apply orb_false_iff in Hk as [H1 H2].
  destruct Hp as [<-|<-]; assumption.
Qed.

(** A relation that failed the passes although both its endpoints are
    referenced failed the include pass, and then no retained node has the
    path of one of its endpoints. *)
Lemma dropped_differs (r : Relation) (u : Node) :
  keepsRelation include exclude r = false ->
  readmit_spec (keptRelations include exclude g) r = true ->
  u = from r \/ u = to r ->
  differsFromSome (keptNodes include exclude g) u
  = negb (isEmpty (keptNodes include exclude g)).
Proof.
  intros Hk Hs Hu. unfold readmit_spec in Hs.
  apply andb_true_iff in Hs as [Hf Ht].
  unfold keepsRelation in Hk.
  assert (Hex : match given exclude with
                | Some ws => negb (relationHits ws r)
                | None => true
                end = true).
  { destruct (given exclude) as [we|] eqn:Ee; [|reflexivity].
    rewrite relationHits_paths.
    rewrite (referenced_not_excluded we (from r) Ee Hf).
    rewrite (referenced_not_excluded we (to r) Ee Ht). reflexivity. }
  rewrite Hex, andb_true_r in Hk.
  destruct (given include) as [wi|] eqn:Ei; [|discriminate].
  rewrite relationHits_paths in Hk. apply orb_false_iff in Hk as [H1 H2].
  assert (Hpu : pathHits wi (path u) = false)
    by (destruct Hu; subst u; assumption).
  rewrite keptNodes_filter.
  destruct (filter (keepsNode include exclude) (nodes g)) as [|t N] eqn:EN;
    [reflexivity|].
  assert (Ht' : In t (filter (keepsNode include exclude) (nodes g)))
    by (rewrite EN; now left).
  apply filter_In in Ht' as [_ Hkt]. unfold keepsNode in Hkt.
  rewrite Ei in Hkt. apply andb_true_iff in Hkt as [Hkt _].
  unfold nodeHits in Hkt. fold (pathHits wi (path t)) in Hkt.
  simpl. unfold isSameNode.
  destruct (String.eqb (path u) (path t)) eqn:E; [|reflexivity].
  apply String.eqb_eq in E. congruence.
Qed.

Lemma readmit_dropped (r : Relation) :
  keepsRelation include exclude r = false ->
  readmit (keptNodes include exclude g) (keptRelations include exclude g) r
  = negb (isEmpty (keptNodes include exclude g))
    && readmit_spec (keptRelations include exclude g) r.
Proof.
  intros Hk. rewrite readmit_unfold.
  destruct (readmit_spec (keptRelations include exclude g) r) eqn:Hs.
  - rewrite (dropped_differs r (from r) Hk Hs (or_introl eq_refl)).
    rewrite (dropped_differs r (to r) Hk Hs (or_intror eq_refl)).
    unfold readmit_spec in Hs. apply andb_true_iff in Hs as [-> ->].
    destruct (isEmpty _); reflexivity.
  - unfold readmit_spec in Hs. rewrite andb_false_r.
    destruct (referenced _ (from r)), (referenced _ (to r));
      try discriminate; now rewrite ?andb_false_r.
Qed.

End Readmission.

Lemma keepsRelation_same (include exclude : option (list string))
  (k r : Relation) :
  isSameRelation k r = true ->
  keepsRelation include exclude k = keepsRelation include exclude r.
Proof.
  unfold isSameRelation. intros H. apply andb_true_iff in H as [H1 H2].
  apply isSameNode_path in H1, H2.
  unfold keepsRelation.
  destruct (given include), (given exclude);
    rewrite ?relationHits_paths, ?H1, ?H2; reflexivity.
Qed.

Lemma filter_filter_and {A} (p q : A -> bool) (l : list A) :
  filter p (filter q l) = filter (fun x => p x && q x) l.
Proof.
  induction l as [|x l IH]; [reflexivity|]. simpl.
  destruct (q x); simpl; [destruct (p x); simpl; now rewrite IH|].
  now rewrite andb_false_r.
Qed.

(** C2, as the sources have it.  A relation of the input that failed the
    include/exclude pass is re-admitted if and only if at least one node
    passed it and both endpoints of the relation are, by path, endpoints of
    retained relations; the relations returned are the retained ones followed
    by the re-admitted ones, deduplicated by endpoint-path pair. *)
Theorem filterGraph_readmission (include exclude : option (list string))
  (g : Graph) (r : Relation) :
  In r (relations g) ->
  keepsRelation include exclude r = false ->
  let N := keptNodes include exclude g in
  let K := keptRelations include exclude g in
  readmit N K r = negb (isEmpty N) && readmit_spec K r
  /\ relations (filterGraph include exclude g)
     = getUniqueRelations
         (K ++ filter
                 (fun x => negb (keepsRelation include exclude x)
                           && (negb (isEmpty N) && readmit_spec K x))
                 (relations g))
  /\ distinctBy isSameRelation (relations (filterGraph include exclude g)) = true
  /\ (existsb (fun x => isSameRelation x r)
        (relations (filterGraph include exclude g))
      = negb (isEmpty N) && readmit_spec K r).
Proof.
  intros Hin Hk N K.
  assert (E1 : forall x, keepsRelation include exclude x = false ->
               readmit N K x = negb (isEmpty N) && readmit_spec K x)
    by (intros x Hx; now apply readmit_dropped).
  assert (E2 : relations (filterGraph include exclude g)
               = getUniqueRelations
                   (K ++ filter
                      (fun x => negb (keepsRelation include exclude x)
                                && (negb (isEmpty N) && readmit_spec K x))
                      (relations g))).
  { change (relations (filterGraph include exclude g))
      with (getUniqueRelations (K ++ filter (readmit N K) (relations g))).
    rewrite !getUniqueRelations_uniqueFrom, !uniqueFrom_app.
    rewrite (uniqueFrom_skip isSameRelation
               (fun x => negb (keepsRelation include exclude x))).
    - rewrite filter_filter_and. f_equal.
      apply filter_ext_in. intros x _.
      destruct (keepsRelation include exclude x) eqn:Ex; [reflexivity|].
      simpl. now apply E1.
    - intros x Hx Hp. apply negb_false_iff in Hp.
      apply filter_In in Hx as [Hx _].
      rewrite (uniqueFrom_existsb isSameRelation isSameRelation_trans).
      simpl. apply existsb_self; [apply isSameRelation_refl|].
      unfold K. rewrite keptRelations_filter. apply filter_In. now split. }
  split; [now apply E1|]. split; [exact E2|]. split.
  - rewrite E2, getUniqueRelations_uniqueFrom.
    now apply uniqueFrom_is_distinct.
  - rewrite E2, getUniqueRelations_uniqueFrom.
    rewrite (uniqueFrom_existsb isSameRelation isSameRelation_trans), existsb_app.
    simpl.
    assert (HK : existsb (fun x => isSameRelation x r) K = false).
    { destruct (existsb (fun x => isSameRelation x r) K) eqn:E; [|reflexivity].
      apply existsb_exists in E as [k [Hkin Hs]].
      unfold K in Hkin. rewrite keptRelations_filter in Hkin.
      apply filter_In in Hkin as [_ Hkk].
      rewrite (keepsRelation_same include exclude k r Hs) in Hkk.
      congruence. }
    rewrite HK. simpl.
    destruct (negb (isEmpty N) && readmit_spec K r) eqn:Er.
    + apply existsb_exists. exists r. split; [|apply isSameRelation_refl].
      apply filter_In. split; [assumption|]. now rewrite Hk, Er.
    + match goal with |- ?e = false => destruct e eqn:E end; [|reflexivity].
      apply existsb_exists in E as [x [Hx Hs]].
      apply filter_In in Hx as [_ Hx].
      apply andb_true_iff in Hx as [_ Hx].
      apply andb_true_iff in Hx as [HNe Hx]. rewrite HNe in Er. simpl in Er.
      unfold isSameRelation in Hs. apply andb_true_iff in Hs as [Hs1 Hs2].
      unfold readmit_spec, referenced in *.
      apply isSameNode_path in Hs1, Hs2.
      unfold isSameNode in *. rewrite <- Hs1, <- Hs2 in Er. congruence.
Qed.

Lemma filterGraph_readmission_witness :
  let x := mkNode "lib/x" "x" None None in
  let p := mkNode "src/p" "p" None None in
  let q := mkNode "src/q" "q" None None in
  let r := mkRelation p q "import" in
  let g := mkGraph [x; p; q]
             [mkRelation x p "import"; mkRelation x q "import"; r] in
  let include := Some ["lib"] in
  keepsRelation include None r = false
  /\ readmit (keptNodes include None g) (keptRelations include None g) r = true
  /\ relations (filterGraph include None g)
     = [mkRelation x p "import"; mkRelation x q "import"; r].
Proof.
  cbv zeta.
  pose proof (filterGraph_readmission (Some ["lib"]) None
    (mkGraph [mkNode "lib/x" "x" None None; mkNode "src/p" "p" None None;
              mkNode "src/q" "q" None None]
       [mkRelation (mkNode "lib/x" "x" None None)
          (mkNode "src/p" "p" None None) "import";
        mkRelation (mkNode "lib/x" "x" None None)
          (mkNode "src/q" "q" None None) "import";
        mkRelation (mkNode "src/p" "p" None None)
          (mkNode "src/q" "q" None None) "import"])
    (mkRelation (mkNode "src/p" "p" None None)
       (mkNode "src/q" "q" None None) "import")
    (or_intror (or_intror (or_introl eq_refl))) eq_refl) as [H1 [H2 _]].
  split; [reflexivity|]. split.
  - rewrite H1. reflexivity.
  - rewrite H2. reflexivity.
Defined.

(** C2 as it is written fails when no node passes the include pass: the
    relation from [b] to [c] failed the pass, both its endpoints are endpoints
    of retained relations, and it is not re-admitted. *)
Lemma filterGraph_readmission_no_node :
  let a := mkNode "a" "a" None None in
  let b := mkNode "b" "b" None None in
  let c := mkNode "c" "c" None None in
  let r := mkRelation b c "import" in
  let g := mkGraph [b; c]
             [mkRelation a b "import"; mkRelation a c "import"; r] in
  let include := Some ["a"] in
  In r (relations g)
  /\ keepsRelation include None r = false
  /\ readmit_spec (keptRelations include None g) r = true
  /\ readmit (keptNodes include None g) (keptRelations include None g) r = false
  /\ relations (filterGraph include None g)
     = [mkRelation a b "import"; mkRelation a c "import"].
Proof.
  cbv zeta. split; [simpl; auto|]. repeat split; reflexivity.
Qed.

(* ================================================================== *)
(** * The directories of a graph *)

Section Ancestors.

Lemma lastOf_snoc (l : list string) (x : string) : lastOf (l ++ [x]) = Some x.
Proof. unfold lastOf. now rewrite rev_app_distr. Qed.

Lemma string_app_assoc (a b c : string) :
  ((a ++ b) ++ c = a ++ (b ++ c))%string.
Proof. induction a as [|x a IH]; simpl; [reflexivity | now rewrite IH]. Qed.

Lemma join_snoc (c : list string) (s : string) :
  c <> [] -> join "/" (c ++ [s]) = (join "/" c ++ "/" ++ s)%string.
Proof.
  induction c as [|x c IH]; intros Hne; [congruence|].
  destruct c as [|y c]; [reflexivity|].
  change ((x :: y :: c) ++ [s]) with (x :: ((y :: c) ++ [s])).
  rewrite !join_cons by (discriminate || now destruct c).
  rewrite IH by discriminate.
  now rewrite !string_app_assoc.
Qed.

Lemma canon_good (c : list string) : canonStk (rev c) -> Forall goodSeg c.
Proof.
  intros H. apply canonStk_good, Forall_rev in H.
  now rewrite rev_involutive in H.
Qed.

Lemma dirSegs_good (c : list string) : dirSegs c -> Forall goodSeg c.
Proof.
  intros [->|[_ H]]; [|now apply canon_good].
  constructor; [|constructor]. split; [discriminate | reflexivity].
Qed.

Lemma dirSegs_not_nil (c : list string) : dirSegs c -> c <> [].
Proof. intros [->|[H _]]; [discriminate | assumption]. Qed.

Lemma dirSegs_split (c : list string) :
  dirSegs c -> split_slash (join "/" c) = c.
Proof.
  intros H. apply split_join_slash; [now apply dirSegs_not_nil|].
  now apply goodSeg_slashFree, dirSegs_good.
Qed.

Lemma dirSegs_prefix (p rest : list string) :
  p <> [] -> dirSegs (p ++ rest) -> dirSegs p.
Proof.
  intros Hne [H|[_ H]].
  - destruct p as [|x p]; [congruence|]. simpl in H.
    injection H as -> H. apply app_eq_nil in H as [-> _]. now left.
  - right. split; [assumption|].
    rewrite rev_app_distr in H. eapply canonStk_suffix; eassumption.
Qed.

(** [path.join(prevValue, current)] on a canonical list appends. *)
Lemma path_join_two (c : list string) (s : string) :
  c <> [] -> canonStk (rev (c ++ [s])) ->
  path_join [join "/" c; s] = join "/" (c ++ [s]).
Proof.
  intros Hne Hc. pose proof (canon_good _ Hc) as HF.
  apply Forall_app in HF as [HFc HFs].
  inversion HFs as [|? ? [Hs _] _]; subst.
  pose proof (join_good_not_empty c Hne HFc) as Hj.
  unfold path_join. cbn [filter].
  apply String.eqb_neq in Hj, Hs. rewrite Hj, Hs. cbn [negb].
  change (join "/" [join "/" c; s]) with (join "/" c ++ "/" ++ s)%string.
  rewrite <- join_snoc by assumption.
  apply normalize_canonical; [now destruct c | assumption].
Qed.

Lemma ancestors_go (c2 c1 prev : list string) :
  canonStk (rev (c1 ++ c2)) ->
  (c1 = [] /\ prev = []) \/ (c1 <> [] /\ lastOf prev = Some (join "/" c1)) ->
  fold_left ancestorStep c2 prev
  = prev ++ map (join "/") (prefixesFrom c1 c2).
Proof.
  revert c1 prev. induction c2 as [|s c2 IH]; intros c1 prev Hc Hp.
  - simpl. now rewrite app_nil_r.
  - cbn [fold_left prefixesFrom map].
    assert (Hc' : canonStk (rev ((c1 ++ [s]) ++ c2)))
      by (now rewrite <- app_assoc).
    assert (Hstep : ancestorStep prev s = prev ++ [join "/" (c1 ++ [s])]).
    { unfold ancestorStep. destruct Hp as [[-> ->]|[Hne Hl]].
      - reflexivity.
      - rewrite Hl.
        assert (Hcs : canonStk (rev (c1 ++ [s]))).
        { rewrite rev_app_distr in Hc'. eapply canonStk_suffix; eassumption. }
        assert (Hj : join "/" c1 <> EmptyString).
        { apply join_good_not_empty; [assumption|].
          apply canon_good in Hcs. now apply Forall_app in Hcs as [? _]. }
        apply String.eqb_neq in Hj. rewrite Hj.
        now rewrite path_join_two. }
    rewrite Hstep, (IH (c1 ++ [s]) _ Hc').
    + now rewrite <- app_assoc.
    + right. split; [now destruct c1 | apply lastOf_snoc].
Qed.

(** The ancestors of a directory are the joins of the non-empty prefixes
    of its segments. *)
Lemma ancestors_prefixes (c : list string) :
  dirSegs c ->
  ancestors (join "/" c) = map (join "/") (prefixesFrom [] c).
Proof.
  intros H. unfold ancestors. rewrite (dirSegs_split c H).
  destruct H as [->|[_ H]]; [reflexivity|].
  change (fold_left ancestorStep c [] = map (join "/") (prefixesFrom [] c)).
  now rewrite (ancestors_go c [] []) by auto.
Qed.

Lemma In_prefixesFrom (p pre c : list string) :
  In p (prefixesFrom pre c) <->
  exists a b, c = a ++ b /\ a <> [] /\ p = pre ++ a.
Proof.
  revert pre. induction c as [|s c IH]; intros pre; simpl.
  - split; [tauto|]. intros [a [b [H [Ha _]]]].
    symmetry in H. apply app_eq_nil in H as [-> _]. congruence.
  - rewrite IH. split.
    + intros [<-|[a [b [-> [Ha ->]]]]].
      * exists [s], c. repeat split. discriminate.
      * exists (s :: a), b. repeat split; [discriminate|].
        now rewrite <- app_assoc.
    + intros [a [b [H [Ha ->]]]].
      destruct a as [|x a]; [congruence|]. injection H as <- ->.
      destruct a as [|y a]; [now left|].
      right. exists (y :: a), b. repeat split; [discriminate|].
      now rewrite <- app_assoc.
Qed.

End Ancestors.

Section AllDir.

Lemma Forall_firstn {A} (P : A -> Prop) (n : nat) (l : list A) :
  Forall P l -> Forall P (firstn n l).
Proof.
  intros H. revert n. induction H as [|x l Hx _ IH]; intros [|n]; simpl;
    constructor; auto.
Qed.

(** Every directory is the join of a directory segment list. *)
Lemma getDirectoryPath_dirSegs (p d : string) :
  getDirectoryPath p = Some d -> exists c, dirSegs c /\ d = join "/" c.
Proof.
  unfold getDirectoryPath.
  destruct (existsb (String.eqb "node_modules") (split_slash p)).
  - intros [= <-]. exists ["node_modules"]. split; [|reflexivity].
    right. split; [discriminate|]. simpl.
    apply canon_push; [|constructor; constructor].
    repeat split; discriminate.
  - destruct (Nat.eqb (List.length (split_slash p)) 1); [discriminate|].
    intros [= <-].
    destruct (path_join_dirSegs
                (firstn (List.length (split_slash p) - 1) (split_slash p)))
      as [c [Hc Hj]].
    + apply Forall_firstn, split_slash_slashFree.
    + exists c. now split.
Qed.

Lemma pushUnique_In (d : string) (l : list (option string)) (acc : list string) :
  In d (fold_left pushUnique l acc) <->
  In d acc \/ (In (Some d) l /\ d <> EmptyString).
Proof.
  revert acc. induction l as [|x l IH]; intros acc; simpl.
  - tauto.
  - rewrite IH. unfold pushUnique. destruct x as [c|].
    + destruct (String.eqb c EmptyString) eqn:E.
      * apply String.eqb_eq in E. subst c.
        split; [tauto|]. intros [H|[[H|H] Hd]]; auto. congruence.
      * apply String.eqb_neq in E.
        destruct (existsb (fun filePath => String.eqb filePath c) acc) eqn:Ex.
        -- apply existsb_exists in Ex as [y [Hy Hyc]].
           apply String.eqb_eq in Hyc. subst y.
           split; [tauto|]. intros [H|[[H|H] Hd]]; auto.
           injection H as <-. now left.
        -- rewrite in_app_iff. simpl. split.
           ++ intros [[H|[<-|[]]]|[H Hd]]; auto.
           ++ intros [H|[[[= <-]|H] Hd]]; auto.
    + split; [tauto|]. intros [H|[[H|H] Hd]]; auto. discriminate.
Qed.

Lemma pushUnique_NoDup (l : list (option string)) (acc : list string) :
  NoDup acc -> NoDup (fold_left pushUnique l acc).
Proof.
  revert acc. induction l as [|x l IH]; intros acc H; [assumption|].
  simpl. apply IH. unfold pushUnique. destruct x as [c|]; [|assumption].
  destruct (String.eqb c EmptyString); [assumption|].
  destruct (existsb (fun filePath => String.eqb filePath c) acc) eqn:Ex;
    [assumption|].
  apply NoDup_rev in H. rewrite <- (rev_involutive (acc ++ [c])).
  apply NoDup_rev. rewrite rev_app_distr. simpl. constructor; [|assumption].
  rewrite <- in_rev. intros Hin.
  assert (Ht : existsb (fun filePath => String.eqb filePath c) acc = true).
  { apply existsb_exists. exists c. split; [assumption | apply String.eqb_refl]. }
  congruence.
Qed.

Variable g : Graph.

Lemma allDir_NoDup : NoDup (allDir g).
Proof. unfold allDir. apply pushUnique_NoDup. constructor. Qed.

(** The directories of the graph are the joins of the non-empty prefixes
    of the directories of its nodes. *)
Lemma In_allDir (d : string) :
  In d (allDir g) <-> exists c, d = join "/" c /\ dirOfNode g c.
Proof.
  unfold allDir. rewrite pushUnique_In. split.
  - intros [[]|[H Hd]].
    apply in_concat in H as [l [Hl Hin]].
    apply in_map_iff in Hl as [o [<- Ho]].
    apply in_map_iff in Ho as [n [<- Hn]].
    unfold ancestorsOrUndefined in Hin.
    destruct (getDirectoryPath (path n)) as [dp|] eqn:E;
      [|destruct Hin as [?|[]]; discriminate].
    destruct (String.eqb dp EmptyString);
      [destruct Hin as [?|[]]; discriminate|].
    apply in_map_iff in Hin as [d' [[= ->] Hin]].
    destruct (getDirectoryPath_dirSegs _ _ E) as [c0 [Hc0 ->]].
    rewrite ancestors_prefixes in Hin by assumption.
    apply in_map_iff in Hin as [p [<- Hp]].
    apply In_prefixesFrom in Hp as [a [b [-> [Ha ->]]]].
    exists a. split; [reflexivity|]. exists n, b. auto.
  - intros [c [-> [n [rest [Hn [Hne [Hc E]]]]]]].
    right.
    assert (Hd : join "/" c <> EmptyString).
    { apply join_good_not_empty; [assumption|].
      apply dirSegs_good. eapply dirSegs_prefix; eassumption. }
    split; [|assumption].
    apply in_concat. exists (ancestorsOrUndefined (getDirectoryPath (path n))).
    split.
    + apply in_map. apply in_map_iff. now exists n.
    + rewrite E. unfold ancestorsOrUndefined.
      assert (Hdp : join "/" (c ++ rest) <> EmptyString).
      { apply join_good_not_empty; [now destruct c|].
        now apply dirSegs_good. }
      apply String.eqb_neq in Hdp. rewrite Hdp.
      apply in_map. rewrite ancestors_prefixes by assumption.
      apply in_map. apply In_prefixesFrom. exists c, rest. auto.
Qed.

Lemma dirOfNode_dirSegs (c : list string) : dirOfNode g c -> dirSegs c.
Proof.
  intros [n [rest [_ [Hne [Hc _]]]]]. eapply dirSegs_prefix; eassumption.
Qed.

Lemma dirOfNode_prefix (c rest : list string) :
  c <> [] -> dirOfNode g (c ++ rest) -> dirOfNode g c.
Proof.
  intros Hne [n [rest' [Hn [_ [Hc E]]]]].
  exists n, (rest ++ rest'). rewrite app_assoc. auto.
Qed.

(** The segments of a directory of the graph. *)
Lemma allDir_segments (d : string) :
  In d (allDir g) -> dirOfNode g (split_slash d).
Proof.
  intros H. apply In_allDir in H as [c [-> Hc]].
  now rewrite dirSegs_split by (now apply dirOfNode_dirSegs).
Qed.

Lemma dirOfNode_allDir (c : list string) :
  dirOfNode g c -> In (join "/" c) (allDir g).
Proof. intros H. apply In_allDir. now exists c. Qed.

End AllDir.

(* ================================================================== *)
(** * The directory tree *)

Section Counting.

Lemma everySame_iff (p c : list string) :
  everySame p c = true <-> exists r, c = p ++ r.
Proof.
  revert c. induction p as [|x p IH]; intros c; simpl.
  - split; [intros _; now exists c | reflexivity].
  - destruct c as [|y c].
    + split; [discriminate | intros [r H]; discriminate].
    + rewrite andb_true_iff, String.eqb_eq, IH. split.
      * intros [-> [r ->]]. now exists r.
      * intros [r [= -> ->]]. split; [reflexivity | now exists r].
Qed.

Lemma isChild_iff (h c : list string) :
  isChild h c = true <-> exists s, c = h ++ [s].
Proof.
  unfold isChild. split.
  - destruct (Nat.eqb (List.length h + 1) (List.length c)) eqn:E; simpl;
      [|discriminate].
    apply Nat.eqb_eq in E. intros H. apply everySame_iff in H as [r ->].
    rewrite length_app in E.
    destruct r as [|s [|s' r]]; simpl in E; try lia. now exists s.
  - intros [s ->]. rewrite length_app. simpl.
    rewrite Nat.eqb_refl. simpl. apply everySame_iff. now exists [s].
Qed.

Lemma everySame_refl (c : list string) : everySame c c = true.
Proof. apply everySame_iff. exists []. now rewrite app_nil_r. Qed.

Lemma count_one {A} (q : A -> bool) (l : list A) (x0 : A) :
  NoDup l -> In x0 l -> q x0 = true ->
  (forall y, In y l -> q y = true -> y = x0) ->
  List.length (filter q l) = 1.
Proof.
  induction 1 as [|x l Hx Hnd IH]; intros Hin Hq Hu; [destruct Hin|].
  simpl. destruct Hin as [->|Hin].
  - rewrite Hq. simpl. f_equal.
    rewrite (proj2 (length_zero_iff_nil _)); [reflexivity|].
    destruct (filter q l) as [|y l'] eqn:E; [reflexivity|].
    assert (Hy : In y (filter q l)) by (rewrite E; now left).
    apply filter_In in Hy as [Hy Hqy].
    exfalso. apply Hx. rewrite <- (Hu y (or_intror Hy) Hqy). exact Hy.
  - destruct (q x) eqn:Eq.
    + exfalso. apply Hx. rewrite (Hu x (or_introl eq_refl) Eq). exact Hin.
    + apply IH; auto. intros y Hy. apply Hu. now right.
Qed.

Lemma count_zero {A} (q : A -> bool) (l : list A) :
  (forall y, In y l -> q y = false) -> filter q l = [].
Proof.
  induction l as [|x l IH]; intros H; [reflexivity|]. simpl.
  rewrite (H x (or_introl eq_refl)). apply IH. intros y Hy. apply H. now right.
Qed.

Lemma list_sum_indicator {A} (q : A -> bool) (l : list A) :
  list_sum (map (fun k => if q k then 1 else 0) l) = List.length (filter q l).
Proof.
  induction l as [|x l IH]; [reflexivity|]. simpl.
  destruct (q x); simpl; now rewrite IH.
Qed.

Lemma treeNodes_app (a b : list Tree.t) :
  treeNodes (a ++ b) = treeNodes a ++ treeNodes b.
Proof. unfold treeNodes. apply flat_map_app. Qed.

Lemma atDir_app (d : string) (a b : list Tree.t) :
  atDir d (a ++ b) = atDir d a ++ atDir d b.
Proof. unfold atDir. now rewrite treeNodes_app, filter_app. Qed.

Lemma treeNodes_single (c : string) (ns : list Node) (ch : list Tree.t) :
  treeNodes [Tree.mk c ns ch] = Tree.mk c ns ch :: treeNodes ch.
Proof. unfold treeNodes. simpl. now rewrite app_nil_r. Qed.

Lemma Node_eqb_eq (a b : Node) : Node_eqb a b = true <-> a = b.
Proof.
  unfold Node_eqb. destruct a as [p1 n1 d1 h1], b as [p2 n2 d2 h2]. simpl.
  rewrite !andb_true_iff, !String.eqb_eq. split.
  - intros [[[-> ->] Hd] Hh]. f_equal.
    + destruct d1 as [[]|], d2 as [[]|]; simpl in Hd; congruence.
    + destruct h1 as [[]|], h2 as [[]|]; simpl in Hh; congruence.
  - intros [= -> -> -> ->]. repeat split.
    + now destruct d2 as [[]|].
    + now destruct h2 as [[]|].
Qed.

End Counting.

Section TreeCount.

Variable g : Graph.
Variable d : string.
Hypothesis d_in_allDir : In d (allDir g).

Lemma target_not_nil : split_slash d <> [].
Proof. apply splitOn_not_nil. Qed.

(** Below a hierarchy [h] there is exactly one directory on the way to the
    target if [h] is a proper prefix of the target, and none otherwise. *)
Lemma level_unique (h : list string) :
  List.length
    (filter (fun x => isChild h (split_slash x)
                      && everySame (split_slash x) (split_slash d))
       (allDir g))
  = if everySame h (split_slash d)
       && Nat.ltb (List.length h) (List.length (split_slash d))
    then 1 else 0.
Proof.
  destruct (everySame h (split_slash d)
            && Nat.ltb (List.length h) (List.length (split_slash d))) eqn:E.
  - apply andb_true_iff in E as [Hp Hl].
    apply everySame_iff in Hp as [r Hr]. apply Nat.ltb_lt in Hl.
    rewrite Hr, length_app in Hl.
    destruct r as [|s r]; [simpl in Hl; lia|].
    pose proof (allDir_segments g d d_in_allDir) as HT.
    assert (HT' : dirOfNode g ((h ++ [s]) ++ r))
      by (rewrite <- app_assoc; simpl; now rewrite <- Hr).
    apply dirOfNode_prefix in HT'; [|now destruct h].
    apply (count_one _ _ (join "/" (h ++ [s]))).
    + apply allDir_NoDup.
    + now apply dirOfNode_allDir.
    + rewrite dirSegs_split by (now apply (dirOfNode_dirSegs g)).
      apply andb_true_iff. split.
      * apply isChild_iff. now exists s.
      * apply everySame_iff. exists r. rewrite Hr, <- app_assoc. reflexivity.
    + intros y Hy Hq. apply andb_true_iff in Hq as [Hc Hpre].
      apply isChild_iff in Hc as [s' Hs'].
      apply everySame_iff in Hpre as [r' Hr'].
      rewrite Hs', Hr, <- app_assoc in Hr'. simpl in Hr'.
      apply app_inv_head in Hr'. injection Hr' as -> _.
      rewrite <- Hs'. symmetry. apply join_split_slash.
  - rewrite count_zero; [reflexivity|].
    intros y Hy. destruct (isChild h (split_slash y)) eqn:Hc; [|reflexivity].
    destruct (everySame (split_slash y) (split_slash d)) eqn:Hpre;
      [|reflexivity].
    exfalso. apply isChild_iff in Hc as [s Hs].
    apply everySame_iff in Hpre as [r Hr].
    rewrite Hs, <- app_assoc in Hr.
    assert (E1 : everySame h (split_slash d) = true)
      by (apply everySame_iff; eexists; exact Hr).
    assert (E2 : Nat.ltb (List.length h) (List.length (split_slash d)) = true)
      by (apply Nat.ltb_lt; rewrite Hr, length_app; simpl; lia).
    rewrite E1, E2 in E. discriminate.
Qed.

Lemma childrenOf_count (h : list string) (kp : bool) :
  list_sum
    (map (fun k =>
            if everySame (DirAndNodes.dirHierarchy k) (split_slash d) && kp
            then 1 else 0)
       (childrenOf (dirAndNodes g) h))
  = if kp && (everySame h (split_slash d)
              && Nat.ltb (List.length h) (List.length (split_slash d)))
    then 1 else 0.
Proof.
  rewrite list_sum_indicator. unfold childrenOf, dirAndNodes.
  rewrite filter_filter_and, filter_map_swap, length_map.
  destruct kp; simpl.
  - rewrite <- level_unique. f_equal. apply filter_ext. intros x. simpl.
    now rewrite andb_true_r, andb_comm.
  - rewrite count_zero; [reflexivity|]. intros y _. simpl.
    now rewrite andb_false_r.
Qed.

End TreeCount.

Section TreeResult.

Variable g : Graph.
Variable d : string.
Hypothesis d_in_allDir : In d (allDir g).

Lemma level_result (fuel : nat) (kids : list DirAndNodes.t) :
  (forall k, In k kids -> resultOk g d fuel k) ->
  exists subs,
    mapOpt (createDirAndNodesRecursive (dirAndNodes g) fuel) kids = Some subs
    /\ List.length (atDir d (List.concat subs))
       = list_sum
           (map (fun k =>
                   if everySame (DirAndNodes.dirHierarchy k) (split_slash d)
                      && negb (elided g d)
                   then 1 else 0) kids)
    /\ Forall (treeNodeOk g) (treeNodes (List.concat subs)).
Proof.
  induction kids as [|k kids IH]; intros H.
  - exists []. repeat split. constructor.
  - destruct (H k (or_introl eq_refl)) as [r [Hr [Hc Hok]]].
    destruct IH as [subs [Hs [Hcs Hoks]]]; [intros x Hx; apply H; now right|].
    exists (r :: subs). cbn [mapOpt]. rewrite Hr, Hs. split; [reflexivity|].
    cbn [List.concat map list_sum].
    rewrite atDir_app, length_app, Hc, Hcs, treeNodes_app.
    split; [reflexivity | now apply Forall_app].
Qed.

Lemma In_dirAndNodes (e : DirAndNodes.t) :
  In e (dirAndNodes g) <-> exists x, In x (allDir g) /\ e = entryOf g x.
Proof.
  unfold dirAndNodes. rewrite in_map_iff. split.
  - intros [x [<- Hx]]. now exists x.
  - intros [x [Hx ->]]. now exists x.
Qed.

Lemma proper_prefix (h : list string) :
  h <> split_slash d ->
  everySame h (split_slash d)
  && Nat.ltb (List.length h) (List.length (split_slash d))
  = everySame h (split_slash d).
Proof.
  intros Hne. destruct (everySame h (split_slash d)) eqn:E; [|reflexivity].
  apply everySame_iff in E as [r Hr]. simpl. apply Nat.ltb_lt.
  rewrite Hr, length_app. destruct r as [|s r]; simpl; [|lia].
  rewrite app_nil_r in Hr. congruence.
Qed.

Lemma recursive_count (fuel : nat) (e : DirAndNodes.t) :
  In e (dirAndNodes g) ->
  depthBound (dirAndNodes g) < fuel + List.length (DirAndNodes.dirHierarchy e) ->
  resultOk g d fuel e.
Proof.
  revert e. induction fuel as [|fuel IH]; intros e He Hf.
  - apply depthBound_ge in He. lia.
  - destruct (level_result fuel
                (childrenOf (dirAndNodes g) (DirAndNodes.dirHierarchy e)))
      as [subs [Hs [Hc Hok]]].
    { intros k Hk. apply childrenOf_In in Hk as [Hk Hch].
      apply IH; [assumption|]. apply isChild_length in Hch. lia. }
    rewrite (childrenOf_count g d d_in_allDir) in Hc.
    apply In_dirAndNodes in He as Hx. destruct Hx as [x [Hx ->]].
    unfold resultOk. cbn [createDirAndNodesRecursive]. rewrite Hs.
    change (Nat.eqb (List.length (DirAndNodes.nodes (entryOf g x))) 0
            && Nat.leb
                 (List.length
                    (childrenOf (dirAndNodes g)
                       (DirAndNodes.dirHierarchy (entryOf g x)))) 1)
      with (elided g x).
    cbn [entryOf DirAndNodes.dirHierarchy DirAndNodes.currentDir
         DirAndNodes.nodes] in *.
    destruct (String.eqb x d) eqn:Exd.
    + apply String.eqb_eq in Exd. subst x.
      rewrite everySame_refl, Nat.ltb_irrefl in Hc.
      replace (negb (elided g d) && (true && false)) with false in Hc
        by (now rewrite andb_false_r).
      rewrite everySame_refl. simpl.
      destruct (elided g d) eqn:El; eexists; (split; [reflexivity|]).
      * split; assumption.
      * split.
        -- unfold atDir in *. rewrite treeNodes_single. simpl.
           rewrite String.eqb_refl. simpl. now rewrite Hc.
        -- rewrite treeNodes_single. constructor; [|assumption].
           repeat split; assumption.
    + assert (Hne : split_slash x <> split_slash d).
      { intros E. apply String.eqb_neq in Exd. apply Exd.
        rewrite <- (join_split_slash x), <- (join_split_slash d). now rewrite E. }
      rewrite (proper_prefix _ Hne) in Hc.
      rewrite andb_comm.
      destruct (elided g x) eqn:El; eexists; (split; [reflexivity|]).
      * split; assumption.
      * split.
        -- unfold atDir in *. rewrite treeNodes_single. simpl.
           rewrite Exd. exact Hc.
        -- rewrite treeNodes_single. constructor; [|assumption].
           repeat split; assumption.
Qed.

Lemma roots_are_children :
  filter (fun e => Nat.eqb (List.length (DirAndNodes.dirHierarchy e)) 1)
    (dirAndNodes g)
  = childrenOf (dirAndNodes g) [].
Proof.
  unfold childrenOf. apply filter_ext. intros e. unfold isChild.
  destruct (DirAndNodes.dirHierarchy e) as [|a [|b l]]; reflexivity.
Qed.

(** The forest has one tree node for a directory that is kept and none for
    one that is elided, and every tree node is as built. *)
Lemma createDirAndNodesTree_count :
  exists forest,
    createDirAndNodesTree g = Some forest
    /\ List.length (atDir d forest) = (if elided g d then 0 else 1)
    /\ Forall (treeNodeOk g) (treeNodes forest).
Proof.
  unfold createDirAndNodesTree. rewrite roots_are_children.
  destruct (level_result (depthBound (dirAndNodes g))
              (childrenOf (dirAndNodes g) []))
    as [subs [Hs [Hc Hok]]].
  { intros k Hk. apply childrenOf_In in Hk as [Hk Hch].
    apply recursive_count; [assumption|]. apply isChild_length in Hch.
    simpl in Hch. lia. }
  rewrite (childrenOf_count g d d_in_allDir) in Hc.
  rewrite Hs. eexists. split; [reflexivity|]. split; [|assumption].
  rewrite Hc. simpl.
  pose proof (target_not_nil d) as Hne.
  destruct (split_slash d); [congruence|]. simpl.
  now destruct (elided g d).
Qed.

End TreeResult.

Section Holders.

Variable g : Graph.

Lemma node_directory_in_allDir (n : Node) (d : string) :
  In n (nodes g) -> getDirectoryPath (path n) = Some d -> In d (allDir g).
Proof.
  intros Hn E. destruct (getDirectoryPath_dirSegs _ _ E) as [c [Hc ->]].
  apply dirOfNode_allDir. exists n, []. rewrite app_nil_r.
  repeat split; try assumption. now apply dirSegs_not_nil.
Qed.

(** The [nodes] list of the entry of a directory holds a node of the graph
    exactly when the directory is that of the node. *)
Lemma entry_holds (n : Node) (c : string) :
  In n (nodes g) ->
  existsb (Node_eqb n) (filter (inDirectory c) (nodes g)) = inDirectory c n.
Proof.
  intros Hn. destruct (inDirectory c n) eqn:E.
  - apply existsb_exists. exists n. split; [|now apply Node_eqb_eq].
    apply filter_In. now split.
  - destruct (existsb _ _) eqn:Ex; [|reflexivity].
    apply existsb_exists in Ex as [m [Hm Hnm]].
    apply Node_eqb_eq in Hnm. subst m.
    apply filter_In in Hm as [_ Hm]. congruence.
Qed.

Lemma forest_ok (forest : list Tree.t) :
  createDirAndNodesTree g = Some forest ->
  Forall (treeNodeOk g) (treeNodes forest).
Proof.
  intros Hf. destruct (allDir g) as [|d0 D] eqn:ED.
  - unfold createDirAndNodesTree, dirAndNodes in Hf. rewrite ED in Hf.
    simpl in Hf. injection Hf as <-. constructor.
  - destruct (createDirAndNodesTree_count g d0) as [forest' [Hf' [_ Hok]]].
    + rewrite ED. now left.
    + congruence.
Qed.

Lemma forest_count (forest : list Tree.t) (d : string) :
  createDirAndNodesTree g = Some forest -> In d (allDir g) ->
  List.length (atDir d forest) = (if elided g d then 0 else 1).
Proof.
  intros Hf Hd.
  destruct (createDirAndNodesTree_count g d Hd) as [forest' [Hf' [Hc _]]].
  congruence.
Qed.

Lemma holders_atDir (forest : list Tree.t) (n : Node) :
  createDirAndNodesTree g = Some forest -> In n (nodes g) ->
  holders n forest
  = filter (fun t => inDirectory (Tree.currentDir t) n) (treeNodes forest).
Proof.
  intros Hf Hn. unfold holders. apply filter_ext_in. intros t Ht.
  pose proof (forest_ok forest Hf) as Hok. rewrite Forall_forall in Hok.
  destruct (Hok t Ht) as [_ [-> _]]. now apply entry_holds.
Qed.

End Holders.

(** C3, as the sources have it.  The tree builder returns a forest, and for
    every node of the graph: if its path has a directory, exactly one tree
    node of the forest holds the node in its [nodes] list, the one whose
    [currentDir] is that directory; if its path has no directory, no tree
    node holds it. *)
Theorem createDirAndNodesTree_holders (g : Graph) (n : Node) :
  In n (nodes g) ->
  exists forest,
    createDirAndNodesTree g = Some forest
    /\ match getDirectoryPath (path n) with
       | Some d => exists t, holders n forest = [t] /\ Tree.currentDir t = d
       | None => holders n forest = []
       end.
Proof.
  intros Hn. destruct (createDirAndNodesTree_total g) as [forest Hf].
  exists forest. split; [assumption|].
  rewrite (holders_atDir g forest n Hf Hn).
  destruct (getDirectoryPath (path n)) as [d|] eqn:E.
  - pose proof (node_directory_in_allDir g n d Hn E) as Hd.
    pose proof (forest_count g forest d Hf Hd) as Hc.
    assert (El : elided g d = false).
    { unfold elided, elidedEntry, entryOf. simpl.
      assert (Hin : In n (filter (inDirectory d) (nodes g))).
      { apply filter_In. split; [assumption|]. unfold inDirectory.
        rewrite E. apply String.eqb_refl. }
      destruct (filter (inDirectory d) (nodes g)); [destruct Hin | reflexivity]. }
    rewrite El in Hc.
    assert (Eq : filter (fun t => inDirectory (Tree.currentDir t) n)
                   (treeNodes forest) = atDir d forest).
    { unfold atDir. apply filter_ext. intros t. unfold inDirectory.
      rewrite E. apply String.eqb_sym. }
    rewrite Eq.
    destruct (atDir d forest) as [|t [|t' l]] eqn:Ea; try discriminate.
    exists t. split; [reflexivity|].
    assert (Ht : In t (atDir d forest)) by (rewrite Ea; now left).
    apply filter_In in Ht as [_ Ht]. now apply String.eqb_eq.
  - apply count_zero. intros t _. unfold inDirectory. now rewrite E.
Qed.

Lemma createDirAndNodesTree_holders_witness :
  let x := mkNode "a/b/x" "x" None None in
  let y := mkNode "a/y" "y" None None in
  exists forest,
    createDirAndNodesTree (mkGraph [x; y] []) = Some forest
    /\ exists t, holders x forest = [t] /\ Tree.currentDir t = "a/b".
Proof.
  cbv zeta.
  apply (createDirAndNodesTree_holders
           (mkGraph [mkNode "a/b/x" "x" None None; mkNode "a/y" "y" None None] [])
           (mkNode "a/b/x" "x" None None)).
  simpl. auto.
Defined.

(** C3 as it is written fails for a top-level file: its path has no
    directory, the forest is empty and no tree node holds it. *)
Lemma createDirAndNodesTree_top_level_file :
  let n := mkNode "index.ts" "index.ts" None None in
  let g := mkGraph [n] [] in
  In n (nodes g)
  /\ createDirAndNodesTree g = Some []
  /\ ~ (exists forest t,
          createDirAndNodesTree g = Some forest /\ holders n forest = [t]).
Proof.
  cbv zeta. split; [simpl; auto|]. split; [reflexivity|].
  intros [forest [t [Hf Hh]]].
  assert (E : forest = []) by (vm_compute in Hf; congruence).
  subst forest. discriminate.
Qed.

(** C4.  The tree builder returns a forest in which a directory entry
    without a file of its own and with at most one child directory is no tree
    node, and every other directory entry is exactly one tree node; the
    result for an elided entry is the concatenation of the results for its
    children, so that of its single child, or nothing when it has none.  The
    two graphs of the specification give the trees it describes. *)
Theorem createDirAndNodesTree_collapse (g : Graph) :
  (exists forest,
     createDirAndNodesTree g = Some forest
     /\ forall d, In d (allDir g) ->
          List.length (atDir d forest) = (if elided g d then 0 else 1))
  /\ (forall fuel e r,
        createDirAndNodesRecursive (dirAndNodes g) (S fuel) e = Some r ->
        exists subs,
          mapOpt (createDirAndNodesRecursive (dirAndNodes g) fuel)
            (childrenOf (dirAndNodes g) (DirAndNodes.dirHierarchy e))
          = Some subs
          /\ r = if elidedEntry (dirAndNodes g) e then List.concat subs
                 else [Tree.mk (DirAndNodes.currentDir e) (DirAndNodes.nodes e)
                         (List.concat subs)])
  /\ (let x := mkNode "a/b/c/x" "x" None None in
      let y := mkNode "a/b/c/y" "y" None None in
      createDirAndNodesTree (mkGraph [x; y] [])
      = Some [Tree.mk "a/b/c" [x; y] []])
  /\ (let x := mkNode "a/x" "x" None None in
      let y := mkNode "a/b/y" "y" None None in
      createDirAndNodesTree (mkGraph [x; y] [])
      = Some [Tree.mk "a" [x] [Tree.mk "a/b" [y] []]]).
Proof.
  split; [|split; [|split; reflexivity]].
  - destruct (createDirAndNodesTree_total g) as [forest Hf].
    exists forest. split; [assumption|].
    intros d Hd. now apply forest_count.
  - intros fuel e r H. cbn [createDirAndNodesRecursive] in H.
    destruct (mapOpt _ _) as [subs|]; [|discriminate].
    exists subs. split; [reflexivity|].
    unfold elidedEntry. destruct (_ && _); congruence.
Qed.

Lemma createDirAndNodesTree_collapse_witness :
  let x := mkNode "a/b/c/x" "x" None None in
  let g := mkGraph [x] [] in
  In "a/b" (allDir g) /\ elided g "a/b" = true
  /\ In "a/b/c" (allDir g) /\ elided g "a/b/c" = false
  /\ exists forest,
       createDirAndNodesTree g = Some forest
       /\ List.length (atDir "a/b" forest) = 0
       /\ List.length (atDir "a/b/c" forest) = 1.
Proof.
  cbv zeta.
  destruct (proj1 (createDirAndNodesTree_collapse
                     (mkGraph [mkNode "a/b/c/x" "x" None None] [])))
    as [forest [Hf Hc]].
  split; [vm_compute; auto|]. split; [reflexivity|].
  split; [vm_compute; auto|]. split; [reflexivity|].
  exists forest. split; [assumption|]. split.
  - apply (Hc "a/b"). vm_compute. auto.
  - apply (Hc "a/b/c"). vm_compute. auto.
Defined.

(* ================================================================== *)
(** * The filter on the store *)

Section StoreFacts.

Lemma frame_refl (s : Store) : frame s s.
Proof. split; auto. Qed.

Lemma frame_trans (s1 s2 s3 : Store) : frame s1 s2 -> frame s2 s3 -> frame s1 s3.
Proof.
  intros [L1 H1] [L2 H2]. split; [lia|].
  intros a Ha. rewrite H2 by lia. now apply H1.
Qed.

Lemma frame_alloc (s : Store) (a : Arr) : frame s (s ++ [a]).
Proof.
  split; [rewrite length_app; lia|].
  intros r Hr. now apply nth_error_app1.
Qed.

Lemma frame_keep (s s' : Store) (r : Ref) (x : Arr) :
  frame s s' -> nth_error s r = Some x -> nth_error s' r = Some x.
Proof.
  intros [_ H] Hr. rewrite H; [assumption|].
  apply nth_error_Some. congruence.
Qed.

Lemma nth_error_new (s : Store) (a : Arr) :
  nth_error (s ++ [a]) (List.length s) = Some a.
Proof. rewrite nth_error_app2 by lia. now rewrite Nat.sub_diag. Qed.

Lemma setNth_length (r : nat) (a : Arr) (s : Store) :
  List.length (setNth r a s) = List.length s.
Proof.
  revert r. induction s as [|x s IH]; intros r; [reflexivity|].
  destruct r; simpl; [reflexivity | now rewrite IH].
Qed.

Lemma setNth_same (r : nat) (a : Arr) (s : Store) :
  r < List.length s -> nth_error (setNth r a s) r = Some a.
Proof.
  revert r. induction s as [|x s IH]; intros r H; [simpl in H; lia|].
  destruct r; simpl; [reflexivity|]. apply IH. simpl in H. lia.
Qed.

Lemma setNth_other (r b : nat) (a : Arr) (s : Store) :
  b <> r -> nth_error (setNth r a s) b = nth_error s b.
Proof.
  revert r b. induction s as [|x s IH]; intros r b H; [reflexivity|].
  destruct r, b; simpl; try reflexivity; [congruence|]. apply IH. congruence.
Qed.

Lemma runs_ret {A} (x : A) (s : Store) (Q : A -> Store -> Prop) :
  Q x s -> runs (ret x) s Q.
Proof. intros H. exists x, s. repeat split; auto. Qed.

Lemma runs_bind {A B} (c : M A) (k : A -> M B) (s : Store)
  (P : A -> Store -> Prop) (Q : B -> Store -> Prop) :
  runs c s P ->
  (forall v s', frame s s' -> P v s' -> runs (k v) s' Q) ->
  runs (x <- c ;; k x) s Q.
Proof.
  intros [v [s' [Hc [F HP]]]] Hk.
  destruct (Hk v s' F HP) as [w [s'' [Hk' [F' HQ]]]].
  exists w, s''. unfold bind. rewrite Hc. split; [assumption|].
  split; [eapply frame_trans; eassumption | assumption].
Qed.

Lemma runs_alloc (a : Arr) (s : Store) :
  runs (alloc a) s
    (fun r s' => r = List.length s /\ nth_error s' r = Some a).
Proof.
  exists (List.length s), (s ++ [a]). split; [reflexivity|].
  split; [apply frame_alloc|]. split; [reflexivity | apply nth_error_new].
Qed.

Lemma runs_readNodes (r : Ref) (l : list Node) (s : Store) :
  nth_error s r = Some (NodeArr l) ->
  runs (readNodes r) s (fun v s' => v = l /\ s' = s).
Proof.
  intros H. exists l, s. unfold readNodes. rewrite H.
  repeat split; auto.
Qed.

Lemma runs_readRels (r : Ref) (l : list Relation) (s : Store) :
  nth_error s r = Some (RelArr l) ->
  runs (readRels r) s (fun v s' => v = l /\ s' = s).
Proof.
  intros H. exists l, s. unfold readRels. rewrite H.
  repeat split; auto.
Qed.

(** The deduplicating loops write to their accumulator only. *)
Lemma uniqueLoop_nodes (l acc : list Node) (pre : Ref) (s : Store) :
  nth_error s pre = Some (NodeArr acc) ->
  exists s',
    forEachM (pushUniqueNode pre) l s = Some (tt, s')
    /\ List.length s' = List.length s
    /\ (forall a, a <> pre -> nth_error s' a = nth_error s a)
    /\ nth_error s' pre = Some (NodeArr (uniqueFrom isSameNode l acc)).
Proof.
  revert acc s. induction l as [|x l IH]; intros acc s H.
  - exists s. repeat split; auto.
  - cbn [forEachM]. unfold bind at 1. unfold pushUniqueNode at 1.
    unfold bind at 1. unfold readNodes at 1.
    rewrite H. rewrite uniqueFrom_cons.
    destruct (existsb (fun node => isSameNode node x) acc).
    + unfold ret at 1. now apply IH.
    + unfold pushNode. rewrite H.
      assert (Hpre : pre < List.length s) by (apply nth_error_Some; congruence).
      destruct (IH (acc ++ [x]) (setNth pre (NodeArr (acc ++ [x])) s))
        as [s' [Hr [Hl [Ho Hn]]]]; [now apply setNth_same|].
      exists s'. split; [assumption|]. rewrite Hl, setNth_length.
      split; [reflexivity|]. split; [|assumption].
      intros a Ha. rewrite Ho by assumption. now apply setNth_other.
Qed.

Lemma uniqueLoop_rels (l acc : list Relation) (pre : Ref) (s : Store) :
  nth_error s pre = Some (RelArr acc) ->
  exists s',
    forEachM (pushUniqueRelation pre) l s = Some (tt, s')
    /\ List.length s' = List.length s
    /\ (forall a, a <> pre -> nth_error s' a = nth_error s a)
    /\ nth_error s' pre = Some (RelArr (uniqueFrom isSameRelation l acc)).
Proof.
  revert acc s. induction l as [|x l IH]; intros acc s H.
  - exists s. repeat split; auto.
  - cbn [forEachM]. unfold bind at 1. unfold pushUniqueRelation at 1.
    unfold bind at 1. unfold readRels at 1.
    rewrite H. rewrite uniqueFrom_cons.
    destruct (existsb (fun relation => isSameRelation relation x) acc).
    + unfold ret at 1. now apply IH.
    + unfold pushRel. rewrite H.
      assert (Hpre : pre < List.length s) by (apply nth_error_Some; congruence).
      destruct (IH (acc ++ [x]) (setNth pre (RelArr (acc ++ [x])) s))
        as [s' [Hr [Hl [Ho Hn]]]]; [now apply setNth_same|].
      exists s'. split; [assumption|]. rewrite Hl, setNth_length.
      split; [reflexivity|]. split; [|assumption].
      intros a Ha. rewrite Ho by assumption. now apply setNth_other.
Qed.

Lemma getUniqueNodesM_runs (src : Ref) (l : list Node) (s : Store) :
  nth_error s src = Some (NodeArr l) ->
  runs (getUniqueNodesM src) s
    (fun r s' => List.length s <= r
                 /\ nth_error s' r = Some (NodeArr (getUniqueNodes l))).
Proof.
  intros H. unfold runs, getUniqueNodesM, bind, readNodes, alloc. rewrite H.
  destruct (uniqueLoop_nodes l [] (List.length s) (s ++ [NodeArr []]))
    as [s' [Hr [Hl [Ho Hn]]]]; [apply nth_error_new|].
  rewrite Hr. unfold ret. eexists _, s'. split; [reflexivity|].
  rewrite length_app in Hl. simpl in Hl.
  split; [|split; [lia | exact Hn]].
  split; [lia|]. intros a Ha. rewrite Ho by lia. now apply nth_error_app1.
Qed.

Lemma getUniqueRelationsM_runs (src : Ref) (l : list Relation) (s : Store) :
  nth_error s src = Some (RelArr l) ->
  runs (getUniqueRelationsM src) s
    (fun r s' => List.length s <= r
                 /\ nth_error s' r = Some (RelArr (getUniqueRelations l))).
Proof.
  intros H. unfold runs, getUniqueRelationsM, bind, readRels, alloc. rewrite H.
  destruct (uniqueLoop_rels l [] (List.length s) (s ++ [RelArr []]))
    as [s' [Hr [Hl [Ho Hn]]]]; [apply nth_error_new|].
  rewrite Hr. unfold ret. eexists _, s'. split; [reflexivity|].
  rewrite length_app in Hl. simpl in Hl.
  split; [|split; [lia | exact Hn]].
  split; [lia|]. intros a Ha. rewrite Ho by lia. now apply nth_error_app1.
Qed.

End StoreFacts.

Section StoreFilter.

Lemma runs_conseq {A} (c : M A) (s : Store) (P Q : A -> Store -> Prop) :
  runs c s P -> (forall v s', frame s s' -> P v s' -> Q v s') -> runs c s Q.
Proof.
  intros [v [s' [Hc [F HP]]]] H. exists v, s'. auto.
Qed.

Lemma endpointsM_runs (rels : Ref) (l : list Relation) (s : Store) :
  nth_error s rels = Some (RelArr l) ->
  runs (endpointsM rels) s
    (fun r s' => List.length s <= r
                 /\ nth_error s' r = Some (NodeArr (endpoints l))).
Proof.
  intros H. unfold endpointsM.
  eapply runs_bind; [eapply runs_readRels; eassumption|].
  intros v s1 _ [-> ->].
  eapply runs_conseq; [apply runs_alloc|].
  intros r s2 _ [-> Hr]. split; [lia | assumption].
Qed.

Lemma relationNodesM_runs (tmpNodes tmpRelations : Ref) (N : list Node)
  (K : list Relation) (s : Store) :
  nth_error s tmpNodes = Some (NodeArr N) ->
  nth_error s tmpRelations = Some (RelArr K) ->
  runs (relationNodesM tmpNodes tmpRelations) s
    (fun r s' => nth_error s' r = Some (NodeArr (relationNodes N K))).
Proof.
  intros HN HK. unfold relationNodesM.
  eapply runs_bind; [eapply endpointsM_runs; eassumption|].
  intros e s1 F1 [_ He].
  eapply runs_bind; [eapply getUniqueNodesM_runs; eassumption|].
  intros u s2 F2 [_ Hu].
  eapply runs_bind; [eapply runs_readNodes; eassumption|].
  intros ul s3 _ [-> ->].
  pose proof (frame_keep _ _ _ _ (frame_trans _ _ _ F1 F2) HN) as HN2.
  eapply runs_bind; [eapply runs_readNodes; eassumption|].
  intros N' s4 _ [-> ->].
  eapply runs_conseq; [apply runs_alloc|].
  intros r s5 _ [_ Hr]. exact Hr.
Qed.

Lemma readmitM_runs (tmpNodes tmpRelations : Ref) (N : list Node)
  (K : list Relation) (r : Relation) (s : Store) :
  nth_error s tmpNodes = Some (NodeArr N) ->
  nth_error s tmpRelations = Some (RelArr K) ->
  runs (readmitM tmpNodes tmpRelations r) s (fun b _ => b = readmit N K r).
Proof.
  intros HN HK. unfold readmitM.
  eapply runs_bind; [eapply (relationNodesM_runs _ _ N K); eassumption|].
  intros rn s1 F1 Hrn. cbv beta in Hrn.
  eapply runs_bind; [eapply runs_readNodes; eassumption|].
  intros l s2 _ [-> ->].
  apply runs_ret. reflexivity.
Qed.

Lemma filterM_runs {A} (p : A -> M bool) (b : A -> bool)
  (Inv : Store -> Prop) :
  (forall s s', Inv s -> frame s s' -> Inv s') ->
  (forall x s, Inv s -> runs (p x) s (fun v _ => v = b x)) ->
  forall l s, Inv s -> runs (filterM p l) s (fun v _ => v = filter b l).
Proof.
  intros Hframe Hp. induction l as [|x l IH]; intros s HI.
  - now apply runs_ret.
  - cbn [filterM filter].
    eapply runs_bind; [eapply Hp; eassumption|].
    intros v s1 F1 ->.
    eapply runs_bind; [apply IH; eapply Hframe; eassumption|].
    intros rest s2 F2 ->.
    now apply runs_ret.
Qed.

Lemma includePassM_runs (include : option (list string)) (st : Ref * Ref)
  (N : list Node) (R : list Relation) (s : Store) :
  nth_error s (fst st) = Some (NodeArr N) ->
  nth_error s (snd st) = Some (RelArr R) ->
  runs (includePassM include st) s
    (fun st' s' =>
       nth_error s' (fst st')
       = Some (NodeArr (fst (includePass include (N, R))))
       /\ nth_error s' (snd st')
          = Some (RelArr (snd (includePass include (N, R))))).
Proof.
  intros HN HR. unfold includePassM, includePass.
  destruct (given include) as [ws|]; [|now apply runs_ret].
  eapply runs_bind; [eapply runs_readNodes; eassumption|].
  intros v s1 _ [-> ->].
  eapply runs_bind; [apply runs_alloc|].
  intros tn s2 F2 [_ Htn].
  pose proof (frame_keep _ _ _ _ F2 HR) as HR2.
  eapply runs_bind; [eapply runs_readRels; eassumption|].
  intros v s3 _ [-> ->].
  eapply runs_bind; [apply runs_alloc|].
  intros tr s4 F4 [_ Htr].
  apply runs_ret. simpl. split; [|assumption].
  eapply frame_keep; eassumption.
Qed.

Lemma excludePassM_runs (exclude : option (list string)) (st : Ref * Ref)
  (N : list Node) (R : list Relation) (s : Store) :
  nth_error s (fst st) = Some (NodeArr N) ->
  nth_error s (snd st) = Some (RelArr R) ->
  runs (excludePassM exclude st) s
    (fun st' s' =>
       nth_error s' (fst st')
       = Some (NodeArr (fst (excludePass exclude (N, R))))
       /\ nth_error s' (snd st')
          = Some (RelArr (snd (excludePass exclude (N, R))))).
Proof.
  intros HN HR. unfold excludePassM, excludePass.
  destruct (given exclude) as [ws|]; [|now apply runs_ret].
  eapply runs_bind; [eapply runs_readNodes; eassumption|].
  intros v s1 _ [-> ->].
  eapply runs_bind; [apply runs_alloc|].
  intros tn s2 F2 [_ Htn].
  pose proof (frame_keep _ _ _ _ F2 HR) as HR2.
  eapply runs_bind; [eapply runs_readRels; eassumption|].
  intros v s3 _ [-> ->].
  eapply runs_bind; [apply runs_alloc|].
  intros tr s4 F4 [_ Htr].
  apply runs_ret. simpl. split; [|assumption].
  eapply frame_keep; eassumption.
Qed.

Lemma extractUniqueNodesM_runs (nodesRef relsRef : Ref) (N : list Node)
  (R : list Relation) (s : Store) :
  nth_error s nodesRef = Some (NodeArr N) ->
  nth_error s relsRef = Some (RelArr R) ->
  runs (extractUniqueNodesM nodesRef relsRef) s
    (fun r s' =>
       List.length s <= r
       /\ nth_error s' r = Some (NodeArr (extractUniqueNodes (mkGraph N R)))).
Proof.
  intros HN HR. unfold extractUniqueNodesM.
  eapply runs_bind; [eapply runs_readNodes; eassumption|].
  intros v s1 _ [-> ->].
  eapply runs_bind; [eapply endpointsM_runs; eassumption|].
  intros e s2 F2 [_ He].
  eapply runs_bind; [eapply runs_readNodes; eassumption|].
  intros el s3 _ [-> ->].
  eapply runs_bind; [apply runs_alloc|].
  intros a s4 F4 [_ Ha].
  eapply runs_conseq; [eapply getUniqueNodesM_runs; eassumption|].
  intros r s5 F5 [Hl Hr]. split; [|exact Hr].
  destruct F2 as [L2 _], F4 as [L4 _]. lia.
Qed.

(** The filter on the store returns, leaves every array of the caller as it
    was, and its result is the one of [filterGraph] in two new arrays. *)
Lemma filterGraphM_runs (include exclude : option (list string))
  (nodesRef relsRef : Ref) (N : list Node) (R : list Relation) (s : Store) :
  nth_error s nodesRef = Some (NodeArr N) ->
  nth_error s relsRef = Some (RelArr R) ->
  runs (filterGraphM include exclude nodesRef relsRef) s
    (fun out s' =>
       List.length s <= fst out /\ List.length s <= snd out
       /\ nth_error s' (fst out)
          = Some (NodeArr (nodes (filterGraph include exclude (mkGraph N R))))
       /\ nth_error s' (snd out)
          = Some (RelArr (relations (filterGraph include exclude (mkGraph N R))))).
Proof.
  intros HN HR. unfold filterGraphM.
  eapply runs_bind; [eapply runs_readNodes; eassumption|].
  intros v s1 _ [-> ->].
  eapply runs_bind; [apply runs_alloc|].
  intros tn s2 F2 [_ Htn].
  pose proof (frame_keep _ _ _ _ F2 HR) as HR2.
  eapply runs_bind; [eapply runs_readRels; eassumption|].
  intros v s3 _ [-> ->].
  eapply runs_bind; [apply runs_alloc|].
  intros tr s4 F4 [_ Htr].
  pose proof (frame_keep _ _ _ _ F4 Htn) as Htn4.
  eapply runs_bind; [eapply (includePassM_runs include (tn, tr) N R); eassumption|].
  intros st1 s5 F5 [HN5 HR5].
  eapply runs_bind; [eapply (excludePassM_runs exclude st1 _ _ s5 HN5 HR5); eassumption|].
  intros st2 s6 F6 [HN6 HR6].
  rewrite <- surjective_pairing in HN6, HR6.
  pose proof (frame_keep _ _ _ _
    (frame_trans _ _ _ F4 (frame_trans _ _ _ F5 F6)) HR2) as HR6'.
  eapply runs_bind; [eapply runs_readRels; eassumption|].
  intros v s7 _ [-> ->].
  set (N2 := fst (excludePass exclude (includePass include (N, R)))) in *.
  set (K2 := snd (excludePass exclude (includePass include (N, R)))) in *.
  eapply runs_bind.
  { apply (filterM_runs (readmitM (fst st2) (snd st2)) (readmit N2 K2)
             (fun s' => nth_error s' (fst st2) = Some (NodeArr N2)
                        /\ nth_error s' (snd st2) = Some (RelArr K2))).
    - intros sa sb [Ha Hb] F. split; eapply frame_keep; eassumption.
    - intros x sa [Ha Hb]. eapply readmitM_runs; eassumption.
    - now split. }
  intros readmitted s8 F8 ->.
  eapply runs_bind; [apply runs_alloc|].
  intros rr s9 F9 [_ Hrr].
  pose proof (frame_keep _ _ _ _ (frame_trans _ _ _ F8 F9) HR6) as HK9.
  pose proof (frame_keep _ _ _ _ (frame_trans _ _ _ F8 F9) HN6) as HN9.
  eapply runs_bind; [eapply runs_readRels; eassumption|].
  intros v s10 _ [-> ->].
  eapply runs_bind; [eapply runs_readRels; eassumption|].
  intros v s11 _ [-> ->].
  eapply runs_bind; [apply runs_alloc|].
  intros cat s12 F12 [_ Hcat].
  eapply runs_bind; [eapply getUniqueRelationsM_runs; eassumption|].
  intros uq s13 F13 [Luq Huq].
  pose proof (frame_keep _ _ _ _ (frame_trans _ _ _ F12 F13) HN9) as HN13.
  eapply runs_bind; [eapply (extractUniqueNodesM_runs _ _ _ _ s13 HN13 Huq); eassumption|].
  intros no s14 F14 [Lno Hno].
  apply runs_ret. cbn [fst snd].
  pose proof (frame_keep _ _ _ _ F14 Huq) as Huq14.
  destruct F2 as [L2 _], F4 as [L4 _], F5 as [L5 _], F6 as [L6 _],
    F8 as [L8 _], F9 as [L9 _], F12 as [L12 _], F13 as [L13 _].
  split; [lia|]. split; [lia|]. split; assumption.
Qed.

End StoreFilter.

(** C9.  Run on a store that holds the two arrays of the input graph, the
    filter returns; every array that was in the store, the two of the input
    among them, holds the same elements in the same order as before; the two
    arrays of the result are new ones and hold what [filterGraph] computes;
    and a second call with the same input returns arrays with the same
    content, the first result being left as it was. *)
Theorem filterGraph_leaves_input (include exclude : option (list string))
  (nodesRef relsRef : Ref) (N : list Node) (R : list Relation) (s : Store) :
  nth_error s nodesRef = Some (NodeArr N) ->
  nth_error s relsRef = Some (RelArr R) ->
  exists out s',
    filterGraphM include exclude nodesRef relsRef s = Some (out, s')
    /\ (forall a, a < List.length s -> nth_error s' a = nth_error s a)
    /\ nth_error s' nodesRef = Some (NodeArr N)
    /\ nth_error s' relsRef = Some (RelArr R)
    /\ List.length s <= fst out /\ List.length s <= snd out
    /\ nth_error s' (fst out)
       = Some (NodeArr (nodes (filterGraph include exclude (mkGraph N R))))
    /\ nth_error s' (snd out)
       = Some (RelArr (relations (filterGraph include exclude (mkGraph N R))))
    /\ exists out2 s'',
         filterGraphM include exclude nodesRef relsRef s' = Some (out2, s'')
         /\ nth_error s'' (fst out2) = nth_error s' (fst out)
         /\ nth_error s'' (snd out2) = nth_error s' (snd out)
         /\ nth_error s'' (fst out) = nth_error s' (fst out)
         /\ nth_error s'' (snd out) = nth_error s' (snd out).
Proof.
  intros HN HR.
  destruct (filterGraphM_runs include exclude nodesRef relsRef N R s HN HR)
    as [out [s' [Hrun [F [L1 [L2 [Hn Hr]]]]]]].
  pose proof (frame_keep _ _ _ _ F HN) as HN'.
  pose proof (frame_keep _ _ _ _ F HR) as HR'.
  destruct (filterGraphM_runs include exclude nodesRef relsRef N R s' HN' HR')
    as [out2 [s'' [Hrun2 [F2 [_ [_ [Hn2 Hr2]]]]]]].
  exists out, s'. split; [assumption|]. split; [apply F|].
  repeat (split; [assumption|]).
  exists out2, s''. split; [assumption|].
  rewrite Hn2, Hr2, Hn, Hr.
  rewrite (frame_keep _ _ _ _ F2 Hn), (frame_keep _ _ _ _ F2 Hr).
  repeat split.
Qed.

Lemma filterGraph_leaves_input_witness :
  let a := mkNode "src/a" "a" None None in
  let b := mkNode "lib/b" "b" None None in
  let N := [a; b] in
  let R := [mkRelation a b "import"] in
  let s := [NodeArr N; RelArr R] in
  exists out s',
    filterGraphM None (Some ["lib"]) 0 1 s = Some (out, s')
    /\ nth_error s' 0 = Some (NodeArr N)
    /\ nth_error s' 1 = Some (RelArr R)
    /\ 2 <= fst out /\ 2 <= snd out
    /\ nth_error s' (fst out) = Some (NodeArr [a])
    /\ nth_error s' (snd out) = Some (RelArr []).
Proof.
  cbv zeta.
  destruct (filterGraph_leaves_input None (Some ["lib"]) 0 1
              [mkNode "src/a" "a" None None; mkNode "lib/b" "b" None None]
              [mkRelation (mkNode "src/a" "a" None None)
                 (mkNode "lib/b" "b" None None) "import"]
              [NodeArr [mkNode "src/a" "a" None None;
                        mkNode "lib/b" "b" None None];
               RelArr [mkRelation (mkNode "src/a" "a" None None)
                         (mkNode "lib/b" "b" None None) "import"]]
              eq_refl eq_refl)
    as [out [s' [H1 [_ [H3 [H4 [H5 [H6 [H7 [H8 _]]]]]]]]]].
  exists out, s'.
  split; [exact H1|]. split; [exact H3|]. split; [exact H4|].
  split; [exact H5|]. split; [exact H6|]. split; [exact H7 | exact H8].
Defined.

(* ================================================================== *)
(** * More on identifiers and labels *)

Section Sanitizer.

Lemma hasChar_join (c : ascii) (sep : string) (l : list string) :
  hasChar c sep = false -> Forall (fun f => hasChar c f = false) l ->
  hasChar c (join sep l) = false.
Proof.
  intros Hsep. induction 1 as [|f l Hf _ IH]; [reflexivity|].
  destruct l as [|f' l]; [exact Hf|].
  rewrite join_cons by discriminate.
  now rewrite !hasChar_app, Hf, Hsep, IH.
Qed.

Lemma splitOn_free (isSep : ascii -> bool) (c : ascii) (s : string) :
  isSep c = true -> Forall (fun f => hasChar c f = false) (splitOn isSep s).
Proof.
  intros Hc. induction s as [|d s IH]; simpl.
  - constructor; [reflexivity | constructor].
  - destruct (isSep d) eqn:E.
    + constructor; [reflexivity | assumption].
    + pose proof (splitOn_not_nil isSep s) as Hne.
      destruct (splitOn isSep s) as [|f fs]; [congruence|].
      inversion IH; subst. constructor; [|assumption].
      simpl. destruct (Ascii.eqb c d) eqn:Ecd; [|assumption].
      apply Ascii.eqb_eq in Ecd. congruence.
Qed.

Lemma splitOn_none (isSep : ascii -> bool) (s : string) :
  (forall c, isSep c = true -> hasChar c s = false) -> splitOn isSep s = [s].
Proof.
  induction s as [|d s IH]; intros H; [reflexivity|]. simpl.
  destruct (isSep d) eqn:E.
  - specialize (H d E). simpl in H. now rewrite Ascii.eqb_refl in H.
  - rewrite IH; [reflexivity|]. intros c Hc. specialize (H c Hc).
    simpl in H. now apply orb_false_iff in H.
Qed.

Lemma splitId_free (c : ascii) (s : string) (skip : bool) :
  isSplitChar c = true ->
  Forall (fun f => hasChar c f = false) (splitId skip s).
Proof.
  intros Hc. revert skip. induction s as [|d s IH]; intros skip.
  - simpl. constructor; [reflexivity | constructor].
  - cbn [splitId]. destruct skip; [apply IH|].
    destruct (isSplitChar d) eqn:E.
    + constructor; [reflexivity | apply IH].
    + destruct (Ascii.eqb d "|"%char && startsWithTilde s).
      * constructor; [reflexivity | apply IH].
      * specialize (IH false).
        destruct (splitId false s) as [|f fs].
        -- constructor; [|constructor]. simpl.
           destruct (Ascii.eqb c d) eqn:Ecd; [|reflexivity].
           apply Ascii.eqb_eq in Ecd. congruence.
        -- inversion IH; subst. constructor; [|assumption].
           simpl. destruct (Ascii.eqb c d) eqn:Ecd; [|assumption].
           apply Ascii.eqb_eq in Ecd. congruence.
Qed.


Lemma replaceAll_go_free (c : ascii) (pat rep s : string) (skip : nat) :
  hasChar c rep = false -> hasChar c s = false ->
  hasChar c (replaceAll_go pat rep skip s) = false.
Proof.
  intros Hrep. revert skip. induction s as [|d s IH]; intros skip H.
  - reflexivity.
  - simpl in H. apply orb_false_iff in H as [Hd Hs].
    cbn [replaceAll_go]. destruct skip; [|now apply IH].
    destruct (String.prefix pat (String d s)).
    + rewrite hasChar_app, Hrep. now apply IH.
    + simpl. rewrite Hd. now apply IH.
Qed.

Lemma replaceAll_free (c : ascii) (pat rep s : string) :
  hasChar c rep = false -> hasChar c s = false ->
  hasChar c (replaceAll pat rep s) = false.
Proof. apply replaceAll_go_free. Qed.

Lemma splitId_none (s : string) :
  hasSplitPoint s = false -> splitId false s = [s].
Proof.
  induction s as [|d s IH]; intros H; [reflexivity|].
  cbn [hasSplitPoint] in H.
  apply orb_false_iff in H as [H Hs]. apply orb_false_iff in H as [Hd Hb].
  cbn [splitId]. rewrite Hd, Hb, (IH Hs). reflexivity.
Qed.

Lemma prefix_app_l (p q s : string) :
  String.prefix (p ++ q) s = true -> String.prefix p s = true.
Proof.
  revert s. induction p as [|a p IH]; intros s H; [now destruct s|].
  destruct s as [|b s]; simpl in *; [discriminate|].
  destruct (ascii_dec a b); [now apply IH | discriminate].
Qed.

Lemma prefix_cons (a b : ascii) (p s : string) :
  String.prefix (String a p) (String b s) = true ->
  a = b /\ String.prefix p s = true.
Proof.
  cbn [String.prefix]. destruct (ascii_dec a b); [auto | discriminate].
Qed.

Lemma includes_graph (s : string) :
  includes s "graph" = false -> includes s "/graph/" = false.
Proof.
  induction s as [|a s IH]; intros H; [reflexivity|].
  cbn [includes] in *. apply orb_false_iff in H as [_ Hs].
  rewrite (IH Hs), orb_false_r.
  destruct (String.prefix "/graph/" (String a s)) eqn:E; [|reflexivity].
  apply prefix_cons in E as [_ E].
  apply (prefix_app_l "graph" "/") in E.
  destruct s as [|b s]; [discriminate|].
  cbn [includes] in Hs. now rewrite E in Hs.
Qed.

Lemma startsWithTilde_app (u : string) (c1 c2 : ascii) (v : string) :
  Ascii.eqb c1 "~"%char = Ascii.eqb c2 "~"%char ->
  startsWithTilde (u ++ String c1 v) = startsWithTilde (u ++ String c2 v).
Proof. destruct u; simpl; auto. Qed.

Lemma isSplitChar_not_tilde (c : ascii) :
  isSplitChar c = true -> Ascii.eqb c "~"%char = false.
Proof.
  intros H. destruct (Ascii.eqb c "~"%char) eqn:E; [|reflexivity].
  apply Ascii.eqb_eq in E. subst c. discriminate.
Qed.

Lemma splitId_same_reserved (u v : string) (c1 c2 : ascii) (skip : bool) :
  isSplitChar c1 = true -> isSplitChar c2 = true ->
  splitId skip (u ++ String c1 v) = splitId skip (u ++ String c2 v).
Proof.
  intros H1 H2. revert skip.
  induction u as [|a u IH]; intros skip.
  - simpl. rewrite H1, H2. now destruct skip.
  - change ((String a u ++ String c1 v)%string)
      with (String a (u ++ String c1 v)).
    change ((String a u ++ String c2 v)%string)
      with (String a (u ++ String c2 v)).
    cbn [splitId].
    rewrite (startsWithTilde_app u c1 c2 v)
      by (now rewrite !isSplitChar_not_tilde).
    now rewrite !IH.
Qed.

End Sanitizer.




(** X1.  A label never holds a double quote, and a name without one is its
    own label. *)
Theorem fileNameToMermaidName_quote_free (fileName : string) :
  hasChar (ascii_of_nat 34) (fileNameToMermaidName fileName) = false
  /\ (hasChar (ascii_of_nat 34) fileName = false ->
      fileNameToMermaidName fileName = fileName).
Proof.
  unfold fileNameToMermaidName. split.
  - apply hasChar_join; [reflexivity|].
    apply splitOn_free. reflexivity.
  - intros H. rewrite splitOn_none; [reflexivity|].
    intros c Hc. unfold isQuote in Hc. apply Ascii.eqb_eq in Hc. now subst c.
Qed.

Lemma fileNameToMermaidName_quote_free_witness :
  hasChar (ascii_of_nat 34) "index.ts" = false
  /\ fileNameToMermaidName "index.ts" = "index.ts".
Proof.
  split; [reflexivity|].
  apply (proj2 (fileNameToMermaidName_quote_free "index.ts")). reflexivity.
Defined.

(** X2.  An identifier holds none of the characters the pattern of line 167
    splits on one by one, the underscore apart: the substitutions write it
    back. *)
Theorem fileNameToMermaidId_split_chars (c : ascii) (fileName : string) :
  isSplitChar c = true -> c <> "_"%char ->
  hasChar c (fileNameToMermaidId fileName) = false.
Proof.
  intros Hc Hu. unfold fileNameToMermaidId.
  assert (Hrep : forall rep, In rep ["/_graph_/"; "style_"; "graph_"; "class_"] ->
                 hasChar c rep = false).
  { unfold isSplitChar in Hc. apply existsb_exists in Hc as [d [Hd Hcd]].
    apply Ascii.eqb_eq in Hcd. subst d.
    intros rep Hrep. simpl in Hd.
    repeat (destruct Hd as [<-|Hd];
            [repeat (destruct Hrep as [<-|Hrep]; [try reflexivity|]);
             try contradiction; congruence|]).
    contradiction. }
  repeat (apply replaceAll_free; [apply Hrep; simpl; auto|]).
  apply hasChar_join; [|now apply splitId_free].
  unfold isSplitChar in Hc. apply existsb_exists in Hc as [d [Hd Hcd]].
  apply Ascii.eqb_eq in Hcd. subst d. simpl in Hd.
  repeat (destruct Hd as [<-|Hd]; [reflexivity|]). contradiction.
Qed.

Lemma fileNameToMermaidId_split_chars_witness :
  isSplitChar "@"%char = true /\ "@"%char <> "_"%char
  /\ hasChar "@"%char (fileNameToMermaidId "src/@types/a-b.ts") = false.
Proof.
  split; [reflexivity|]. split; [discriminate|].
  apply (fileNameToMermaidId_split_chars "@"%char "src/@types/a-b.ts");
    [reflexivity | discriminate].
Defined.

(** X3.  A path in which the pattern matches nowhere and that holds none of
    the words [style], [graph], [class] is its own identifier. *)
Theorem fileNameToMermaidId_plain (fileName : string) :
  hasSplitPoint fileName = false ->
  includes fileName "style" = false ->
  includes fileName "graph" = false ->
  includes fileName "class" = false ->
  fileNameToMermaidId fileName = fileName.
Proof.
  intros Hs H1 H2 H3. unfold fileNameToMermaidId.
  rewrite (splitId_none _ Hs). change (join "//" [fileName]) with fileName.
  rewrite (replaceAll_absent "/graph/" "/_graph_/") by (now apply includes_graph).
  rewrite (replaceAll_absent "style" "style_") by assumption.
  rewrite (replaceAll_absent "graph" "graph_") by assumption.
  now apply replaceAll_absent.
Qed.

Lemma fileNameToMermaidId_plain_witness :
  fileNameToMermaidId "src/utils/index.ts" = "src/utils/index.ts".
Proof.
  apply (fileNameToMermaidId_plain "src/utils/index.ts"); reflexivity.
Defined.

(** X4.  Identifiers do not tell the split characters apart: two paths that
    differ in which of them stands at one position have the same
    identifier. *)
Theorem fileNameToMermaidId_collision (u v : string) (c1 c2 : ascii) :
  isSplitChar c1 = true -> isSplitChar c2 = true ->
  fileNameToMermaidId (u ++ String c1 v)
  = fileNameToMermaidId (u ++ String c2 v).
Proof.
  intros H1 H2. unfold fileNameToMermaidId.
  now rewrite (splitId_same_reserved u v c1 c2 false H1 H2).
Qed.

Lemma fileNameToMermaidId_collision_witness :
  "src/a-b.ts" <> "src/a@b.ts"
  /\ fileNameToMermaidId "src/a-b.ts" = fileNameToMermaidId "src/a@b.ts".
Proof.
  split; [discriminate|].
  apply (fileNameToMermaidId_collision "src/a" "b.ts" "-"%char "@"%char);
    reflexivity.
Defined.

(* ================================================================== *)
(** * More on the graph filter *)

Section FilterResult.

Lemma uniqueFrom_In {A} (same : A -> A -> bool) (x : A) (l acc : list A) :
  In x (uniqueFrom same l acc) -> In x acc \/ In x l.
Proof.
  revert acc. induction l as [|y l IH]; intros acc H; [now left|].
  rewrite uniqueFrom_cons in H. apply IH in H as [H|H]; [|right; now right].
  destruct (existsb (fun z => same z y) acc); [now left|].
  apply in_app_iff in H as [H|[<-|[]]]; [now left | right; now left].
Qed.

Lemma In_endpoints (n : Node) (rs : list Relation) :
  In n (endpoints rs) <-> exists r, In r rs /\ (n = from r \/ n = to r).
Proof.
  unfold endpoints. rewrite in_concat. split.
  - intros [l [Hl Hn]]. apply in_map_iff in Hl as [r [<- Hr]].
    exists r. split; [assumption|].
    destruct Hn as [<-|[<-|[]]]; auto.
  - intros [r [Hr Hn]]. exists [from r; to r]. split.
    + apply in_map_iff. now exists r.
    + destruct Hn as [->| ->]; simpl; auto.
Qed.

(** The graph of the data model is a fixed point of the filter without
    lists. *)
Lemma filterGraph_absent_fixed (include exclude : option (list string))
  (g : Graph) :
  given include = None -> given exclude = None ->
  wellFormedGraph g = true -> filterGraph include exclude g = g.
Proof.
  intros Hi He H.
  unfold wellFormedGraph in H. destruct g as [N R]. simpl in H.
  apply andb_true_iff in H as [H Hend]. apply andb_true_iff in H as [HN HR].
  unfold filterGraph, includePass, excludePass. rewrite Hi, He.
  cbn [fst snd nodes relations].
  assert (ER : getUniqueRelations (R ++ filter (readmit N R) R) = R).
  { rewrite getUniqueRelations_uniqueFrom, uniqueFrom_app.
    rewrite (uniqueFrom_distinct isSameRelation R []) by exact HR.
    apply uniqueFrom_absorb. intros x Hx. apply filter_In in Hx as [Hx _].
    apply existsb_self; [apply isSameRelation_refl | exact Hx]. }
  rewrite ER. f_equal.
  unfold extractUniqueNodes. cbn [nodes relations].
  rewrite getUniqueNodes_uniqueFrom, uniqueFrom_app.
  rewrite (uniqueFrom_distinct isSameNode N []) by exact HN.
  apply uniqueFrom_absorb. intros x Hx.
  rewrite forallb_forall in Hend. now apply Hend.
Qed.

Variables include exclude : option (list string).
Variable g : Graph.

Lemma filterGraph_relations :
  relations (filterGraph include exclude g)
  = getUniqueRelations
      (keptRelations include exclude g
       ++ filter (readmit (keptNodes include exclude g)
                    (keptRelations include exclude g)) (relations g)).
Proof. reflexivity. Qed.

Lemma filterGraph_nodes :
  nodes (filterGraph include exclude g)
  = getUniqueNodes
      (keptNodes include exclude g
       ++ endpoints (relations (filterGraph include exclude g))).
Proof. reflexivity. Qed.

Lemma filterGraph_relation_cases (r : Relation) :
  In r (relations (filterGraph include exclude g)) ->
  In r (relations g)
  /\ (keepsRelation include exclude r = true
      \/ readmit (keptNodes include exclude g)
           (keptRelations include exclude g) r = true).
Proof.
  rewrite filterGraph_relations, getUniqueRelations_uniqueFrom.
  intros H. apply uniqueFrom_In in H as [[]|H].
  apply in_app_iff in H as [H|H].
  - rewrite keptRelations_filter in H. apply filter_In in H as [H1 H2]. auto.
  - apply filter_In in H as [H1 H2]. auto.
Qed.

Lemma filterGraph_node_cases (n : Node) :
  In n (nodes (filterGraph include exclude g)) ->
  (In n (nodes g) /\ keepsNode include exclude n = true)
  \/ exists r, In r (relations (filterGraph include exclude g))
               /\ (n = from r \/ n = to r).
Proof.
  rewrite filterGraph_nodes, getUniqueNodes_uniqueFrom.
  intros H. apply uniqueFrom_In in H as [[]|H].
  apply in_app_iff in H as [H|H].
  - left. rewrite keptNodes_filter in H. now apply filter_In in H.
  - right. now apply In_endpoints.
Qed.

End FilterResult.

Lemma filterGraph_result_wellFormed (include exclude : option (list string))
  (g : Graph) :
  wellFormedGraph (filterGraph include exclude g) = true.
Proof.
  unfold wellFormedGraph. rewrite !andb_true_iff. repeat split.
  - rewrite filterGraph_nodes, getUniqueNodes_uniqueFrom.
    now apply uniqueFrom_is_distinct.
  - rewrite filterGraph_relations, getUniqueRelations_uniqueFrom.
    now apply uniqueFrom_is_distinct.
  - apply forallb_forall. intros e He.
    rewrite filterGraph_nodes, getUniqueNodes_uniqueFrom.
    rewrite (uniqueFrom_existsb isSameNode isSameNode_trans), existsb_app.
    simpl. apply orb_true_iff. right.
    apply existsb_self; [apply isSameNode_refl | assumption].
Qed.

(** X5.  Whatever the input, the graph the filter returns has nodes with
    distinct paths, relations with distinct endpoint-path pairs, and every
    endpoint of its relations among its nodes; filtering it again without
    lists (absent or empty) gives it back. *)
Theorem filterGraph_well_formed (include exclude : option (list string))
  (g : Graph) :
  wellFormedGraph (filterGraph include exclude g) = true
  /\ forall include' exclude',
       given include' = None -> given exclude' = None ->
       filterGraph include' exclude' (filterGraph include exclude g)
       = filterGraph include exclude g.
Proof.
  pose proof (filterGraph_result_wellFormed include exclude g) as W.
  split; [exact W|].
  intros include' exclude' Hi He.
  now apply filterGraph_absent_fixed.
Qed.

Lemma filterGraph_well_formed_witness :
  let a := mkNode "src/a" "a" None None in
  let b := mkNode "lib/b" "b" None None in
  let g := mkGraph [a; b; a] [mkRelation a b "x"; mkRelation a b "y"] in
  filterGraph None (Some []) (filterGraph (Some ["src"]) None g)
  = filterGraph (Some ["src"]) None g.
Proof.
  cbv zeta.
  apply (proj2 (filterGraph_well_formed (Some ["src"]) None _));
    reflexivity.
Defined.

(** X6.  With an exclude list, no node and no relation endpoint of the
    result has a path that holds an exclude word, the re-admitted relations
    included. *)
Theorem filterGraph_excludes (include exclude : option (list string))
  (ws : list string) (g : Graph) :
  given exclude = Some ws ->
  (forall r, In r (relations (filterGraph include exclude g)) ->
             relationHits ws r = false)
  /\ (forall n, In n (nodes (filterGraph include exclude g)) ->
                nodeHits ws n = false).
Proof.
  intros He.
  assert (HR : forall r, In r (relations (filterGraph include exclude g)) ->
               pathHits ws (path (from r)) = false
               /\ pathHits ws (path (to r)) = false).
  { intros r Hr. apply filterGraph_relation_cases in Hr as [_ [Hk|Hk]].
    - unfold keepsRelation in Hk. rewrite He in Hk.
      apply andb_true_iff in Hk as [_ Hk]. apply negb_true_iff in Hk.
      rewrite relationHits_paths in Hk. now apply orb_false_iff in Hk.
    - rewrite readmit_unfold in Hk.
      apply andb_true_iff in Hk as [Hf Ht].
      apply andb_true_iff in Hf as [_ Hf]. apply andb_true_iff in Ht as [_ Ht].
      split; eapply referenced_not_excluded; eassumption. }
  split.
  - intros r Hr. rewrite relationHits_paths.
    destruct (HR r Hr) as [-> ->]. reflexivity.
  - intros n Hn. apply filterGraph_node_cases in Hn as [[_ Hk]|[r [Hr Hn]]].
    + unfold keepsNode in Hk. rewrite He in Hk.
      apply andb_true_iff in Hk as [_ Hk]. now apply negb_true_iff in Hk.
    + destruct (HR r Hr) as [Hf Ht].
      destruct Hn as [->| ->]; assumption.
Qed.

Lemma filterGraph_excludes_witness :
  let a := mkNode "src/a" "a" None None in
  let t := mkNode "src/a.test" "t" None None in
  let g := mkGraph [a; t] [mkRelation t a "import"] in
  nodes (filterGraph None (Some ["TEST"]) g) = [a]
  /\ forall n, In n (nodes (filterGraph None (Some ["TEST"]) g)) ->
               nodeHits ["TEST"] n = false.
Proof.
  cbv zeta. split; [reflexivity|].
  apply (filterGraph_excludes None (Some ["TEST"]) ["TEST"]). reflexivity.
Defined.

(** X7.  The filter invents nothing: every relation of the result is a
    relation of the input, and every node of the result is a node of the
    input or an endpoint of a relation of the result. *)
Theorem filterGraph_provenance (include exclude : option (list string))
  (g : Graph) :
  (forall r, In r (relations (filterGraph include exclude g)) ->
             In r (relations g))
  /\ (forall n, In n (nodes (filterGraph include exclude g)) ->
                In n (nodes g)
                \/ exists r, In r (relations (filterGraph include exclude g))
                             /\ (n = from r \/ n = to r)).
Proof.
  split.
  - intros r Hr. now apply filterGraph_relation_cases in Hr.
  - intros n Hn. apply filterGraph_node_cases in Hn as [[Hn _]|Hn]; auto.
Qed.

Lemma filterGraph_provenance_witness :
  let a := mkNode "src/a" "a" None None in
  let b := mkNode "lib/b" "b" None None in
  let r := mkRelation a b "import" in
  let g := mkGraph [a] [r] in
  In r (relations (filterGraph (Some ["src"]) None g))
  /\ In r (relations g).
Proof.
  cbv zeta. split; [simpl; auto|].
  apply (proj1 (filterGraph_provenance (Some ["src"]) None _)).
  simpl. auto.
Defined.

(** X9.  What passes both passes stays: a node of the input that passes is,
    by path, a node of the result, and a relation of the input that passes
    is, by endpoint paths, a relation of the result. *)
Theorem filterGraph_keeps (include exclude : option (list string))
  (g : Graph) :
  (forall n, In n (nodes g) -> keepsNode include exclude n = true ->
             existsb (fun x => isSameNode x n)
               (nodes (filterGraph include exclude g)) = true)
  /\ (forall r, In r (relations g) -> keepsRelation include exclude r = true ->
                existsb (fun x => isSameRelation x r)
                  (relations (filterGraph include exclude g)) = true).
Proof.
  split.
  - intros n Hn Hk.
    rewrite filterGraph_nodes, getUniqueNodes_uniqueFrom.
    rewrite (uniqueFrom_existsb isSameNode isSameNode_trans), existsb_app.
    simpl. apply orb_true_iff. left.
    apply existsb_self; [apply isSameNode_refl|].
    rewrite keptNodes_filter. apply filter_In. now split.
  - intros r Hr Hk.
    rewrite filterGraph_relations, getUniqueRelations_uniqueFrom.
    rewrite (uniqueFrom_existsb isSameRelation isSameRelation_trans), existsb_app.
    simpl. apply orb_true_iff. left.
    apply existsb_self; [apply isSameRelation_refl|].
    rewrite keptRelations_filter. apply filter_In. now split.
Qed.

Lemma filterGraph_keeps_witness :
  let a := mkNode "src/a" "a" None None in
  let b := mkNode "lib/b" "b" None None in
  let g := mkGraph [a; b] [mkRelation a b "import"] in
  keepsNode (Some ["SRC"]) None a = true
  /\ existsb (fun x => isSameNode x a)
       (nodes (filterGraph (Some ["SRC"]) None g)) = true.
Proof.
  cbv zeta. split; [reflexivity|].
  apply (proj1 (filterGraph_keeps (Some ["SRC"]) None _)); [simpl; auto|].
  reflexivity.
Defined.

Section CaseInsensitive.

Lemma upperOf_lower (a b : ascii) :
  upperOf a b = true -> lowerChar a = lowerChar b.
Proof.
  intros H. unfold upperOf in H.
  apply andb_true_iff in H as [H E]. apply andb_true_iff in H as [H1 H2].
  apply Nat.leb_le in H1. apply Nat.leb_le in H2. apply Nat.eqb_eq in E.
  unfold lowerChar.
  replace (Nat.leb 65 (nat_of_ascii a) && Nat.leb (nat_of_ascii a) 90)
    with true
    by (symmetry; apply andb_true_iff; split; now apply Nat.leb_le).
  replace (Nat.leb 65 (nat_of_ascii b) && Nat.leb (nat_of_ascii b) 90)
    with false
    by (symmetry; apply andb_false_iff; right; apply Nat.leb_gt; lia).
  rewrite E. apply ascii_nat_embedding.
Qed.

Lemma sameLetter_lower (c d : ascii) :
  sameLetter c d = true -> lowerChar c = lowerChar d.
Proof.
  unfold sameLetter. intros H. apply orb_true_iff in H as [H|H].
  - apply orb_true_iff in H as [H|H].
    + apply Ascii.eqb_eq in H. now subst.
    + now apply upperOf_lower.
  - symmetry. now apply upperOf_lower.
Qed.

Lemma sameUpToCase_lower (s t : string) :
  sameUpToCase s t = true -> toLowerCase s = toLowerCase t.
Proof.
  revert t. induction s as [|c s IH]; intros [|d t] H; try discriminate;
    [reflexivity|].
  cbn [sameUpToCase] in H. apply andb_true_iff in H as [H1 H2].
  cbn [toLowerCase]. f_equal; [now apply sameLetter_lower | now apply IH].
Qed.

(** The lower-case form of a string of ASCII characters is one of its
    variants, and a string of ASCII characters itself. *)
Lemma lowerChar_variant (c : ascii) :
  sameLetter c (lowerChar c) = true
  /\ (isAsciiChar c = true -> isAsciiChar (lowerChar c) = true).
Proof.
  destruct c as [[] [] [] [] [] [] [] []];
    (split; [reflexivity | intros H; first [exact H | reflexivity]]).
Qed.

Lemma toLowerCase_variant (s : string) :
  sameUpToCase s (toLowerCase s) = true
  /\ (asciiOnly s = true -> asciiOnly (toLowerCase s) = true).
Proof.
  induction s as [|c s [IH1 IH2]]; [split; reflexivity|].
  cbn [toLowerCase sameUpToCase asciiOnly].
  destruct (lowerChar_variant c) as [H1 H2]. split.
  - now rewrite H1, IH1.
  - intros H. apply andb_true_iff in H as [Hc Hs].
    now rewrite (H2 Hc), (IH2 Hs).
Qed.

Lemma matchesWord_variant (p p' w w' : string) :
  sameUpToCase p p' = true -> sameUpToCase w w' = true ->
  matchesWord p' w' = matchesWord p w.
Proof.
  intros Hp Hw. unfold matchesWord.
  now rewrite (sameUpToCase_lower p p' Hp), (sameUpToCase_lower w w' Hw).
Qed.

Lemma sameUpToCase_refl (s : string) : sameUpToCase s s = true.
Proof.
  induction s as [|c s IH]; [reflexivity|].
  cbn [sameUpToCase]. unfold sameLetter. now rewrite Ascii.eqb_refl, IH.
Qed.

Lemma nodeHits_variant (ws ws' : list string) (n : Node) :
  sameWordList ws ws' = true -> nodeHits ws' n = nodeHits ws n.
Proof.
  unfold nodeHits. revert ws'.
  induction ws as [|w ws IH]; intros [|w' ws'] H; try discriminate;
    [reflexivity|].
  cbn [sameWordList] in H. apply andb_true_iff in H as [Hw H].
  cbn [existsb]. rewrite (IH ws' H).
  now rewrite (matchesWord_variant (path n) (path n) w w'
                 (sameUpToCase_refl _) Hw).
Qed.

Lemma relationHits_variant (ws ws' : list string) (r : Relation) :
  sameWordList ws ws' = true -> relationHits ws' r = relationHits ws r.
Proof.
  unfold relationHits. revert ws'.
  induction ws as [|w ws IH]; intros [|w' ws'] H; try discriminate;
    [reflexivity|].
  cbn [sameWordList] in H. apply andb_true_iff in H as [Hw H].
  cbn [existsb]. rewrite (IH ws' H).
  now rewrite !(matchesWord_variant _ _ w w' (sameUpToCase_refl _) Hw).
Qed.

Lemma includePass_variant (include include' : option (list string))
  (st : list Node * list Relation) :
  sameWords include include' = true ->
  includePass include' st = includePass include st.
Proof.
  unfold includePass.
  destruct include as [[|w ws]|], include' as [[|w' ws']|];
    try discriminate; try reflexivity.
  intros H. cbn [given sameWords] in *. f_equal.
  - apply filter_ext. intros n. now apply nodeHits_variant.
  - apply filter_ext. intros r. now apply relationHits_variant.
Qed.

Lemma excludePass_variant (exclude exclude' : option (list string))
  (st : list Node * list Relation) :
  sameWords exclude exclude' = true ->
  excludePass exclude' st = excludePass exclude st.
Proof.
  unfold excludePass.
  destruct exclude as [[|w ws]|], exclude' as [[|w' ws']|];
    try discriminate; try reflexivity.
  intros H. cbn [given sameWords] in *. f_equal.
  - apply filter_ext. intros n. now rewrite (nodeHits_variant _ _ n H).
  - apply filter_ext. intros r. now rewrite (relationHits_variant _ _ r H).
Qed.

Lemma sameWords_lower (l : option (list string)) :
  sameWords l (option_map (map toLowerCase) l) = true.
Proof.
  destruct l as [ws|]; [|reflexivity]. simpl.
  induction ws as [|w ws IH]; [reflexivity|].
  cbn [map sameWordList]. now rewrite (proj1 (toLowerCase_variant w)), IH.
Qed.

End CaseInsensitive.

(** X8.  On strings of ASCII characters the filter does not see the case of
    the letters: a word matches a path exactly when a variant of the word in
    another case matches a variant of the path, two lists of words that
    differ in the case of letters only give the same result, and so do the
    lists given in lower case. *)
Theorem filterGraph_case_insensitive
  (include include' exclude exclude' : option (list string)) (g : Graph) :
  asciiGraph g = true ->
  asciiWords include = true -> asciiWords include' = true ->
  asciiWords exclude = true -> asciiWords exclude' = true ->
  sameWords include include' = true ->
  sameWords exclude exclude' = true ->
  (forall p p' w w',
     asciiOnly p = true -> asciiOnly p' = true ->
     asciiOnly w = true -> asciiOnly w' = true ->
     sameUpToCase p p' = true -> sameUpToCase w w' = true ->
     matchesWord p' w' = matchesWord p w)
  /\ filterGraph include' exclude' g = filterGraph include exclude g
  /\ (asciiWords (option_map (map toLowerCase) include) = true
      /\ asciiWords (option_map (map toLowerCase) exclude) = true
      /\ filterGraph (option_map (map toLowerCase) include)
           (option_map (map toLowerCase) exclude) g
         = filterGraph include exclude g).
Proof.
  intros _ Hi _ He _ Si Se. split; [|split; [|split; [|split]]].
  - intros p p' w w' _ _ _ _. apply matchesWord_variant.
  - unfold filterGraph.
    now rewrite (includePass_variant include include' _ Si),
      (excludePass_variant exclude exclude' _ Se).
  - destruct include as [ws|]; [|reflexivity]. simpl in *.
    rewrite forallb_forall in Hi. apply forallb_forall.
    intros w Hw. apply in_map_iff in Hw as [v [<- Hv]].
    apply (proj2 (toLowerCase_variant v)). now apply Hi.
  - destruct exclude as [ws|]; [|reflexivity]. simpl in *.
    rewrite forallb_forall in He. apply forallb_forall.
    intros w Hw. apply in_map_iff in Hw as [v [<- Hv]].
    apply (proj2 (toLowerCase_variant v)). now apply He.
  - unfold filterGraph.
    now rewrite (includePass_variant include _ _ (sameWords_lower include)),
      (excludePass_variant exclude _ _ (sameWords_lower exclude)).
Qed.

Lemma filterGraph_case_insensitive_witness :
  let a := mkNode "src/Lib/a.ts" "a.ts" None None in
  let b := mkNode "src/main.ts" "main.ts" None None in
  let g := mkGraph [a; b] [mkRelation b a "import"] in
  filterGraph (Some ["lib"]) (Some ["MAIN"]) g
  = filterGraph (Some ["LIB"]) (Some ["main"]) g.
Proof.
  cbv zeta.
  apply (proj1 (proj2 (filterGraph_case_insensitive
           (Some ["LIB"]) (Some ["lib"]) (Some ["main"]) (Some ["MAIN"])
           (mkGraph [mkNode "src/Lib/a.ts" "a.ts" None None;
                     mkNode "src/main.ts" "main.ts" None None]
              [mkRelation (mkNode "src/main.ts" "main.ts" None None)
                 (mkNode "src/Lib/a.ts" "a.ts" None None) "import"])
           eq_refl eq_refl eq_refl eq_refl eq_refl eq_refl eq_refl))).
Defined.

(* ================================================================== *)
(** * More on the directories and the forest *)

Section DirectoryFacts.

Lemma canonStk_no_dot (stk : list string) :
  canonStk stk -> Forall (fun s => s <> EmptyString /\ s <> ".") stk.
Proof.
  induction 1 as [ups HF | s stk [Hn [Hd _]] _ IH].
  - induction HF as [|x ups Hx _ IH]; constructor; [|assumption].
    subst x. split; discriminate.
  - constructor; [split|]; assumption.
Qed.

Lemma good_filter_nonEmpty (l : list string) :
  Forall goodSeg l ->
  filter (fun a => negb (String.eqb a EmptyString)) l = l.
Proof.
  induction 1 as [|s l [Hn _] _ IH]; simpl; [reflexivity|].
  apply String.eqb_neq in Hn. rewrite Hn. simpl. now rewrite IH.
Qed.

(** [path.join] gives a directory segment list back. *)
Lemma path_join_dirSegs_fixed (c : list string) :
  dirSegs c -> path_join c = join "/" c.
Proof.
  intros [->|[Hne Hc]]; [reflexivity|].
  unfold path_join. rewrite good_filter_nonEmpty by (now apply canon_good).
  destruct c as [|s c]; [congruence|].
  now apply normalize_canonical.
Qed.

Lemma NoDup_by_count {A B} (f : A -> B) (eqb : B -> B -> bool) (l : list A) :
  (forall x, eqb x x = true) ->
  (forall t, In t l ->
     List.length (filter (fun u => eqb (f u) (f t)) l) <= 1) ->
  NoDup (map f l).
Proof.
  intros Hrefl. induction l as [|t l IH]; intros H; [constructor|].
  simpl. constructor.
  - intros Hin. apply in_map_iff in Hin as [u [Hu Hin]].
    specialize (H t (or_introl eq_refl)). simpl in H.
    rewrite Hrefl in H. simpl in H.
    assert (Hu' : In u (filter (fun u0 => eqb (f u0) (f t)) l)).
    { apply filter_In. split; [assumption|]. rewrite Hu. apply Hrefl. }
    destruct (filter (fun u0 => eqb (f u0) (f t)) l); [destruct Hu'|].
    simpl in H. lia.
  - apply IH. intros u Hu. specialize (H u (or_intror Hu)). simpl in H.
    destruct (eqb (f t) (f u)); simpl in H; lia.
Qed.

Lemma hasDirectory_false (n : Node) :
  hasDirectory n = false
  <-> exists s, split_slash (path n) = [s] /\ s <> "node_modules".
Proof.
  unfold hasDirectory, getDirectoryPath.
  destruct (split_slash (path n)) as [|s [|s' l]] eqn:E.
  - simpl. split; [discriminate | intros [s [H _]]; discriminate].
  - cbn [existsb List.length Nat.eqb]. rewrite orb_false_r.
    destruct (String.eqb "node_modules" s) eqn:Es.
    + apply String.eqb_eq in Es. split; [discriminate|].
      intros [s0 [H Hs]]. injection H as <-. congruence.
    + apply String.eqb_neq in Es. split; [|reflexivity].
      intros _. exists s. split; [reflexivity | congruence].
  - split.
    + destruct (existsb _ _); [discriminate|].
      cbn [List.length Nat.eqb]. discriminate.
    + intros [s0 [H _]]. discriminate.
Qed.

End DirectoryFacts.

(** X11.  The directory list of a graph has no duplicate and no empty
    string, holds the directory of every node that has one, and holds with
    every directory of several segments the directory one segment
    shorter. *)
Theorem allDir_closed (g : Graph) :
  NoDup (allDir g)
  /\ ~ In EmptyString (allDir g)
  /\ (forall n d, In n (nodes g) -> getDirectoryPath (path n) = Some d ->
                  In d (allDir g))
  /\ (forall d c s, In d (allDir g) -> split_slash d = c ++ [s] -> c <> [] ->
                    In (join "/" c) (allDir g)).
Proof.
  split; [apply allDir_NoDup|]. split; [|split].
  - intros H. apply In_allDir in H as [c [Hc Hd]].
    symmetry in Hc. revert Hc.
    apply join_good_not_empty.
    + destruct Hd as [_ [_ [_ [Hne _]]]]. exact Hne.
    + apply dirSegs_good. eapply dirOfNode_dirSegs; eassumption.
  - apply node_directory_in_allDir.
  - intros d c s Hd Hs Hne. apply dirOfNode_allDir.
    apply (dirOfNode_prefix g c [s] Hne). rewrite <- Hs.
    now apply allDir_segments.
Qed.

Lemma allDir_closed_witness :
  let g := mkGraph [mkNode "a/b/c/x.ts" "x" None None] [] in
  In "a/b/c" (allDir g) /\ In "a/b" (allDir g) /\ In "a" (allDir g).
Proof.
  cbv zeta.
  pose proof (allDir_closed
    (mkGraph [mkNode "a/b/c/x.ts" "x" None None] [])) as [_ [_ [H1 H2]]].
  assert (Hc : In "a/b/c" (allDir (mkGraph [mkNode "a/b/c/x.ts" "x" None None] [])))
    by (apply (H1 (mkNode "a/b/c/x.ts" "x" None None)); [simpl; auto | reflexivity]).
  assert (Hb : In "a/b" (allDir (mkGraph [mkNode "a/b/c/x.ts" "x" None None] [])))
    by (apply (H2 "a/b/c" ["a"; "b"] "c" Hc); [reflexivity | discriminate]).
  split; [exact Hc|]. split; [exact Hb|].
  apply (H2 "a/b" ["a"] "b" Hb); [reflexivity | discriminate].
Defined.

(** X12.  A directory is a normalized relative path: it is not empty, has no
    slash at either end, is the lone [.] or has no empty and no [.] segment,
    and [path.join] of its segments gives it back. *)
Theorem getDirectoryPath_normalized (p d : string) :
  getDirectoryPath p = Some d ->
  d <> EmptyString
  /\ startsWithSlash d = false /\ endsWithSlash d = false
  /\ (d = "." \/ Forall (fun s => s <> EmptyString /\ s <> ".") (split_slash d))
  /\ path_join (split_slash d) = d.
Proof.
  intros H. apply getDirectoryPath_dirSegs in H as [c [Hc ->]].
  pose proof (dirSegs_good c Hc) as HG.
  rewrite (dirSegs_split c Hc).
  split; [apply join_good_not_empty; [now apply dirSegs_not_nil | assumption]|].
  split; [now apply startsWithSlash_join|].
  split; [now apply endsWithSlash_join|].
  split; [|now apply path_join_dirSegs_fixed].
  destruct Hc as [->|[_ Hc]]; [now left|]. right.
  apply canonStk_no_dot, Forall_rev in Hc. now rewrite rev_involutive in Hc.
Qed.

Lemma getDirectoryPath_normalized_witness :
  getDirectoryPath "/a//b/./c/x.ts" = Some "a/b/c"
  /\ path_join (split_slash "a/b/c") = "a/b/c".
Proof.
  split; [reflexivity|].
  apply (getDirectoryPath_normalized "/a//b/./c/x.ts" "a/b/c"). reflexivity.
Defined.

(** X13.  No two tree nodes of the forest, at whatever depth, are for the
    same directory. *)
Theorem createDirAndNodesTree_distinct_dirs (g : Graph) (forest : list Tree.t) :
  createDirAndNodesTree g = Some forest ->
  NoDup (map Tree.currentDir (treeNodes forest)).
Proof.
  intros Hf. apply (NoDup_by_count Tree.currentDir String.eqb).
  - apply String.eqb_refl.
  - intros t Ht.
    pose proof (forest_ok g forest Hf) as Hok. rewrite Forall_forall in Hok.
    destruct (Hok t Ht) as [Hd _].
    pose proof (forest_count g forest (Tree.currentDir t) Hf Hd) as Hc.
    unfold atDir in Hc. rewrite Hc. destruct (elided g (Tree.currentDir t)); lia.
Qed.

Lemma createDirAndNodesTree_distinct_dirs_witness :
  let g := mkGraph [mkNode "a/x" "x" None None; mkNode "a/b/y" "y" None None;
                    mkNode "a/b/z" "z" None None] [] in
  exists forest,
    createDirAndNodesTree g = Some forest
    /\ map Tree.currentDir (treeNodes forest) = ["a"; "a/b"]
    /\ NoDup (map Tree.currentDir (treeNodes forest)).
Proof.
  cbv zeta. eexists. split; [reflexivity|]. split; [reflexivity|].
  apply (createDirAndNodesTree_distinct_dirs
           (mkGraph [mkNode "a/x" "x" None None; mkNode "a/b/y" "y" None None;
                     mkNode "a/b/z" "z" None None] [])).
  reflexivity.
Defined.

(** X17.  The forest is empty exactly when no node of the graph has a
    directory; and a node has no directory exactly when its path is a single
    segment other than [node_modules]. *)
Theorem createDirAndNodesTree_empty (g : Graph) :
  (createDirAndNodesTree g = Some []
   <-> forallb (fun n => negb (hasDirectory n)) (nodes g) = true)
  /\ (forall n,
        hasDirectory n = false
        <-> exists s, split_slash (path n) = [s] /\ s <> "node_modules").
Proof.
  split; [|intros n; apply hasDirectory_false].
  split.
  - intros Hf. apply forallb_forall. intros n Hn. unfold hasDirectory.
    destruct (getDirectoryPath (path n)) as [d|] eqn:E; [|reflexivity].
    exfalso.
    pose proof (node_directory_in_allDir g n d Hn E) as Hd.
    pose proof (forest_count g [] d Hf Hd) as Hc.
    assert (El : elided g d = false).
    { unfold elided, elidedEntry, entryOf. simpl.
      assert (Hin : In n (filter (inDirectory d) (nodes g))).
      { apply filter_In. split; [assumption|]. unfold inDirectory.
        rewrite E. apply String.eqb_refl. }
      destruct (filter (inDirectory d) (nodes g)); [destruct Hin | reflexivity]. }
    rewrite El in Hc. discriminate.
  - intros H. rewrite forallb_forall in H.
    assert (E : allDir g = []).
    { destruct (allDir g) as [|d D] eqn:ED; [reflexivity|]. exfalso.
      assert (Hd : In d (allDir g)) by (rewrite ED; now left).
      apply In_allDir in Hd as [c [_ [n [rest [Hn [_ [_ Hg]]]]]]].
      specialize (H n Hn). unfold hasDirectory in H. now rewrite Hg in H. }
    unfold createDirAndNodesTree, dirAndNodes. now rewrite E.
Qed.

Lemma createDirAndNodesTree_empty_witness :
  createDirAndNodesTree
    (mkGraph [mkNode "index.ts" "index" None None;
              mkNode "main.ts" "main" None None] []) = Some [].
Proof.
  apply (proj2 (proj1 (createDirAndNodesTree_empty _))). reflexivity.
Defined.

Section ForestShape.

Variable g : Graph.

Lemma entry_file_or_child (x : string) :
  In x (allDir g) ->
  filter (inDirectory x) (nodes g) <> []
  \/ childrenOf (dirAndNodes g) (split_slash x) <> [].
Proof.
  intros Hx. pose proof (allDir_segments g x Hx) as Hc.
  destruct Hc as [n [rest [Hn [Hne [Hd Hg]]]]].
  destruct rest as [|s rest].
  - left. rewrite app_nil_r, join_split_slash in Hg.
    assert (Hin : In n (filter (inDirectory x) (nodes g))).
    { apply filter_In. split; [assumption|]. unfold inDirectory.
      rewrite Hg. apply String.eqb_refl. }
    intros E. now rewrite E in Hin.
  - right.
    assert (Hk : dirOfNode g (split_slash x ++ [s])).
    { apply (dirOfNode_prefix g _ rest); [now destruct (split_slash x)|].
      rewrite <- app_assoc. exists n, []. rewrite app_nil_r.
      repeat split; try assumption. now destruct (split_slash x). }
    assert (Hin : In (entryOf g (join "/" (split_slash x ++ [s])))
                    (childrenOf (dirAndNodes g) (split_slash x))).
    { apply childrenOf_In. split.
      - apply In_dirAndNodes. eexists. split; [|reflexivity].
        now apply dirOfNode_allDir.
      - cbn [entryOf DirAndNodes.dirHierarchy].
        rewrite dirSegs_split by (now apply (dirOfNode_dirSegs g)).
        apply isChild_iff. now exists s. }
    intros E. now rewrite E in Hin.
Qed.

Lemma level_nonempty (fuel : nat) (kids : list DirAndNodes.t) :
  (forall k, In k kids ->
     exists r, createDirAndNodesRecursive (dirAndNodes g) fuel k = Some r
               /\ r <> [] /\ Forall ownsOrBranches (treeNodes r)) ->
  exists subs,
    mapOpt (createDirAndNodesRecursive (dirAndNodes g) fuel) kids = Some subs
    /\ List.length kids <= List.length (List.concat subs)
    /\ Forall ownsOrBranches (treeNodes (List.concat subs)).
Proof.
  induction kids as [|k kids IH]; intros H.
  - exists []. repeat split; [simpl; lia | constructor].
  - destruct (H k (or_introl eq_refl)) as [r [Hr [Hne Hok]]].
    destruct IH as [subs [Hs [Hl Hoks]]]; [intros x Hx; apply H; now right|].
    exists (r :: subs). cbn [mapOpt]. rewrite Hr, Hs. split; [reflexivity|].
    cbn [List.concat]. rewrite length_app, treeNodes_app. split.
    + destruct r; [congruence|]. simpl. lia.
    + now apply Forall_app.
Qed.

Lemma recursive_nonempty (fuel : nat) (e : DirAndNodes.t) :
  In e (dirAndNodes g) ->
  depthBound (dirAndNodes g) < fuel + List.length (DirAndNodes.dirHierarchy e) ->
  exists r, createDirAndNodesRecursive (dirAndNodes g) fuel e = Some r
            /\ r <> [] /\ Forall ownsOrBranches (treeNodes r).
Proof.
  revert e. induction fuel as [|fuel IH]; intros e He Hf.
  - apply depthBound_ge in He. lia.
  - destruct (level_nonempty fuel
                (childrenOf (dirAndNodes g) (DirAndNodes.dirHierarchy e)))
      as [subs [Hs [Hl Hok]]].
    { intros k Hk. apply childrenOf_In in Hk as [Hk Hch].
      apply IH; [assumption|]. apply isChild_length in Hch. lia. }
    apply In_dirAndNodes in He as Hx. destruct Hx as [x [Hx ->]].
    cbn [createDirAndNodesRecursive]. rewrite Hs.
    cbn [entryOf DirAndNodes.dirHierarchy DirAndNodes.currentDir
         DirAndNodes.nodes] in *.
    destruct (Nat.eqb (List.length (filter (inDirectory x) (nodes g))) 0
              && Nat.leb
                   (List.length (childrenOf (dirAndNodes g) (split_slash x))) 1)
      eqn:El; eexists; (split; [reflexivity|]).
    + split; [|assumption].
      apply andb_true_iff in El as [E0 _]. apply Nat.eqb_eq in E0.
      apply length_zero_iff_nil in E0.
      destruct (entry_file_or_child x Hx) as [H|H]; [congruence|].
      destruct (childrenOf (dirAndNodes g) (split_slash x)); [congruence|].
      simpl in Hl. destruct (List.concat subs); [simpl in Hl; lia | discriminate].
    + split; [discriminate|]. rewrite treeNodes_single.
      constructor; [|assumption]. unfold ownsOrBranches. simpl.
      apply andb_false_iff in El as [E0|E1].
      * left. apply Nat.eqb_neq in E0. intros E. now rewrite E in E0.
      * right. apply Nat.leb_gt in E1. lia.
Qed.

Lemma mapOpt_Forall2 {A B} (f : A -> option B) (l : list A) (subs : list B) :
  mapOpt f l = Some subs -> Forall2 (fun x r => f x = Some r) l subs.
Proof.
  revert subs. induction l as [|x l IH]; intros subs H; simpl in H.
  - injection H as <-. constructor.
  - destruct (f x) as [y|] eqn:Ef; [|discriminate].
    destruct (mapOpt f l) as [ys|]; [|discriminate].
    injection H as <-. constructor; [assumption | now apply IH].
Qed.

Lemma Forall2_In_r {A B} (R : A -> B -> Prop) (l1 : list A) (l2 : list B)
  (y : B) :
  Forall2 R l1 l2 -> In y l2 -> exists x, In x l1 /\ R x y.
Proof.
  induction 1 as [|a b l1 l2 Hab _ IH]; intros H; [destruct H|].
  destruct H as [<-|H].
  - exists a. split; [now left | assumption].
  - destruct (IH H) as [x [Hx Hr]]. exists x. split; [now right | assumption].
Qed.

Lemma In_treeNodes_concat (t : Tree.t) (subs : list (list Tree.t)) :
  In t (treeNodes (List.concat subs)) ->
  exists sub, In sub subs /\ In t (treeNodes sub).
Proof.
  induction subs as [|sub subs IH]; simpl; intros H; [destruct H|].
  rewrite treeNodes_app in H. apply in_app_iff in H as [H|H].
  - exists sub. auto.
  - destruct (IH H) as [sub' [Hs Ht]]. exists sub'. auto.
Qed.

Lemma recursive_nested (fuel : nat) (e : DirAndNodes.t) (r : list Tree.t) :
  In e (dirAndNodes g) ->
  createDirAndNodesRecursive (dirAndNodes g) fuel e = Some r ->
  (forall t, In t r ->
     exists rest,
       split_slash (Tree.currentDir t) = DirAndNodes.dirHierarchy e ++ rest)
  /\ Forall nestedOk (treeNodes r).
Proof.
  revert e r. induction fuel as [|fuel IH]; intros e r He H; [discriminate|].
  cbn [createDirAndNodesRecursive] in H.
  destruct (mapOpt (createDirAndNodesRecursive (dirAndNodes g) fuel)
              (childrenOf (dirAndNodes g) (DirAndNodes.dirHierarchy e)))
    as [subs|] eqn:Hs; [|discriminate].
  apply mapOpt_Forall2 in Hs.
  assert (Hsub : forall sub, In sub subs ->
            (forall t, In t sub ->
               exists rest, rest <> []
                 /\ split_slash (Tree.currentDir t)
                    = DirAndNodes.dirHierarchy e ++ rest)
            /\ Forall nestedOk (treeNodes sub)).
  { intros sub Hsub.
    destruct (Forall2_In_r _ _ _ _ Hs Hsub) as [k [Hk Hr]].
    apply childrenOf_In in Hk as [Hk Hch].
    destruct (IH k sub Hk Hr) as [Htop Hn]. split; [|assumption].
    intros t Ht. destruct (Htop t Ht) as [rest Hrest].
    apply isChild_iff in Hch as [s Hch]. rewrite Hch, <- app_assoc in Hrest.
    exists ([s] ++ rest). split; [discriminate | assumption]. }
  assert (Htop : forall t, In t (List.concat subs) ->
            exists rest, rest <> []
              /\ split_slash (Tree.currentDir t)
                 = DirAndNodes.dirHierarchy e ++ rest).
  { intros t Ht. apply in_concat in Ht as [sub [Hsb Ht]].
    now apply (proj1 (Hsub sub Hsb)). }
  assert (Hall : Forall nestedOk (treeNodes (List.concat subs))).
  { apply Forall_forall. intros t Ht.
    apply In_treeNodes_concat in Ht as [sub [Hsb Ht]].
    pose proof (proj2 (Hsub sub Hsb)) as HF. rewrite Forall_forall in HF.
    now apply HF. }
  apply In_dirAndNodes in He as [x [Hx ->]].
  cbn [entryOf DirAndNodes.dirHierarchy DirAndNodes.currentDir
       DirAndNodes.nodes] in *.
  destruct (_ && _); injection H as <-.
  - split; [|assumption]. intros t Ht.
    destruct (Htop t Ht) as [rest [_ Hr]]. now exists rest.
  - split.
    + intros t [<-|[]]. exists []. simpl. now rewrite app_nil_r.
    + rewrite treeNodes_single. constructor; [|assumption].
      intros c Hc. simpl in Hc. simpl. now apply Htop.
Qed.

Lemma forest_shape (forest : list Tree.t) :
  createDirAndNodesTree g = Some forest ->
  Forall ownsOrBranches (treeNodes forest) /\ Forall nestedOk (treeNodes forest).
Proof.
  unfold createDirAndNodesTree. rewrite roots_are_children. intros H.
  destruct (mapOpt _ _) as [subs|] eqn:Hs; [|discriminate].
  injection H as <-. split.
  - destruct (level_nonempty (depthBound (dirAndNodes g))
                (childrenOf (dirAndNodes g) [])) as [subs' [Hs' [_ Hok]]].
    { intros k Hk. apply childrenOf_In in Hk as [Hk Hch].
      apply recursive_nonempty; [assumption|]. apply isChild_length in Hch.
      simpl in Hch. lia. }
    congruence.
  - apply mapOpt_Forall2 in Hs. apply Forall_forall. intros t Ht.
    apply In_treeNodes_concat in Ht as [sub [Hsb Ht]].
    destruct (Forall2_In_r _ _ _ _ Hs Hsb) as [k [Hk Hr]].
    apply childrenOf_In in Hk as [Hk _].
    pose proof (proj2 (recursive_nested _ k sub Hk Hr)) as HF.
    rewrite Forall_forall in HF. now apply HF.
Qed.

End ForestShape.

Section Label.






End Label.

(** X14.  No tree node of the forest is a pass-through level: each has a file
    of its own or at least two children, so a tree node without children
    holds a file. *)
Theorem createDirAndNodesTree_no_pass_through (g : Graph)
  (forest : list Tree.t) (t : Tree.t) :
  createDirAndNodesTree g = Some forest ->
  In t (treeNodes forest) ->
  Tree.nodes t <> [] \/ 2 <= List.length (Tree.children t).
Proof.
  intros Hf Ht. pose proof (proj1 (forest_shape g forest Hf)) as HF.
  rewrite Forall_forall in HF. now apply HF.
Qed.

Lemma createDirAndNodesTree_no_pass_through_witness :
  let g := mkGraph [mkNode "a/b/x" "x" None None;
                    mkNode "a/c/d/y" "y" None None] [] in
  let t := Tree.mk "a" []
             [Tree.mk "a/b" [mkNode "a/b/x" "x" None None] [];
              Tree.mk "a/c/d" [mkNode "a/c/d/y" "y" None None] []] in
  createDirAndNodesTree g = Some [t]
  /\ (Tree.nodes t <> [] \/ 2 <= List.length (Tree.children t)).
Proof.
  cbv zeta. split; [reflexivity|].
  eapply (createDirAndNodesTree_no_pass_through
            (mkGraph [mkNode "a/b/x" "x" None None;
                      mkNode "a/c/d/y" "y" None None] [])).
  - reflexivity.
  - simpl. auto.
Defined.



Section ForestFiles.

Lemma filter_or_disjoint {A} (p q : A -> bool) (l : list A) :
  (forall x, In x l -> p x = true -> q x = true -> False) ->
  Permutation (filter (fun x => p x || q x) l) (filter p l ++ filter q l).
Proof.
  induction l as [|x l IH]; intros H; [constructor|].
  assert (IH' : Permutation (filter (fun x => p x || q x) l)
                  (filter p l ++ filter q l))
    by (apply IH; intros y Hy; apply H; now right).
  simpl. destruct (p x) eqn:Ep, (q x) eqn:Eq; simpl.
  - exfalso. apply (H x); auto. now left.
  - now constructor.
  - now apply Permutation_cons_app.
  - assumption.
Qed.

Lemma partition_by_directory (l : list Node) (D : list string) :
  NoDup D ->
  Permutation (flat_map (fun d => filter (inDirectory d) l) D)
    (filter (fun n => existsb (fun d => inDirectory d n) D) l).
Proof.
  induction 1 as [|d D Hd _ IH].
  - simpl. rewrite filter_false. constructor.
  - simpl. etransitivity; [|symmetry; apply filter_or_disjoint].
    + apply Permutation_app_head. exact IH.
    + intros n _ H1 H2. apply Hd.
      apply existsb_exists in H2 as [d' [Hd' H2]].
      unfold inDirectory in H1, H2.
      destruct (getDirectoryPath (path n)); [|discriminate].
      apply String.eqb_eq in H1, H2. congruence.
Qed.

Lemma flat_map_filter_empty {A B} (F : A -> list B) (p : A -> bool)
  (D : list A) :
  (forall d, p d = false -> F d = []) ->
  flat_map F (filter p D) = flat_map F D.
Proof.
  intros H. induction D as [|d D IH]; [reflexivity|]. simpl.
  destruct (p d) eqn:E; simpl; [now rewrite IH|].
  now rewrite (H d E), IH.
Qed.

Variable g : Graph.

Lemma forest_dirs (forest : list Tree.t) :
  createDirAndNodesTree g = Some forest ->
  Permutation (map Tree.currentDir (treeNodes forest))
    (filter (fun d => negb (elided g d)) (allDir g)).
Proof.
  intros Hf. apply NoDup_Permutation.
  - apply (NoDup_by_count Tree.currentDir String.eqb).
    + apply String.eqb_refl.
    + intros t Ht.
      pose proof (forest_ok g forest Hf) as Hok. rewrite Forall_forall in Hok.
      destruct (Hok t Ht) as [Hd _].
      pose proof (forest_count g forest (Tree.currentDir t) Hf Hd) as Hc.
      unfold atDir in Hc. rewrite Hc.
      destruct (elided g (Tree.currentDir t)); lia.
  - apply NoDup_filter, allDir_NoDup.
  - intros d. rewrite in_map_iff, filter_In. split.
    + intros [t [<- Ht]].
      pose proof (forest_ok g forest Hf) as Hok. rewrite Forall_forall in Hok.
      destruct (Hok t Ht) as [Hd [_ He]]. now rewrite He.
    + intros [Hd He]. apply negb_true_iff in He.
      pose proof (forest_count g forest d Hf Hd) as Hc. rewrite He in Hc.
      destruct (atDir d forest) as [|t l] eqn:Ea; [discriminate|].
      assert (Ht : In t (atDir d forest)) by (rewrite Ea; now left).
      apply filter_In in Ht as [Ht Hcur]. apply String.eqb_eq in Hcur.
      now exists t.
Qed.

Lemma forest_files_by_dir (forest : list Tree.t) :
  createDirAndNodesTree g = Some forest ->
  flat_map Tree.nodes (treeNodes forest)
  = flat_map (fun d => filter (inDirectory d) (nodes g))
      (map Tree.currentDir (treeNodes forest)).
Proof.
  intros Hf. pose proof (forest_ok g forest Hf) as Hok.
  induction Hok as [|t l [_ [Hn _]] _ IH]; [reflexivity|].
  simpl. now rewrite Hn, IH.
Qed.

End ForestFiles.

Lemma forest_files_permutation (g : Graph) (forest : list Tree.t) :
  createDirAndNodesTree g = Some forest ->
  Permutation (flat_map Tree.nodes (treeNodes forest))
    (filter hasDirectory (nodes g)).
Proof.
  intros Hf. rewrite (forest_files_by_dir g forest Hf).
  etransitivity.
  { apply Permutation_flat_map. apply (forest_dirs g forest Hf). }
  rewrite flat_map_filter_empty.
  - etransitivity; [apply partition_by_directory, allDir_NoDup|].
    erewrite filter_ext_in; [reflexivity|].
    intros n Hn. unfold hasDirectory.
    destruct (getDirectoryPath (path n)) as [d|] eqn:E.
    + apply existsb_exists. exists d. split.
      * now apply (node_directory_in_allDir g n).
      * unfold inDirectory. rewrite E. apply String.eqb_refl.
    + destruct (existsb _ _) eqn:Ex; [|reflexivity].
      apply existsb_exists in Ex as [d [_ Hd]].
      unfold inDirectory in Hd. now rewrite E in Hd.
  - intros d Hd. apply negb_false_iff in Hd.
    unfold elided, elidedEntry, entryOf in Hd. simpl in Hd.
    apply andb_true_iff in Hd as [Hd _]. apply Nat.eqb_eq in Hd.
    now apply length_zero_iff_nil.
Qed.

(** X15.  The files held by the tree nodes of the forest are, up to order,
    the nodes of the graph that have a directory, each as often as the graph
    lists it; the top-level files are in no tree node. *)
Theorem createDirAndNodesTree_files (g : Graph) (forest : list Tree.t) :
  createDirAndNodesTree g = Some forest ->
  Permutation (flat_map Tree.nodes (treeNodes forest))
    (filter hasDirectory (nodes g))
  /\ forall n, hasDirectory n = false ->
       ~ In n (flat_map Tree.nodes (treeNodes forest)).
Proof.
  intros Hf. pose proof (forest_files_permutation g forest Hf) as HP.
  split; [exact HP|].
  intros n Hn Hin.
  apply (Permutation_in _ HP) in Hin. apply filter_In in Hin as [_ Hin].
  congruence.
Qed.

Lemma createDirAndNodesTree_files_witness :
  let x := mkNode "a/b/x" "x" None None in
  let top := mkNode "index.ts" "index" None None in
  let y := mkNode "a/y" "y" None None in
  let g := mkGraph [x; top; y; x] [] in
  exists forest,
    createDirAndNodesTree g = Some forest
    /\ flat_map Tree.nodes (treeNodes forest) = [y; x; x]
    /\ Permutation (flat_map Tree.nodes (treeNodes forest))
         (filter hasDirectory (nodes g)).
Proof.
  cbv zeta. eexists. split; [reflexivity|]. split; [reflexivity|].
  apply (createDirAndNodesTree_files
           (mkGraph [mkNode "a/b/x" "x" None None;
                     mkNode "index.ts" "index" None None;
                     mkNode "a/y" "y" None None;
                     mkNode "a/b/x" "x" None None] [])).
  reflexivity.
Defined.

(* ================================================================== *)
(** * More on the serializer *)

Section Writers.

(** Induction on trees, with the hypothesis for every child. *)
Lemma Tree_forall_ind (P : Tree.t -> Prop) :
  (forall c ns ch, Forall P ch -> P (Tree.mk c ns ch)) -> forall t, P t.
Proof.
  intros H. fix IH 1. intros [c ns ch]. apply H.
  induction ch as [|t ch IHch]; constructor; [apply IH | exact IHch].
Qed.

Lemma fold_left_appends {A} (f : Sink -> A -> Sink) (w : A -> list string)
  (l : list A) (out : Sink) :
  (forall x, In x l -> forall o, f o x = o ++ w x) ->
  fold_left f l out = out ++ flat_map w l.
Proof.
  revert out. induction l as [|x l IH]; intros out H; simpl.
  - now rewrite app_nil_r.
  - rewrite (H x (or_introl eq_refl)), IH by (intros y Hy; apply H; now right).
    now rewrite <- app_assoc.
Qed.

Lemma flat_map_flat_map {A B C} (f : A -> list B) (h : B -> list C)
  (l : list A) :
  flat_map h (flat_map f l) = flat_map (fun x => flat_map h (f x)) l.
Proof.
  induction l as [|x l IH]; [reflexivity|]. simpl.
  now rewrite flat_map_app, IH.
Qed.

Lemma flat_map_over_trees {B C} (f : Tree.t -> list B) (h : B -> list C)
  (ch : list Tree.t) :
  flat_map h (flat_map f (flat_map treeNodes1 ch))
  = flat_map (fun c => flat_map h (flat_map f (treeNodes1 c))) ch.
Proof.
  induction ch as [|c ch IH]; [reflexivity|]. simpl.
  now rewrite !flat_map_app, IH.
Qed.

Lemma treeNodes1_eq (c : string) (ns : list Node) (ch : list Tree.t) :
  treeNodes1 (Tree.mk c ns ch) = Tree.mk c ns ch :: treeNodes ch.
Proof. reflexivity. Qed.

(** [addLink] appends the click lines of the files of the tree, tree node by
    tree node. *)
Lemma addLink_appends (rootDir : string) (t : Tree.t) :
  forall out,
    addLink t rootDir out
    = out ++ flat_map (linkWrites rootDir) (flat_map Tree.nodes (treeNodes1 t)).
Proof.
  induction t as [c ns ch IH] using Tree_forall_ind. intros out.
  cbn [addLink]. rewrite Forall_forall in IH.
  rewrite (fold_left_appends _
             (fun child => flat_map (linkWrites rootDir)
                             (flat_map Tree.nodes (treeNodes1 child))))
    by (intros x Hx o; now apply IH).
  rewrite (fold_left_appends _ (linkWrites rootDir))
    by (intros x _ o; unfold write, linkWrites; now rewrite <- app_assoc).
  rewrite treeNodes1_eq. cbn [flat_map Tree.nodes].
  rewrite flat_map_app, <- app_assoc. f_equal. f_equal.
  unfold treeNodes. now rewrite flat_map_over_trees.
Qed.

Lemma writeFileLink_appends (forest : list Tree.t) (rootDir : string)
  (out : Sink) :
  writeFileLink forest rootDir out
  = out ++ flat_map (linkWrites rootDir)
             (flat_map Tree.nodes (treeNodes forest)).
Proof.
  unfold writeFileLink.
  rewrite (fold_left_appends _
             (fun t => flat_map (linkWrites rootDir)
                         (flat_map Tree.nodes (treeNodes1 t))))
    by (intros x _ o; apply addLink_appends).
  unfold treeNodes. now rewrite flat_map_over_trees.
Qed.

(** [addGraph] appends, whatever the sink holds. *)
Lemma addGraph_appends (t : Tree.t) :
  forall indentNumber parent out,
    addGraph t indentNumber parent out
    = out ++ addGraph t indentNumber parent [].
Proof.
  induction t as [c ns ch IH] using Tree_forall_ind.
  intros k parent out. cbn [addGraph]. rewrite Forall_forall in IH.
  set (sub := subgraphLine (indentOf k) c parent).
  rewrite !(fold_left_appends _
              (fun child => addGraph child (S k) (Some c) []))
    by (intros x Hx o; now apply IH).
  rewrite !(fold_left_appends _ (fun node => [nodeLine (indentOf k) node; nl]))
    by (intros x _ o; unfold write; now rewrite <- app_assoc).
  unfold write. now rewrite <- !app_assoc.
Qed.

(** What [addGraph] writes for a tree: the opening of the group, the lines of
    its files, the groups of its children one level deeper, the closing. *)
Lemma addGraph_render (c : string) (ns : list Node) (ch : list Tree.t)
  (k : nat) (parent : option string) :
  addGraph (Tree.mk c ns ch) k parent []
  = [subgraphLine (indentOf k) c parent; nl]
    ++ flat_map (fun node => [nodeLine (indentOf k) node; nl]) ns
    ++ flat_map (fun child => addGraph child (S k) (Some c) []) ch
    ++ [(indentOf k ++ "end")%string; nl].
Proof.
  cbn [addGraph].
  rewrite (fold_left_appends _ (fun child => addGraph child (S k) (Some c) []))
    by (intros x _ o; apply addGraph_appends).
  rewrite (fold_left_appends _ (fun node => [nodeLine (indentOf k) node; nl]))
    by (intros x _ o; unfold write; now rewrite <- app_assoc).
  unfold write. simpl. now rewrite <- !app_assoc.
Qed.

Lemma writeFileNodesWithSubgraph_appends (forest : list Tree.t) (out : Sink) :
  writeFileNodesWithSubgraph forest out
  = out ++ writeFileNodesWithSubgraph forest [].
Proof.
  unfold writeFileNodesWithSubgraph.
  rewrite !(fold_left_appends _ (fun t => addGraph t 0 None []))
    by (intros x _ o; apply addGraph_appends).
  reflexivity.
Qed.

Lemma writeHeader_appends (options : Options.t) (out : Sink) :
  writeHeader options out = out ++ headerLines options.
Proof.
  unfold writeHeader, headerLines, write.
  destruct (truthy (Options.LR options)), (truthy (Options.TB options)),
    (truthy (Options.abstraction options)),
    (truthy (Options.highlight options));
    now rewrite <- ?app_assoc, ?app_nil_r.
Qed.

End Writers.

Section GroupLines.

Lemma length_flat_map_pairs {A} (w : A -> string) (l : list A) :
  List.length (flat_map (fun x => [w x; nl]) l) = 2 * List.length l.
Proof. induction l as [|x l IH]; simpl in *; lia. Qed.

(** The count of what [addGraph] writes, and that the lines of the files and
    the openings of the groups are among it. *)
Lemma addGraph_lines (t : Tree.t) :
  forall k parent,
    List.length (addGraph t k parent [])
    = 4 * List.length (treeNodes1 t)
      + 2 * List.length (flat_map Tree.nodes (treeNodes1 t))
    /\ (forall n, In n (flat_map Tree.nodes (treeNodes1 t)) ->
          exists j, In (nodeLine (indentOf j) n) (addGraph t k parent []))
    /\ (forall u, In u (treeNodes1 t) ->
          exists j q,
            In (subgraphLine (indentOf j) (Tree.currentDir u) q)
              (addGraph t k parent [])
            /\ In (indentOf j ++ "end")%string (addGraph t k parent [])).
Proof.
  induction t as [c ns ch IH] using Tree_forall_ind. intros k parent.
  rewrite addGraph_render, treeNodes1_eq. cbn [flat_map Tree.nodes].
  rewrite Forall_forall in IH.
  split; [|split].
  - rewrite !length_app, length_flat_map_pairs. cbn [List.length].
    assert (E : List.length
                  (flat_map (fun child => addGraph child (S k) (Some c) []) ch)
                = 4 * List.length (treeNodes ch)
                  + 2 * List.length (flat_map Tree.nodes (treeNodes ch))).
    { clear parent. induction ch as [|x ch IHch]; [reflexivity|].
      unfold treeNodes in *. cbn [flat_map].
      rewrite !flat_map_app, !length_app.
      rewrite (proj1 (IH x (or_introl eq_refl) (S k) (Some c))).
      rewrite IHch by (intros y Hy; apply IH; now right). lia. }
    rewrite E. lia.
  - intros n Hn. apply in_app_iff in Hn as [Hn|Hn].
    + exists k. apply in_app_iff. right. apply in_app_iff. left.
      apply in_flat_map. exists n. split; [assumption | now left].
    + unfold treeNodes in Hn. rewrite flat_map_flat_map in Hn.
      apply in_flat_map in Hn as [x [Hx Hn]].
      destruct (proj1 (proj2 (IH x Hx (S k) (Some c))) n Hn) as [j Hj].
      exists j. apply in_app_iff. right. apply in_app_iff. right.
      apply in_app_iff. left. apply in_flat_map. now exists x.
  - intros u [<-|Hu].
    + exists k, parent. split.
      * now left.
      * apply in_app_iff. right. apply in_app_iff. right.
        apply in_app_iff. right. now left.
    + unfold treeNodes in Hu. apply in_flat_map in Hu as [x [Hx Hu]].
      destruct (proj2 (proj2 (IH x Hx (S k) (Some c))) u Hu) as [j [q [H1 H2]]].
      exists j, q. split; apply in_app_iff; right; apply in_app_iff; right;
        apply in_app_iff; left; apply in_flat_map; now exists x.
Qed.

End GroupLines.

(** X18.  The serializer only appends to the sink, and in a fixed order: the
    direction line (left-to-right before top-to-bottom before none), the
    class of directory placeholders, the class of highlighted nodes, the
    groups of the forest, the arrows, and, if links are asked for, the click
    lines of the files of the forest, tree node by tree node. *)
Theorem mermaidify_sections (g : Graph) (options : Options.t) (out : Sink) :
  exists forest,
    createDirAndNodesTree g = Some forest
    /\ mermaidify g options out
       = Some (out ++ headerLines options
                 ++ writeFileNodesWithSubgraph forest []
                 ++ List.concat (map arrowWrites (relations g))
                 ++ (if truthy (Options.mermaidLink options)
                     then flat_map (linkWrites (Options.rootDir options))
                            (flat_map Tree.nodes (treeNodes forest))
                     else [])).
Proof.
  destruct (createDirAndNodesTree_total g) as [forest Hf].
  exists forest. split; [assumption|].
  unfold mermaidify. rewrite Hf.
  rewrite writeRelations_appends, writeFileNodesWithSubgraph_appends,
    writeHeader_appends.
  destruct (truthy (Options.mermaidLink options)).
  - rewrite writeFileLink_appends. now rewrite <- !app_assoc.
  - now rewrite app_nil_r, <- !app_assoc.
Qed.

(** X19.  For every tree node the group section holds an opening line and a
    closing line of the same indentation, for every file of a tree node its
    line, and besides these lines and the line breaks after them nothing:
    four strings per tree node and two per file. *)
Theorem writeFileNodesWithSubgraph_lines (forest : list Tree.t) :
  List.length (writeFileNodesWithSubgraph forest [])
  = 4 * List.length (treeNodes forest)
    + 2 * List.length (flat_map Tree.nodes (treeNodes forest))
  /\ (forall n, In n (flat_map Tree.nodes (treeNodes forest)) ->
        exists j,
          In (nodeLine (indentOf j) n) (writeFileNodesWithSubgraph forest []))
  /\ (forall u, In u (treeNodes forest) ->
        exists j q,
          In (subgraphLine (indentOf j) (Tree.currentDir u) q)
            (writeFileNodesWithSubgraph forest [])
          /\ In (indentOf j ++ "end")%string
               (writeFileNodesWithSubgraph forest [])).
Proof.
  unfold writeFileNodesWithSubgraph.
  rewrite (fold_left_appends _ (fun t => addGraph t 0 None []))
    by (intros x _ o; apply addGraph_appends).
  cbn [app]. split; [|split].
  - induction forest as [|t forest IH]; [reflexivity|].
    unfold treeNodes in *. cbn [flat_map].
    rewrite !flat_map_app, !length_app, IH.
    rewrite (proj1 (addGraph_lines t 0 None)). lia.
  - intros n Hn. unfold treeNodes in Hn. rewrite flat_map_flat_map in Hn.
    apply in_flat_map in Hn as [t [Ht Hn]].
    destruct (proj1 (proj2 (addGraph_lines t 0 None)) n Hn) as [j Hj].
    exists j. apply in_flat_map. now exists t.
  - intros u Hu. unfold treeNodes in Hu. apply in_flat_map in Hu as [t [Ht Hu]].
    destruct (proj2 (proj2 (addGraph_lines t 0 None)) u Hu) as [j [q [H1 H2]]].
    exists j, q. split; apply in_flat_map; now exists t.
Qed.

Lemma writeFileNodesWithSubgraph_lines_witness :
  let x := mkNode "a/x" "x" None None in
  let forest := [Tree.mk "a" [x] []] in
  exists j,
    In (nodeLine (indentOf j) x) (writeFileNodesWithSubgraph forest []).
Proof.
  cbv zeta.
  apply (proj1 (proj2 (writeFileNodesWithSubgraph_lines
                         [Tree.mk "a" [mkNode "a/x" "x" None None] []]))).
  simpl. auto.
Defined.

Section ClickLines.

Lemma lastChar_cons (c : ascii) (s : string) :
  lastChar (String c s)
  = match lastChar s with
    | Some x => Some x
    | None => Some c
    end.
Proof.
  revert c. induction s as [|d s IH]; intros c; [reflexivity|].
  change (lastChar (String c (String d s))) with (lastChar (String d s)).
  rewrite (IH d). now destruct (lastChar s).
Qed.

Lemma lastChar_app (a b : string) :
  lastChar (a ++ b)
  = match lastChar b with
    | Some c => Some c
    | None => lastChar a
    end.
Proof.
  induction a as [|c a IH].
  - simpl. now destruct (lastChar b).
  - change ((String c a ++ b)%string) with (String c (a ++ b)).
    rewrite !lastChar_cons, IH.
    now destruct (lastChar b), (lastChar a).
Qed.

Lemma endsWith_app_r (suffix a b : string) :
  endsWith suffix b = true -> endsWith suffix (a ++ b) = true.
Proof.
  intros H. induction a as [|c a IH]; [exact H|].
  change ((String c a ++ b)%string) with (String c (a ++ b)).
  cbn [endsWith]. rewrite IH. apply orb_true_r.
Qed.

Lemma endsWith_lastChar (suffix s : string) :
  suffix <> EmptyString -> endsWith suffix s = true ->
  lastChar s = lastChar suffix.
Proof.
  intros Hne. induction s as [|c s IH]; intros H.
  - cbn [endsWith] in H. rewrite orb_false_r in H.
    apply String.eqb_eq in H. congruence.
  - cbn [endsWith] in H. apply orb_true_iff in H as [H|H].
    + apply String.eqb_eq in H. now rewrite H.
    + specialize (IH H). rewrite <- IH.
      destruct s as [|d s]; [|reflexivity].
      cbn [endsWith] in H. rewrite orb_false_r in H.
      apply String.eqb_eq in H. congruence.
Qed.

(** A string without double quote, or whose last character is not that of
    [_blank], has not the shape of a click line. *)
Lemma isClickLine_quote (s : string) :
  hasChar (ascii_of_nat 34) s = false -> isClickLine s = false.
Proof.
  intros H. unfold isClickLine. now rewrite H, andb_false_r.
Qed.

Lemma isClickLine_last (s : string) (c : ascii) :
  lastChar s = Some c -> c <> "k"%char -> isClickLine s = false.
Proof.
  intros H Hc. unfold isClickLine.
  destruct (endsWith " _blank" s) eqn:E; [|apply andb_false_r].
  apply endsWith_lastChar in E; [|discriminate].
  rewrite H in E. simpl in E. congruence.
Qed.

Lemma fileNameToMermaidId_quote (fileName : string) :
  hasChar (ascii_of_nat 34) (fileNameToMermaidId fileName) = false.
Proof.
  unfold fileNameToMermaidId.
  repeat (apply replaceAll_free; [reflexivity|]).
  apply hasChar_join; [reflexivity|]. now apply splitId_free.
Qed.

Lemma isClickLine_linkLine (rootDir : string) (n : Node) :
  isClickLine (linkLine rootDir n) = true.
Proof.
  unfold isClickLine. repeat (apply andb_true_iff; split).
  - unfold linkLine, indent. cbn [append String.prefix].
    now destruct (append _ _).
  - unfold linkLine. rewrite !hasChar_app.
    change (hasChar (ascii_of_nat 34) dquote) with true.
    now rewrite !orb_true_r.
  - unfold linkLine. do 8 apply endsWith_app_r. reflexivity.
Qed.

Lemma isClickLine_arrowLine (r : Relation) : isClickLine (arrowLine r) = false.
Proof.
  apply isClickLine_quote. unfold arrowLine.
  now rewrite !hasChar_app, !fileNameToMermaidId_quote.
Qed.

Lemma isClickLine_subgraphLine (i c : string) (parent : option string) :
  isClickLine (subgraphLine i c parent) = false.
Proof.
  apply (isClickLine_last _ "]"%char); [|discriminate].
  unfold subgraphLine. now rewrite !lastChar_app.
Qed.

Lemma isClickLine_nodeLine (i : string) (n : Node) :
  isClickLine (nodeLine i n) = false.
Proof.
  unfold nodeLine.
  destruct (truthy (highlight n)); [|destruct (truthy (isDirectory n))].
  - apply (isClickLine_last _ "t"%char); [|discriminate].
    now rewrite !lastChar_app.
  - apply (isClickLine_last _ "r"%char); [|discriminate].
    now rewrite !lastChar_app.
  - apply (isClickLine_last _ "]"%char); [|discriminate].
    now rewrite !lastChar_app.
Qed.

Lemma isClickLine_end (i : string) : isClickLine (i ++ "end") = false.
Proof.
  apply (isClickLine_last _ "d"%char); [|discriminate].
  now rewrite lastChar_app.
Qed.

Lemma isClickLine_header (options : Options.t) (s : string) :
  In s (headerLines options) -> isClickLine s = false.
Proof.
  unfold headerLines.
  destruct (truthy (Options.LR options)), (truthy (Options.TB options)),
    (truthy (Options.abstraction options)),
    (truthy (Options.highlight options));
    simpl; intros H; repeat (destruct H as [<-|H]; [reflexivity|]);
    contradiction.
Qed.

Lemma isClickLine_addGraph (t : Tree.t) :
  forall k parent s,
    In s (addGraph t k parent []) -> isClickLine s = false.
Proof.
  induction t as [c ns ch IH] using Tree_forall_ind.
  intros k parent s. rewrite addGraph_render. rewrite Forall_forall in IH.
  intros H. apply in_app_iff in H as [H|H].
  { destruct H as [<-|[<-|[]]];
      [apply isClickLine_subgraphLine | reflexivity]. }
  apply in_app_iff in H as [H|H].
  { apply in_flat_map in H as [n [_ [<-|[<-|[]]]]];
      [apply isClickLine_nodeLine | reflexivity]. }
  apply in_app_iff in H as [H|H].
  { apply in_flat_map in H as [x [Hx H]]. now apply (IH x Hx (S k) (Some c)). }
  destruct H as [<-|[<-|[]]]; [apply isClickLine_end | reflexivity].
Qed.

Lemma filter_none {A} (f : A -> bool) (l : list A) :
  (forall x, In x l -> f x = false) -> filter f l = [].
Proof.
  induction l as [|x l IH]; intros H; [reflexivity|].
  simpl. rewrite (H x (or_introl eq_refl)). apply IH.
  intros y Hy. apply H. now right.
Qed.

(** Nothing written before the links has the shape of a click line. *)
Lemma body_no_click (options : Options.t) (forest : list Tree.t)
  (rs : list Relation) :
  filter isClickLine
    (headerLines options ++ writeFileNodesWithSubgraph forest []
       ++ List.concat (map arrowWrites rs)) = [].
Proof.
  apply filter_none. intros s H.
  apply in_app_iff in H as [H|H]; [now apply (isClickLine_header options)|].
  apply in_app_iff in H as [H|H].
  - unfold writeFileNodesWithSubgraph in H.
    rewrite (fold_left_appends _ (fun t => addGraph t 0 None [])) in H
      by (intros x _ o; apply addGraph_appends).
    cbn [app] in H. apply in_flat_map in H as [t [_ H]].
    now apply (isClickLine_addGraph t 0 None).
  - apply in_concat in H as [l [Hl H]].
    apply in_map_iff in Hl as [r [<- _]].
    destruct H as [<-|[<-|[]]]; [apply isClickLine_arrowLine | reflexivity].
Qed.

Lemma links_all_click (rootDir : string) (files : list Node) :
  filter isClickLine (flat_map (linkWrites rootDir) files)
  = map (linkLine rootDir) files.
Proof.
  induction files as [|n files IH]; [reflexivity|].
  cbn [flat_map map]. unfold linkWrites at 1.
  cbn [app filter]. rewrite isClickLine_linkLine.
  change (isClickLine nl) with false. now rewrite IH.
Qed.

End ClickLines.

(** X20.  With links asked for, the output is the sink, then the header, the
    groups and the arrows, then a click line and a line break for every file
    of the forest, tree node by tree node.  These files are, up to order, the
    nodes of the graph that have a directory, each as often as the graph
    lists it; and nothing written before them has the shape of a click line,
    so that the click lines of the output are those of these files and a
    node without directory gets none. *)
Theorem mermaidify_links (g : Graph) (options : Options.t) (out : Sink) :
  truthy (Options.mermaidLink options) = true ->
  exists forest body files,
    createDirAndNodesTree g = Some forest
    /\ body = headerLines options ++ writeFileNodesWithSubgraph forest []
                ++ List.concat (map arrowWrites (relations g))
    /\ files = flat_map Tree.nodes (treeNodes forest)
    /\ mermaidify g options out
       = Some (out ++ body
                 ++ flat_map (linkWrites (Options.rootDir options)) files)
    /\ Permutation files (filter hasDirectory (nodes g))
    /\ filter isClickLine body = []
    /\ filter isClickLine
         (body ++ flat_map (linkWrites (Options.rootDir options)) files)
       = map (linkLine (Options.rootDir options)) files.
Proof.
  intros Hl. destruct (createDirAndNodesTree_total g) as [forest Hf].
  exists forest. eexists. eexists.
  split; [exact Hf|]. split; [reflexivity|]. split; [reflexivity|].
  split; [|split; [|split]].
  - unfold mermaidify. rewrite Hf, Hl.
    rewrite writeFileLink_appends, writeRelations_appends,
      writeFileNodesWithSubgraph_appends, writeHeader_appends.
    now rewrite <- !app_assoc.
  - now apply forest_files_permutation.
  - apply body_no_click.
  - now rewrite filter_app, body_no_click, links_all_click.
Qed.

Lemma mermaidify_links_witness :
  let x := mkNode "a/x" "x" None None in
  let top := mkNode "index.ts" "index" None None in
  let g := mkGraph [top; x] [mkRelation top x "import"] in
  let options := Options.mk None None None None (Some true) "/repo" in
  exists forest body files,
    createDirAndNodesTree g = Some forest
    /\ body = headerLines options ++ writeFileNodesWithSubgraph forest []
                ++ List.concat (map arrowWrites (relations g))
    /\ files = flat_map Tree.nodes (treeNodes forest)
    /\ mermaidify g options []
       = Some ([] ++ body ++ flat_map (linkWrites "/repo") files)
    /\ Permutation files [x]
    /\ filter isClickLine body = []
    /\ filter isClickLine (body ++ flat_map (linkWrites "/repo") files)
       = map (linkLine "/repo") files.
Proof.
  cbv zeta.
  apply (mermaidify_links
           (mkGraph [mkNode "index.ts" "index" None None;
                     mkNode "a/x" "x" None None]
              [mkRelation (mkNode "index.ts" "index" None None)
                 (mkNode "a/x" "x" None None) "import"])
           (Options.mk None None None None (Some true) "/repo") []).
  reflexivity.
Defined.

(* ================================================================== *)
(** * Filtering twice *)

Section UniqueMore.

Context {A : Type}.
Variable same : A -> A -> bool.
Hypothesis same_refl : forall x, same x x = true.
Hypothesis same_trans :
  forall x y z, same x y = true -> same y z = true -> same x z = true.

(** The accumulator stays in front; what follows is new to it. *)
Lemma uniqueFrom_prefix (l acc : list A) :
  exists X,
    uniqueFrom same l acc = acc ++ X
    /\ forall x, In x X -> In x l /\ existsb (fun y => same y x) acc = false.
Proof.
  revert acc. induction l as [|y l IH]; intros acc.
  - exists []. split; [now rewrite app_nil_r | intros x []].
  - rewrite uniqueFrom_cons.
    destruct (existsb (fun z => same z y) acc) eqn:E.
    + destruct (IH acc) as [X [HX HP]]. exists X. split; [assumption|].
      intros x Hx. destruct (HP x Hx). split; [now right | assumption].
    + destruct (IH (acc ++ [y])) as [X [HX HP]]. exists (y :: X). split.
      * rewrite HX. now rewrite <- app_assoc.
      * intros x [<-|Hx]; [split; [now left | assumption]|].
        destruct (HP x Hx) as [H1 H2]. split; [now right|].
        rewrite existsb_app in H2. now apply orb_false_iff in H2.
Qed.

(** A test that does not tell equal elements apart finds the same in the
    deduplicated list. *)
Lemma uniqueFrom_existsb_resp (q : A -> bool) (l acc : list A) :
  (forall x y, same x y = true -> q x = q y) ->
  existsb q (uniqueFrom same l acc) = existsb q acc || existsb q l.
Proof.
  intros Hq. revert acc. induction l as [|x l IH]; intros acc.
  - simpl. now rewrite orb_false_r.
  - rewrite uniqueFrom_cons, IH. simpl.
    destruct (existsb (fun z => same z x) acc) eqn:E.
    + destruct (q x) eqn:Eqx; [|reflexivity].
      rewrite orb_true_l.
      assert (Hu : existsb q acc = true).
      { apply existsb_exists in E as [y [Hy Hyx]].
        apply existsb_exists. exists y. split; [assumption|].
        now rewrite (Hq y x Hyx). }
      now rewrite Hu.
    + rewrite existsb_app. simpl. now rewrite orb_false_r, orb_assoc.
Qed.

(** Deduplicating again a selection of a list without repetition. *)
Lemma uniqueFrom_refilter (p : A -> bool) (acc X : list A) :
  distinctBy same (acc ++ X) = true ->
  (forall x, In x X -> p x = true) ->
  uniqueFrom same (filter p (acc ++ X)) acc = acc ++ X.
Proof.
  intros Hd Hp. rewrite filter_app, uniqueFrom_app.
  rewrite (uniqueFrom_absorb same (filter p acc) acc).
  - rewrite (forallb_filter_id p X) by (now apply forallb_forall).
    now apply uniqueFrom_distinct.
  - intros x Hx. apply filter_In in Hx as [Hx _].
    now apply existsb_self.
Qed.

End UniqueMore.

Section Idempotent.

Lemma keepsNode_same (include exclude : option (list string)) (a b : Node) :
  isSameNode a b = true ->
  keepsNode include exclude a = keepsNode include exclude b.
Proof.
  intros H. apply isSameNode_path in H. unfold keepsNode, nodeHits.
  now rewrite H.
Qed.

Lemma referenced_existsb (K : list Relation) (u : Node) :
  referenced K u
  = existsb (fun r => isSameNode (from r) u || isSameNode (to r) u) K.
Proof.
  unfold referenced, endpoints.
  induction K as [|r K IH]; [reflexivity|].
  cbn [map List.concat existsb app]. rewrite <- IH.
  simpl. now rewrite orb_assoc.
Qed.

Lemma referenced_unique (K : list Relation) (u : Node) :
  referenced (getUniqueRelations K) u = referenced K u.
Proof.
  rewrite !referenced_existsb, getUniqueRelations_uniqueFrom.
  rewrite (uniqueFrom_existsb_resp isSameRelation); [reflexivity|].
  intros x y H. unfold isSameRelation in H.
  apply andb_true_iff in H as [H1 H2].
  apply isSameNode_path in H1, H2. unfold isSameNode. now rewrite H1, H2.
Qed.

Lemma differsFromSome_unique (N : list Node) (u : Node) :
  differsFromSome (getUniqueNodes N) u = differsFromSome N u.
Proof.
  unfold differsFromSome. rewrite getUniqueNodes_uniqueFrom.
  rewrite (uniqueFrom_existsb_resp isSameNode); [reflexivity|].
  intros x y H. apply isSameNode_path in H. unfold isSameNode. now rewrite H.
Qed.

Lemma readmit_unique (N : list Node) (K : list Relation) (r : Relation) :
  readmit (getUniqueNodes N) (getUniqueRelations K) r = readmit N K r.
Proof.
  rewrite !readmit_unfold.
  now rewrite !differsFromSome_unique, !referenced_unique.
Qed.

Variables include exclude : option (list string).
Variable g : Graph.
Hypothesis closed : endpointsClosed g = true.

(** The relations that pass both passes, out of what the filter returned,
    are the deduplicated retained relations. *)
Lemma keptRelations_again :
  keptRelations include exclude (filterGraph include exclude g)
  = getUniqueRelations (keptRelations include exclude g).
Proof.
  rewrite keptRelations_filter, filterGraph_relations.
  rewrite !getUniqueRelations_uniqueFrom, uniqueFrom_app.
  set (A := uniqueFrom isSameRelation (keptRelations include exclude g) []).
  destruct (uniqueFrom_prefix isSameRelation
              (filter (readmit (keptNodes include exclude g)
                         (keptRelations include exclude g)) (relations g)) A)
    as [X [-> HX]].
  rewrite filter_app.
  rewrite (forallb_filter_id _ A).
  - rewrite (count_zero _ X); [now rewrite app_nil_r|].
    intros x Hx. destruct (HX x Hx) as [Hin Hnew].
    apply filter_In in Hin as [Hin _].
    destruct (keepsRelation include exclude x) eqn:E; [|reflexivity].
    exfalso. unfold A in Hnew.
    rewrite (uniqueFrom_existsb isSameRelation isSameRelation_trans) in Hnew.
    simpl in Hnew.
    rewrite existsb_self in Hnew; [discriminate | apply isSameRelation_refl|].
    rewrite keptRelations_filter. apply filter_In. now split.
  - apply forallb_forall. intros x Hx. unfold A in Hx.
    apply uniqueFrom_In in Hx as [[]|Hx].
    rewrite keptRelations_filter in Hx. now apply filter_In in Hx.
Qed.

Lemma keptNodes_again :
  keptNodes include exclude (filterGraph include exclude g)
  = getUniqueNodes (keptNodes include exclude g).
Proof.
  rewrite keptNodes_filter, filterGraph_nodes.
  rewrite !getUniqueNodes_uniqueFrom, uniqueFrom_app.
  set (B := uniqueFrom isSameNode (keptNodes include exclude g) []).
  destruct (uniqueFrom_prefix isSameNode
              (endpoints (relations (filterGraph include exclude g))) B)
    as [Y [-> HY]].
  rewrite filter_app.
  rewrite (forallb_filter_id _ B).
  - rewrite (count_zero _ Y); [now rewrite app_nil_r|].
    intros y Hy. destruct (HY y Hy) as [Hin Hnew].
    destruct (keepsNode include exclude y) eqn:E; [|reflexivity].
    exfalso.
    assert (Hend : In y (endpoints (relations g))).
    { apply In_endpoints in Hin as [r [Hr Hyr]]. apply In_endpoints.
      exists r. split; [|assumption].
      now apply filterGraph_relation_cases in Hr. }
    unfold endpointsClosed in closed. rewrite forallb_forall in closed.
    specialize (closed y Hend).
    apply existsb_exists in closed as [n [Hn Hny]].
    unfold B in Hnew.
    rewrite (uniqueFrom_existsb isSameNode isSameNode_trans) in Hnew.
    simpl in Hnew.
    assert (Ht : existsb (fun x => isSameNode x y)
                   (keptNodes include exclude g) = true).
    { apply existsb_exists. exists n. split; [|assumption].
      rewrite keptNodes_filter. apply filter_In. split; [assumption|].
      now rewrite (keepsNode_same include exclude n y Hny). }
    congruence.
  - apply forallb_forall. intros x Hx. unfold B in Hx.
    apply uniqueFrom_In in Hx as [[]|Hx].
    rewrite keptNodes_filter in Hx. now apply filter_In in Hx.
Qed.

Lemma filterGraph_relations_again :
  relations (filterGraph include exclude (filterGraph include exclude g))
  = relations (filterGraph include exclude g).
Proof.
  rewrite (filterGraph_relations include exclude
             (filterGraph include exclude g)).
  rewrite keptRelations_again, keptNodes_again.
  rewrite (filter_ext _ _ (readmit_unique _ _)).
  rewrite getUniqueRelations_uniqueFrom, uniqueFrom_app.
  rewrite (uniqueFrom_distinct isSameRelation
             (getUniqueRelations (keptRelations include exclude g)) [])
    by (rewrite app_nil_l, getUniqueRelations_uniqueFrom;
        now apply uniqueFrom_is_distinct).
  rewrite app_nil_l.
  assert (Hd : distinctBy isSameRelation
                 (relations (filterGraph include exclude g)) = true).
  { rewrite filterGraph_relations, getUniqueRelations_uniqueFrom.
    now apply uniqueFrom_is_distinct. }
  revert Hd. rewrite (filterGraph_relations include exclude g) at 1 2 3.
  rewrite !getUniqueRelations_uniqueFrom, uniqueFrom_app.
  set (A := uniqueFrom isSameRelation (keptRelations include exclude g) []).
  destruct (uniqueFrom_prefix isSameRelation
              (filter (readmit (keptNodes include exclude g)
                         (keptRelations include exclude g)) (relations g)) A)
    as [X [-> HX]].
  intros Hd. apply uniqueFrom_refilter.
  - apply isSameRelation_refl.
  - assumption.
  - intros x Hx. destruct (HX x Hx) as [Hin _]. now apply filter_In in Hin.
Qed.

Lemma filterGraph_nodes_again :
  nodes (filterGraph include exclude (filterGraph include exclude g))
  = nodes (filterGraph include exclude g).
Proof.
  rewrite (filterGraph_nodes include exclude (filterGraph include exclude g)).
  rewrite filterGraph_relations_again, keptNodes_again.
  rewrite (filterGraph_nodes include exclude g).
  rewrite !getUniqueNodes_uniqueFrom, !uniqueFrom_app.
  f_equal.
  rewrite (uniqueFrom_distinct isSameNode
             (uniqueFrom isSameNode (keptNodes include exclude g) []) []);
    [reflexivity|].
  rewrite app_nil_l. now apply uniqueFrom_is_distinct.
Qed.

End Idempotent.

(** X10.  For a graph whose relation endpoints are all among its nodes,
    filtering with the same lists a second time changes nothing. *)
Theorem filterGraph_idempotent (include exclude : option (list string))
  (g : Graph) :
  endpointsClosed g = true ->
  filterGraph include exclude (filterGraph include exclude g)
  = filterGraph include exclude g.
Proof.
  intros Hc.
  pose proof (filterGraph_nodes_again include exclude g Hc) as HN.
  pose proof (filterGraph_relations_again include exclude g Hc) as HR.
  destruct (filterGraph include exclude (filterGraph include exclude g))
    as [N2 R2].
  destruct (filterGraph include exclude g) as [N1 R1].
  simpl in HN, HR. now subst.
Qed.

Lemma filterGraph_idempotent_witness :
  let x := mkNode "lib/x" "x" None None in
  let p := mkNode "src/p" "p" None None in
  let q := mkNode "src/q" "q" None None in
  let g := mkGraph [x; p; q]
             [mkRelation x p "import"; mkRelation x q "import";
              mkRelation p q "import"] in
  endpointsClosed g = true
  /\ filterGraph (Some ["lib"]) None (filterGraph (Some ["lib"]) None g)
     = filterGraph (Some ["lib"]) None g.
Proof.
  cbv zeta. split; [reflexivity|].
  apply filterGraph_idempotent. reflexivity.
Defined.

(* ================================================================== *)
(** * The earlier serializer *)

Section Earlier.

Lemma addGraph_v0_appends (t : Tree.t) :
  forall out, addGraph_v0 t out = out ++ addGraph_v0 t [].
Proof.
  induction t as [c ns ch IH] using Tree_forall_ind.
  intros out. cbn [addGraph_v0]. rewrite Forall_forall in IH.
  rewrite !(fold_left_appends _ (fun child => addGraph_v0 child []))
    by (intros x Hx o; now apply IH).
  rewrite !(fold_left_appends _
              (fun node =>
                 [(indent ++ indent ++ fileNameToMermaidId_v0 (path node)
                     ++ "[" ++ dquote ++ name node ++ dquote ++ "]")%string;
                  nl]))
    by (intros x _ o; unfold write; now rewrite <- app_assoc).
  unfold write. now rewrite <- !app_assoc.
Qed.

Lemma addGraph_v0_length (t : Tree.t) :
  List.length (addGraph_v0 t [])
  = 4 * List.length (treeNodes1 t)
    + 2 * List.length (flat_map Tree.nodes (treeNodes1 t)).
Proof.
  induction t as [c ns ch IH] using Tree_forall_ind.
  cbn [addGraph_v0]. rewrite Forall_forall in IH.
  rewrite (fold_left_appends _ (fun child => addGraph_v0 child []))
    by (intros x _ o; apply addGraph_v0_appends).
  rewrite (fold_left_appends _
             (fun node =>
                [(indent ++ indent ++ fileNameToMermaidId_v0 (path node)
                    ++ "[" ++ dquote ++ name node ++ dquote ++ "]")%string;
                 nl]))
    by (intros x _ o; unfold write; now rewrite <- app_assoc).
  unfold write. rewrite treeNodes1_eq. cbn [flat_map Tree.nodes].
  rewrite !length_app, length_flat_map_pairs. cbn [List.length].
  assert (E : List.length (flat_map (fun child => addGraph_v0 child []) ch)
              = 4 * List.length (treeNodes ch)
                + 2 * List.length (flat_map Tree.nodes (treeNodes ch))).
  { induction ch as [|x ch IHch]; [reflexivity|].
    unfold treeNodes in *. cbn [flat_map].
    rewrite !flat_map_app, !length_app.
    rewrite (IH x (or_introl eq_refl)).
    rewrite IHch by (intros y Hy; apply IH; now right). lia. }
  rewrite E. lia.
Qed.

End Earlier.

(** X21.  The earlier directory function gives the directory of the present
    one wherever that one gives a directory, and [.] wherever it gives none,
    which is for the paths of a single segment other than [node_modules].
    So the earlier one gives [.] exactly where the present one gives none or
    gives [.] itself, as both do for [/x] and [./x]. *)
Theorem getDirectoryPath_v0_present (filePath : string) :
  getDirectoryPath_v0 filePath
  = match getDirectoryPath filePath with
    | Some d => d
    | None => "."
    end
  /\ (getDirectoryPath filePath = None <->
      List.length (split_slash filePath) = 1
      /\ existsb (String.eqb "node_modules") (split_slash filePath) = false)
  /\ (getDirectoryPath_v0 filePath = "." <->
      getDirectoryPath filePath = None \/ getDirectoryPath filePath = Some ".")
  /\ (getDirectoryPath "/x" = Some "." /\ getDirectoryPath_v0 "/x" = "."
      /\ getDirectoryPath "./x" = Some "." /\ getDirectoryPath_v0 "./x" = ".").
Proof.
  assert (H0 : getDirectoryPath_v0 filePath
               = match getDirectoryPath filePath with
                 | Some d => d
                 | None => "."
                 end).
  { unfold getDirectoryPath_v0, getDirectoryPath.
    destruct (existsb (String.eqb "node_modules") (split_slash filePath));
      [reflexivity|].
    destruct (Nat.eqb (List.length (split_slash filePath)) 1) eqn:El;
      [|reflexivity].
    apply Nat.eqb_eq in El. rewrite El. reflexivity. }
  split; [exact H0|]. split; [|split].
  - unfold getDirectoryPath.
    destruct (existsb (String.eqb "node_modules") (split_slash filePath)).
    + split; [discriminate | intros [_ H]; discriminate].
    + destruct (Nat.eqb (List.length (split_slash filePath)) 1) eqn:El.
      * apply Nat.eqb_eq in El. split; auto.
      * apply Nat.eqb_neq in El.
        split; [discriminate | intros [H _]; contradiction].
  - rewrite H0. destruct (getDirectoryPath filePath) as [d|].
    + split; [intros ->; now right | intros [H|H]; congruence].
    + split; [now left | reflexivity].
  - repeat split; reflexivity.
Qed.

Lemma getDirectoryPath_v0_present_witness :
  getDirectoryPath "index.ts" = None
  /\ getDirectoryPath_v0 "index.ts" = ".".
Proof.
  pose proof (getDirectoryPath_v0_present "index.ts") as [H1 [H2 _]].
  split; [apply H2; split; reflexivity|].
  rewrite H1. reflexivity.
Defined.

(** X22.  An identifier of the earlier serializer holds no at sign and no
    square bracket, and a path without them is its own identifier. *)
Theorem fileNameToMermaidId_v0_free (c : ascii) (fileName : string) :
  isAtOrBracket c = true ->
  hasChar c (fileNameToMermaidId_v0 fileName) = false
  /\ ((forall d, isAtOrBracket d = true -> hasChar d fileName = false) ->
      fileNameToMermaidId_v0 fileName = fileName).
Proof.
  intros Hc. unfold fileNameToMermaidId_v0. split.
  - apply hasChar_join; [|now apply splitOn_free].
    unfold isAtOrBracket in Hc. apply existsb_exists in Hc as [d [Hd Hcd]].
    apply Ascii.eqb_eq in Hcd. subst d. simpl in Hd.
    repeat (destruct Hd as [<-|Hd]; [reflexivity|]). contradiction.
  - intros H. now rewrite splitOn_none.
Qed.

Lemma fileNameToMermaidId_v0_free_witness :
  isAtOrBracket "@"%char = true
  /\ hasChar "@"%char (fileNameToMermaidId_v0 "src/@types/[id].ts") = false.
Proof.
  split; [reflexivity|].
  apply (fileNameToMermaidId_v0_free "@"%char "src/@types/[id].ts").
  reflexivity.
Defined.

(** X23.  The markdown file of the earlier serializer is the title, an empty
    line, the opening fence and the left-to-right direction line, then the
    groups (four strings per tree node and two per file), then one arrow line
    and one line break per relation in the order of the relations, then the
    closing fence, whatever the trees and the relations. *)
Theorem writeMarkdown_fenced (dirAndNodesTree : list Tree.t)
  (relations : list Relation) :
  exists groups,
    writeMarkdown dirAndNodesTree relations
    = [("# typescript graph on mermaid" ++ nl)%string; nl;
       ("```mermaid" ++ nl)%string; "flowchart LR"; nl]
      ++ groups
      ++ flat_map (fun r => [arrowLine_v0 r; nl]) relations
      ++ [("```" ++ nl)%string]
    /\ List.length groups
       = 4 * List.length (treeNodes dirAndNodesTree)
         + 2 * List.length (flat_map Tree.nodes (treeNodes dirAndNodesTree)).
Proof.
  exists (flat_map (fun t => addGraph_v0 t []) dirAndNodesTree). split.
  - unfold writeMarkdown.
    rewrite (fold_left_appends _ (fun t => addGraph_v0 t []))
      by (intros x _ o; apply addGraph_v0_appends).
    assert (E : forall rs o,
              fold_left
                (fun o relation =>
                   write nl
                     (write ("    " ++ fst relation ++ "-->" ++ snd relation) o))
                (map
                   (fun relation =>
                      (fileNameToMermaidId_v0 (path (from relation)),
                       fileNameToMermaidId_v0 (path (to relation))))
                   rs) o
              = o ++ flat_map (fun r => [arrowLine_v0 r; nl]) rs).
    { induction rs as [|r rs IH]; intros o; simpl.
      - now rewrite app_nil_r.
      - rewrite IH. unfold write. now rewrite <- !app_assoc. }
    rewrite E. unfold write. simpl. now rewrite <- !app_assoc.
  - induction dirAndNodesTree as [|t l IH]; [reflexivity|].
    unfold treeNodes in *. cbn [flat_map].
    rewrite !flat_map_app, !length_app, IH, addGraph_v0_length. lia.
Qed.
